(** * speedy-vision: shader preprocessor, pipeline ports, keypoint codec,
    fence polling

  A shallow embedding of these parts of the GPU pipeline engine:

  - [shader-preprocessor.js]: [generateGLSL], [generateUnprocessedGLSL],
    [generateConstants], [readfileSync], [unrollLoops], [unroll] and the
    regular expressions they are driven by;
  - [pipeline-portspec.js] and [pipeline-port.js]: port specifications,
    input and output ports;
  - [keypoints.glsl]: [readKeypointData] and [decodeKeypoint], the
    addresses of the records ([findKeypointAddress], [findKeypointIndex])
    and [encodeKeypointPosition];
  - [encode-keypoints.glsl]: [findQthKeypoint];
  - [speedy-texture-reader.js]: [_clientWaitAsync], the constructor,
    [_reallocate] and [readPixelsSync];
  - [speedy-matrix.js]: the constructor, [Create], [Zeros], [Ones],
    [Eye], [block], [row], [column], [diagonal], [at] and [read].

  Conventions of the embedding.

  - A JavaScript string is a sequence of UTF-16 code units; the embedding
    uses [string], i.e. it covers the code units below 256.
  - A JavaScript number that the code uses as an integer is a [Z]. This is
    exact as long as the values stay within the safe-integer range
    (magnitude below 2^53), which is also the range in which
    [String(n)] prints plain decimal digits.
  - An exception is a value of [exn]; code that may throw returns a
    [result]. Recursion that JavaScript does not bound (the expansion of
    [@include]) takes a fuel argument and returns [Diverge] when the fuel
    runs out. *)

From Stdlib Require Import ZArith List String Ascii Bool Lia QArith Qround.
Import ListNotations.

Local Open Scope string_scope.
Local Open Scope Z_scope.

(* ===================================================================== *)
(** * Strings *)
(* ===================================================================== *)

Module Str.

(** [s.startsWith(p)]: when [p] is a prefix of [s], the rest of [s]. *)
Fixpoint strip_prefix (p s : string) : option string :=
  match p with
  | EmptyString => Some s
  | String a p' =>
      match s with
      | String b s' => if Ascii.eqb a b then strip_prefix p' s' else None
      | EmptyString => None
      end
  end.

(** Canonicalisation of the [i] flag: upper case for the letters a-z. *)
Definition upcase (c : ascii) : ascii :=
  let n := N_of_ascii c in
  if ((97 <=? n) && (n <=? 122))%N then ascii_of_N (n - 32) else c.

Fixpoint strip_prefix_ci (p s : string) : option string :=
  match p with
  | EmptyString => Some s
  | String a p' =>
      match s with
      | String b s' =>
          if Ascii.eqb (upcase a) (upcase b) then strip_prefix_ci p' s'
          else None
      | EmptyString => None
      end
  end.

(** [s.substring(0, n)] *)
Fixpoint take (n : nat) (s : string) : string :=
  match n, s with
  | S n', String c s' => String c (take n' s')
  | _, _ => EmptyString
  end.

(** [parts.join('')] *)
Fixpoint join (parts : list string) : string :=
  match parts with
  | [] => EmptyString
  | p :: ps => p ++ join ps
  end.

(** [parts.join(sep)] *)
Fixpoint join_with (sep : string) (parts : list string) : string :=
  match parts with
  | [] => EmptyString
  | [p] => p
  | p :: ps => p ++ sep ++ join_with sep ps
  end.

Definition code (c : ascii) : N := N_of_ascii c.

Definition in_range (lo hi : N) (c : ascii) : bool :=
  ((lo <=? code c) && (code c <=? hi))%N.

(** The ten decimal digits, [\d]. *)
Definition is_digit (c : ascii) : bool := in_range 48 57 c.

(** [\w] is [[A-Za-z0-9_]]. *)
Definition is_word (c : ascii) : bool :=
  in_range 65 90 c || in_range 97 122 c || is_digit c || (code c =? 95)%N.

(** Line terminators among the code units below 256: LF and CR. *)
Definition is_line_terminator (c : ascii) : bool :=
  ((code c =? 10) || (code c =? 13))%N.

(** [\s] among the code units below 256: TAB, LF, VT, FF, CR, SPACE and
    the no-break space. *)
Definition is_space (c : ascii) : bool :=
  (in_range 9 13 c || (code c =? 32) || (code c =? 160))%N.

(** [.] (without the [s] flag): anything but a line terminator. *)
Definition is_dot (c : ascii) : bool := negb (is_line_terminator c).

Definition nl : string := String (ascii_of_N 10) EmptyString.

(** The double quote character. *)
Definition dquote : string := String (ascii_of_N 34) EmptyString.

End Str.

(* ===================================================================== *)
(** * Regular expressions

  A backtracking matcher in the style of the ECMAScript specification:
  a pattern is matched against the input from a position, with a
  continuation that plays the role of "the rest of the pattern". The
  constructors cover what the preprocessor's patterns use. *)
(* ===================================================================== *)

Module Regex.
Import Str.

Inductive regex : Type :=
| Lit (s : string)                       (* a run of literal characters *)
| Cls (p : ascii -> bool)                (* one character of a class *)
| Seq (r1 r2 : regex)                    (* r1 r2 *)
| Alt (r1 r2 : regex)                    (* r1|r2 *)
| Quant (greedy : bool) (lo : nat) (hi : option nat) (r : regex)
                                         (* r* r+ r? and their lazy forms *)
| Group (n : nat) (r : regex)            (* n-th capturing group *)
| Backref (n : nat)                      (* \n or \k<name> *)
| LitCI (s : string)                     (* literal characters, i flag *)
| Bol                                    (* ^ with the m flag *)
| Eol                                    (* $ with the m flag *)
| Start                                  (* ^ without the m flag *)
| End                                    (* $ without the m flag *)
| WordBoundary.                          (* \b *)

(** Captures: group number to captured text. A group that did not take
    part in the match is absent (JavaScript: [undefined]). *)
Definition captures := list (nat * string).

Fixpoint capture (cs : captures) (n : nat) : option string :=
  match cs with
  | [] => None
  | (m, s) :: cs' => if Nat.eqb m n then Some s else capture cs' n
  end.

(** The state of a match in progress: the character before the current
    position (for [^] and [\b]), the current position, the input that is
    left, and the captures so far. *)
Record mstate : Type := MState {
  prev : option ascii;
  pos : nat;
  rest : string;
  caps : captures
}.

(** The character before the position reached after reading [s]. *)
Fixpoint last_of (pv : option ascii) (s : string) : option ascii :=
  match s with
  | EmptyString => pv
  | String c s' => last_of (Some c) s'
  end.

Definition is_word_opt (c : option ascii) : bool :=
  match c with Some c => is_word c | None => false end.

Definition head (s : string) : option ascii :=
  match s with String c _ => Some c | EmptyString => None end.

Definition cont := mstate -> option mstate.

(** One iteration after another of a quantified pattern. [step] matches
    the quantified pattern once; an iteration that consumes nothing is
    refused once the minimum is reached, as in ECMAScript, so every
    iteration lowers [lo] or consumes input and
    [fuel] = [lo] + remaining input + 1 is never exhausted. *)
Fixpoint iterate (step : mstate -> cont -> option mstate)
         (greedy : bool) (lo : nat) (hi : option nat)
         (fuel : nat) (st : mstate) (k : cont) : option mstate :=
  match fuel with
  | O => None
  | S fuel' =>
      let stop (_ : unit) := match lo with O => k st | S _ => None end in
      let more (_ : unit) :=
        match hi with
        | Some O => None
        | _ =>
            step st (fun st' =>
              if (Nat.eqb (pos st') (pos st) && Nat.eqb lo 0)%bool then None
              else iterate step greedy (Nat.pred lo) (option_map Nat.pred hi)
                           fuel' st' k)
        end in
      if greedy
      then match more tt with Some r => Some r | None => stop tt end
      else match stop tt with Some r => Some r | None => more tt end
  end.

Fixpoint rmatch (r : regex) (st : mstate) (k : cont) : option mstate :=
  match r with
  | Lit s =>
      match strip_prefix s (rest st) with
      | Some rest' =>
          k (MState (last_of (prev st) s) (pos st + String.length s) rest'
                    (caps st))
      | None => None
      end
  | Cls p =>
      match rest st with
      | String c rest' =>
          if p c then k (MState (Some c) (S (pos st)) rest' (caps st))
          else None
      | EmptyString => None
      end
  | Seq r1 r2 => rmatch r1 st (fun st' => rmatch r2 st' k)
  | Alt r1 r2 =>
      match rmatch r1 st k with
      | Some res => Some res
      | None => rmatch r2 st k
      end
  | Quant greedy lo hi r' =>
      iterate (rmatch r') greedy lo hi (S (lo + String.length (rest st))) st k
  | Group n r' =>
      rmatch r' st (fun st' =>
        k (MState (prev st') (pos st') (rest st')
                  ((n, take (pos st' - pos st) (rest st)) :: caps st')))
  | Backref n =>
      match capture (caps st) n with
      | Some s =>
          match strip_prefix s (rest st) with
          | Some rest' =>
              k (MState (last_of (prev st) s) (pos st + String.length s)
                        rest' (caps st))
          | None => None
          end
      | None => k st
      end
  | LitCI s =>
      match strip_prefix_ci s (rest st) with
      | Some rest' =>
          k (MState (last_of (prev st) (take (String.length s) (rest st)))
                    (pos st + String.length s) rest' (caps st))
      | None => None
      end
  | Start => match prev st with None => k st | Some _ => None end
  | End => match rest st with EmptyString => k st | String _ _ => None end
  | Bol =>
      match prev st with
      | None => k st
      | Some c => if is_line_terminator c then k st else None
      end
  | Eol =>
      match rest st with
      | EmptyString => k st
      | String c _ => if is_line_terminator c then k st else None
      end
  | WordBoundary =>
      if xorb (is_word_opt (prev st)) (is_word_opt (head (rest st)))
      then k st else None
  end.

(** A match of [r] that starts exactly at the current position. *)
Definition match_here (r : regex) (pv : option ascii) (p : nat) (s : string)
  : option mstate :=
  rmatch r (MState pv p s []) Some.

(** [r.exec(text)] from a position on: the leftmost start at which [r]
    matches. Returns the start position and the final state. *)
Fixpoint search_from (r : regex) (pv : option ascii) (p : nat) (s : string)
  : option (nat * mstate) :=
  match match_here r pv p s with
  | Some st => Some (p, st)
  | None =>
      match s with
      | String c s' => search_from r (Some c) (S p) s'
      | EmptyString => None
      end
  end.

Definition search (r : regex) (text : string) : option (nat * mstate) :=
  search_from r None 0 text.

(** [r.test(text)] *)
Definition test (r : regex) (text : string) : bool :=
  match search r text with Some _ => true | None => false end.

(** All matches of a pattern with the [g] flag, as
    [RegExp.prototype[Symbol.replace]] collects them: leftmost first, the
    search resuming where the previous match ended, or one character
    further when that match was empty. [skip] counts the characters still
    covered by the previous match. *)
Fixpoint find_all_from (r : regex) (skip : nat) (pv : option ascii)
         (p : nat) (s : string) : list (nat * mstate) :=
  match skip with
  | S skip' =>
      match s with
      | String c s' => find_all_from r skip' (Some c) (S p) s'
      | EmptyString => []
      end
  | O =>
      match match_here r pv p s with
      | Some st =>
          (p, st) ::
          match s with
          | String c s' =>
              find_all_from r (Nat.pred (pos st - p)) (Some c) (S p) s'
          | EmptyString => []
          end
      | None =>
          match s with
          | String c s' => find_all_from r 0 (Some c) (S p) s'
          | EmptyString => []
          end
      end
  end.

Definition find_all (r : regex) (text : string) : list (nat * mstate) :=
  find_all_from r 0 None 0 text.

(** The text of capturing group [n] as the replacer function receives
    it. Every group of the patterns below takes part in every match. *)
Definition group (cs : captures) (n : nat) : string :=
  match capture cs n with Some s => s | None => "" end.

(** Shorthands for the quantifiers. *)
Definition star (r : regex) : regex := Quant true 0 None r.
Definition plus (r : regex) : regex := Quant true 1 None r.
Definition opt (r : regex) : regex := Quant true 0 (Some 1%nat) r.
Definition lazy_star (r : regex) : regex := Quant false 0 None r.
Definition lazy_plus (r : regex) : regex := Quant false 1 None r.

Fixpoint sequence (rs : list regex) : regex :=
  match rs with
  | [] => Lit ""
  | [r] => r
  | r :: rs' => Seq r (sequence rs')
  end.

End Regex.

(* ===================================================================== *)
(** * JavaScript built-ins used by the preprocessor *)
(* ===================================================================== *)

Module JS.
Import Str.

(** [String(n)] for an integer [n] of the safe range: decimal digits with
    a leading minus sign for negative numbers. *)
Definition digit_char (d : N) : ascii := ascii_of_N (48 + d).

Fixpoint digits_of (fuel : nat) (n : N) (acc : string) : string :=
  match fuel with
  | O => acc
  | S fuel' =>
      let acc' := String (digit_char (n mod 10)) acc in
      if (n <? 10)%N then acc' else digits_of fuel' (n / 10) acc'
  end.

Definition N_to_string (n : N) : string :=
  digits_of (S (N.to_nat (N.log2 n))) n "".

Definition String_of_number (z : Z) : string :=
  match z with
  | Z0 => "0"
  | Zpos p => N_to_string (Npos p)
  | Zneg p => "-" ++ N_to_string (Npos p)
  end.

(** Value of a digit in a radix up to 16, if it is one. *)
Definition digit_value (radix : N) (c : ascii) : option N :=
  let n := code c in
  let v := if in_range 48 57 c then Some (n - 48)%N
           else if in_range 97 102 c then Some (n - 87)%N
           else if in_range 65 70 c then Some (n - 55)%N
           else None in
  match v with
  | Some d => if (d <? radix)%N then Some d else None
  | None => None
  end.

(** The longest prefix of digits of [s] in [radix]: how many there are,
    their value, and what follows them. *)
Fixpoint read_digits (radix : N) (s : string) (count : nat) (acc : N)
  : nat * N * string :=
  match s with
  | String c s' =>
      match digit_value radix c with
      | Some d => read_digits radix s' (S count) (acc * radix + d)%N
      | None => (count, acc, s)
      end
  | EmptyString => (count, acc, s)
  end.

Fixpoint trim_start (s : string) : string :=
  match s with
  | String c s' => if is_space c then trim_start s' else s
  | EmptyString => s
  end.

(** Does [s] consist of white space only? *)
Fixpoint all_space (s : string) : bool :=
  match s with
  | String c s' => is_space c && all_space s'
  | EmptyString => true
  end.

(** [parseInt(s)] with no radix argument. [None] stands for [NaN]. *)
Definition parseInt (s : string) : option Z :=
  let s := trim_start s in
  let '(neg, s) :=
    match s with
    | String "-" s' => (true, s')
    | String "+" s' => (false, s')
    | _ => (false, s)
    end in
  let '(radix, s) :=
    match s with
    | String "0" (String "x" s') => (16%N, s')
    | String "0" (String "X" s') => (16%N, s')
    | _ => (10%N, s)
    end in
  match read_digits radix s 0 0 with
  | (O, _, _) => None
  | (_, v, _) => Some (if neg then - Z.of_N v else Z.of_N v)
  end.

(** The smallest magnitude that [Number(...)] rounds to [Infinity]:
    half-way between the largest double and 2^1024. *)
Definition overflow_threshold : Z := 2 ^ 1024 - 2 ^ 970.

(** Is [m * 10^e] below the overflow threshold? *)
Definition finite_magnitude (m : N) (e : Z) : bool :=
  if (m =? 0)%N then true
  else if 0 <=? e then Z.of_N m * 10 ^ e <? overflow_threshold
  else Z.of_N m <? overflow_threshold * 10 ^ (- e).

(** The optional exponent part of a decimal literal, which must reach
    the end of the literal (trailing white space apart). *)
Definition read_exponent (s : string) : option Z :=
  match s with
  | String c s' =>
      if (Ascii.eqb c "e" || Ascii.eqb c "E")%bool then
        let '(neg, s'') :=
          match s' with
          | String "-" t => (true, t)
          | String "+" t => (false, t)
          | _ => (false, s')
          end in
        match read_digits 10 s'' 0 0 with
        | (O, _, _) => None
        | (_, v, tl) =>
            if all_space tl then Some (if neg then - Z.of_N v else Z.of_N v)
            else None
        end
      else if all_space s then Some 0 else None
  | EmptyString => Some 0
  end.

(** [StrUnsignedDecimalLiteral] other than [Infinity], read up to the end
    of the string: is it well formed and of finite value? *)
Definition finite_decimal (s : string) : bool :=
  let '(n1, v1, s1) := read_digits 10 s 0 0 in
  let '(n2, v2, s2) :=
    match s1 with
    | String "." t =>
        let '(n2, v2, s2) := read_digits 10 t 0 0 in
        (* value of all digits read, the fraction having n2 of them *)
        (n2, (v1 * 10 ^ N.of_nat n2 + v2)%N, s2)
    | _ => (O, v1, s1)
    end in
  match n1, n2 with
  | O, O => false                      (* no digit at all *)
  | _, _ =>
      match read_exponent s2 with
      | Some e => finite_magnitude v2 (e - Z.of_nat n2)
      | None => false
      end
  end.

(** A whole-string literal in radix 16, 8 or 2 after its two-character
    prefix. *)
Definition finite_radix (radix : N) (s : string) : bool :=
  match read_digits radix s 0 0 with
  | (O, _, _) => false
  | (_, v, tl) => all_space tl && finite_magnitude v 0
  end.

(** [Number.isFinite(+s)]: [s] converts to a number ([StringToNumber])
    that is neither [NaN] nor an infinity. *)
Definition isFinite_of_string (s : string) : bool :=
  let s := trim_start s in
  match s with
  | EmptyString => true                              (* +'' is 0 *)
  | String "0" (String "x" t) | String "0" (String "X" t) => finite_radix 16 t
  | String "0" (String "o" t) | String "0" (String "O" t) => finite_radix 8 t
  | String "0" (String "b" t) | String "0" (String "B" t) => finite_radix 2 t
  | String "-" t | String "+" t => finite_decimal t
  | _ => finite_decimal s
  end.

End JS.

(* ===================================================================== *)
(** * shader-preprocessor.js *)
(* ===================================================================== *)

Module ShaderPreprocessor.
Import Str Regex JS.

(** ** Errors and results *)

Inductive exn : Type :=
| ParseError (msg : string)
| FileNotFoundError (msg : string)
| AssertionError                   (* Utils.assert(false) *)
| ModuleNotFound (path : string).  (* require() of a file that is not there *)

Inductive result (A : Type) : Type :=
| Ok (a : A)
| Throw (e : exn)
| Diverge.
Arguments Ok {A} a.
Arguments Throw {A} e.
Arguments Diverge {A}.

(** Computations that may throw and that share the [errors] array of one
    call of [generateGLSL]. *)
Definition M (A : Type) : Type := list string -> result (A * list string).

Definition ret {A} (a : A) : M A := fun errors => Ok (a, errors).

Definition bind {A B} (m : M A) (f : A -> M B) : M B :=
  fun errors =>
    match m errors with
    | Ok (a, errors') => f a errors'
    | Throw e => Throw e
    | Diverge => Diverge
    end.

Definition lift {A} (r : result A) : M A :=
  fun errors =>
    match r with
    | Ok a => Ok (a, errors)
    | Throw e => Throw e
    | Diverge => Diverge
    end.

(** [errors.push(msg)] *)
Definition push_error (msg : string) : M unit :=
  fun errors => Ok (tt, (errors ++ [msg])%list).

(** The value of [errors] *)
Definition get_errors : M (list string) :=
  fun errors => Ok (errors, errors).

Notation "x <- m ;; k" := (bind m (fun x => k))
  (at level 61, m at next level, right associativity).

(** ** [Map<string, number>] and plain objects used as tables

    Kept in insertion order, one entry per key. *)

Definition ShaderPreprocessorConstants : Type := list (string * Z).

Fixpoint map_get (m : ShaderPreprocessorConstants) (key : string)
  : option Z :=
  match m with
  | [] => None
  | (k, v) :: m' => if String.eqb k key then Some v else map_get m' key
  end.

Definition map_has (m : ShaderPreprocessorConstants) (key : string) : bool :=
  match map_get m key with Some _ => true | None => false end.

Fixpoint map_set (m : ShaderPreprocessorConstants) (key : string) (v : Z)
  : ShaderPreprocessorConstants :=
  match m with
  | [] => [(key, v)]
  | (k, w) :: m' =>
      if String.eqb k key then (k, v) :: m' else (k, w) :: map_set m' key v
  end.

Definition map_size (m : ShaderPreprocessorConstants) : Z :=
  Z.of_nat (List.length m).

(** [Object.assign(target, source)] and the spread of [source] into an
    object literal. *)
Definition assign (target source : ShaderPreprocessorConstants)
  : ShaderPreprocessorConstants :=
  fold_left (fun obj kv => map_set obj (fst kv) (snd kv)) source target.

(** ** What the module takes from its surroundings *)

Record Env : Type := {
  (** the numeric entries of [utils/globals] *)
  numericGlobals : ShaderPreprocessorConstants;
  (** [PixelComponent] of [utils/types] *)
  PixelComponent_RED : Z;
  PixelComponent_GREEN : Z;
  PixelComponent_BLUE : Z;
  PixelComponent_ALPHA : Z;
  (** [Utils.platformString()] *)
  platformString : string;
  (** [SpeedyGL.instance.renderer] *)
  renderer : string;
  (** [SpeedyGL.isInitialized()] *)
  isInitialized : bool;
  (** the files of [shaders/include/] *)
  includeFolder : string -> option string
}.

(** ** Constants available to all shaders *)

Definition basicConstants (env : Env) : ShaderPreprocessorConstants :=
  assign (numericGlobals env)
    [ ("FS_USE_CUSTOM_PRECISION", 0);
      ("FS_OUTPUT_TYPE", 0);
      ("PIXELCOMPONENT_RED", PixelComponent_RED env);
      ("PIXELCOMPONENT_GREEN", PixelComponent_GREEN env);
      ("PIXELCOMPONENT_BLUE", PixelComponent_BLUE env);
      ("PIXELCOMPONENT_ALPHA", PixelComponent_ALPHA env) ].

(** [b | 0] for a boolean [b] *)
Definition bool_or_0 (b : bool) : Z := if b then 1 else 0.

Definition platformConstants (platform glRenderer : string)
  : ShaderPreprocessorConstants :=
  [ ("APPLE",
     bool_or_0 (test (Group 1 (Alt (LitCI "Mac") (Alt (LitCI "iOS")
                  (Alt (LitCI "iPhone") (Alt (LitCI "iPad") (LitCI "iPod"))))))
                     platform));
    ("APPLE_GPU", bool_or_0 (test (Lit "Apple") glRenderer));
    ("INTEL_GRAPHICS",
     bool_or_0 (test (sequence [ Lit "Intel"; star (Cls is_dot);
                                 Lit "Graphics" ])
                     glRenderer)) ].

(** ** Regular expressions *)

Definition sp : regex := Cls is_space.
Definition wd : regex := Cls is_word.
Definition dg : regex := Cls is_digit.
(** [[\s\S]] *)
Definition any : regex := Cls (fun c => is_space c || negb (is_space c)).

(** [/\/\*(.|\s)*?\*\//g] and [/\/\/.*$/gm] *)
Definition commentsRegex0 : regex :=
  sequence [ Lit "/*"; lazy_star (Group 1 (Alt (Cls is_dot) sp)); Lit "*/" ].
Definition commentsRegex1 : regex :=
  sequence [ Lit "//"; star (Cls is_dot); Eol ].

(** [/^\s*@\s*include\s+"(.*?)"/gm] *)
Definition includeRegex : regex :=
  sequence [ Bol; star sp; Lit "@"; star sp; Lit "include"; plus sp;
             Lit dquote; Group 1 (lazy_star (Cls is_dot)); Lit dquote ].

(** [/@(\w+)@/g] *)
Definition constantRegex : regex :=
  sequence [ Lit "@"; Group 1 (plus wd); Lit "@" ].

(** [(-?\d+|\w+)] *)
Definition limit : regex := Alt (Seq (opt (Lit "-")) (plus dg)) (plus wd).

(** The two patterns of [unrollRegex] differ in how the counter is
    incremented: [\+\+()] or [\+=\s*(-?\d+)]. The named group [counter]
    is group 2. *)
Definition unrollPattern (increment : regex) : regex :=
  sequence [ Lit "@"; star sp; Lit "unroll"; lazy_plus sp; Lit "for";
             star sp; Lit "("; star sp;
             Group 1 (Alt (Lit "int") (Lit "")); star sp;
             Group 2 (plus wd); star sp; Lit "="; star sp;
             Group 3 limit; star sp; Lit ";"; star sp;
             Backref 2; star sp;
             Group 4 (Seq (Lit "<") (opt (Lit "="))); star sp;
             Group 5 limit; star sp; Lit ";"; star sp;
             Backref 2; star sp; increment; star sp; Lit ")"; star sp;
             Lit "{"; star sp; Group 7 (lazy_plus any); star sp; Lit "}" ].

Definition unrollRegex : list regex :=
  [ unrollPattern (Seq (Lit "++") (Group 6 (Lit "")));
    unrollPattern (sequence [ Lit "+="; star sp;
                              Group 6 (Seq (opt (Lit "-")) (plus dg)) ]) ].

(** [/\bbreak\s*;/] *)
Definition breakRegex : regex :=
  sequence [ WordBoundary; Lit "break"; star sp; Lit ";" ].

(** [/^[a-zA-Z0-9_-]+\.glsl$/] *)
Definition filenameRegex : regex :=
  sequence [ Start;
             plus (Cls (fun c => in_range 97 122 c || in_range 65 90 c
                                 || in_range 48 57 c || Ascii.eqb c "_"
                                 || Ascii.eqb c "-"));
             Lit ".glsl"; End ].

(** ** [String.prototype.replace] with a global pattern and a replacer
    function: the matches are those of [find_all]; the replacer is called
    for each of them in turn, and what lies between them is kept. [next]
    is the position from which the source text has not been copied. *)
Fixpoint splice (f : string -> captures -> M string) (text : string)
         (next : nat) (ms : list (nat * mstate)) : M string :=
  match ms with
  | [] => ret (substring next (String.length text - next) text)
  | (p, st) :: ms' =>
      let len := (pos st - p)%nat in
      replacement <- f (substring p len text) (caps st) ;;
      tail <- splice f text (p + len) ms' ;;
      ret (substring next (p - next) text ++ replacement ++ tail)
  end.

Definition replace (r : regex) (f : string -> captures -> M string)
           (text : string) : M string :=
  splice f text 0 (find_all r text).

(** ** The functions of the module *)

(** [generateUnprocessedGLSL(defines, infix, prefix, suffix)]; [None] is
    [null]. *)
Definition defineLine (kv : string * Z) : string :=
  "#define " ++ fst kv ++ " " ++ String_of_number (snd kv).

Definition generateUnprocessedGLSL (defines : ShaderPreprocessorConstants)
           (infix : string) (prefix suffix : option string) : string :=
  let parts :=
    ((match prefix with Some p => [p] | None => [] end)
     ++ map defineLine defines
     ++ [infix]
     ++ (match suffix with Some x => [x] | None => [] end))%list in
  join_with nl parts.

(** [generateConstants(defines)]: the constants of the user override the
    globally available ones. *)
Definition generateConstants (env : Env)
           (defines : ShaderPreprocessorConstants)
  : result ShaderPreprocessorConstants :=
  if negb (isInitialized env) then Throw AssertionError
  else
    let globalConstants :=
      assign (assign [] (basicConstants env))
             (platformConstants (platformString env) (renderer env)) in
    let myConstants := assign [] globalConstants in
    Ok (assign myConstants defines).

(** [readfileSync(filename)] *)
Definition readfileSync (env : Env) (filename : string) : result string :=
  if test filenameRegex filename then
    match includeFolder env filename with
    | Some contents => Ok contents
    | None => Throw (ModuleNotFound ("./shaders/include/" ++ filename))
    end
  else
    Throw (FileNotFoundError
             ("Shader preprocessor: can't read file " ++ dquote ++ filename
              ++ dquote)).

(** One copy of the body of an unrolled loop. *)
Definition unrolledCopy (counter loopcode : string) (i : Z) : string :=
  "{" ++ nl ++ counter ++ " = " ++ String_of_number i ++ ";" ++ nl
      ++ loopcode ++ nl ++ "}" ++ nl.

(** [for(let i = istart; i < iend; i += istep) unrolledCode += ...].
    [None] when [fuel] iterations were not enough. *)
Fixpoint unrollFor (fuel : nat) (counter loopcode : string)
         (i iend istep : Z) (unrolledCode : string) : option string :=
  if i <? iend then
    match fuel with
    | O => None
    | S fuel' =>
        unrollFor fuel' counter loopcode (i + istep) iend istep
                  (unrolledCode ++ unrolledCopy counter loopcode i)
    end
  else Some unrolledCode.

(** [Number.isFinite(+limit) || defines.has(limit)]: is the limit of the
    loop a numeric constant or a defined number? *)
Definition hasLimit (defines : ShaderPreprocessorConstants) (limit : string)
  : bool :=
isFinite_of_string limit || map_has defines limit.

(** [defines.has(limit) ? defines.get(limit) : parseInt(limit)]; [None] is
    [NaN]. *)
Definition limitValue (defines : ShaderPreprocessorConstants)
           (limit : string) : option Z :=
if map_has defines limit then map_get defines limit else parseInt limit.

(** [(step.length == 0) ? 1 : parseInt(step)] *)
Definition stepValue (step : string) : option Z :=
if (String.length step =? 0)%nat then Some 1 else parseInt step.

(** [unroll.call(defines, match, type, counter, start, cmp, end, step,
    loopcode)]. Every comparison with [NaN] is false, so the assertion
    fails when a limit or the step is [NaN]. The step is at least 1 where
    the loop is entered, so [iend - istart] iterations are enough. *)
Definition unroll (defines : ShaderPreprocessorConstants)
           (match_ type counter start cmp end_ step loopcode : string)
  : result string :=
let hasStart := hasLimit defines start in
let hasEnd := hasLimit defines end_ in
if negb hasStart || negb hasEnd then
  if 0 <? map_size defines then
    Throw (ParseError
             ("Can't unroll loop: unknown limits (start=" ++ start
              ++ ", end=" ++ end_ ++ "). Code:" ++ nl ++ nl ++ match_))
  else
    Ok match_
else
  match limitValue defines start, limitValue defines end_, stepValue step with
  | Some istart, Some iend, Some istep =>
      if (istart <=? iend) && (0 <? istep) then
        let hasBreak := test breakRegex loopcode in
        let unrolledCode :=
          if hasBreak then "switch(1) { default:" ++ nl else "{" ++ nl in
        let unrolledCode :=
          unrolledCode ++ type ++ " " ++ counter ++ ";" ++ nl in
        let iend := iend + (if String.eqb cmp "<=" then 1 else 0) in
        match unrollFor (Z.to_nat (iend - istart)) counter loopcode
                        istart iend istep unrolledCode with
        | Some unrolledCode => Ok (unrolledCode ++ "}" ++ nl)
        | None => Diverge
        end
      else Throw AssertionError
  | _, _, _ => Throw AssertionError
  end.

(** The replacer that [unrollLoops] hands to [replace]: [unroll] bound to
    [defines], applied to the match and its seven groups. *)
Definition unrollReplacer (defines : ShaderPreprocessorConstants)
           (match_ : string) (cs : captures) : M string :=
  lift (unroll defines match_ (group cs 1) (group cs 2) (group cs 3)
               (group cs 4) (group cs 5) (group cs 6) (group cs 7)).

(** [unrollLoops(code, defines)] *)
Definition unrollLoops (code : string)
           (defines : ShaderPreprocessorConstants) : M string :=
  let fn := unrollReplacer defines in
  fold_left (fun code r => c <- code ;; replace r fn c) unrollRegex
            (ret code).

(** The replacer of [constantRegex]. *)
Definition constantReplacer (constants : ShaderPreprocessorConstants)
           (_ : string) (cs : captures) : M string :=
  let name := group cs 1 in
  match map_get constants name with
  | Some v => ret (String_of_number v)
  | None =>
      _ <- push_error ("Undefined constant " ++ name) ;;
      ret (String_of_number 0)
  end.

(** [ShaderPreprocessor.generateGLSL(defines, infix, prefix, suffix)].
    The expansion of [@include] calls the function again, with nothing to
    bound it: each level of nesting takes one unit of [fuel]. *)
Fixpoint generateGLSL (fuel : nat) (env : Env)
         (defines : ShaderPreprocessorConstants) (infix : string)
         (prefix suffix : option string) {struct fuel} : result string :=
  match fuel with
  | O => Diverge
  | S fuel' =>
      match generateConstants env defines with
      | Throw e => Throw e
      | Diverge => Diverge
      | Ok constants =>
          let annotatedGLSL :=
            generateUnprocessedGLSL defines infix prefix suffix in
          let includeReplacer (_ : string) (cs : captures) : M string :=
            lift (match readfileSync env (group cs 1) with
                  | Ok contents =>
                      generateGLSL fuel' env defines contents None None
                  | Throw e => Throw e
                  | Diverge => Diverge
                  end) in
          let run : M string :=
            code <- replace commentsRegex0 (fun _ _ => ret "")
                            annotatedGLSL ;;
            code <- replace commentsRegex1 (fun _ _ => ret "") code ;;
            code <- replace constantRegex (constantReplacer constants)
                            code ;;
            code <- replace includeRegex includeReplacer code ;;
            code <- unrollLoops code defines ;;
            errors <- get_errors ;;
            ret (code ++ join (map (fun msg => nl ++ "#error " ++ msg ++ nl)
                                   errors)) in
          match run [] with
          | Ok (glsl, _) => Ok glsl
          | Throw e => Throw e
          | Diverge => Diverge
          end
      end
  end.

(** ** The pipeline as the specification words it

    Four stages, each a function of its own, composed in the order in
    which the specification lists them. The theory below compares this
    with [generateGLSL]. *)






(** Where the matches of a pattern start and end in a text. *)
Definition spans (r : regex) (text : string) : list (nat * nat) :=
map (fun m => (fst m, pos (snd m))) (find_all r text).

(** The groups 1 to 7 of the first match of a pattern. *)
Definition firstGroups (r : regex) (text : string) : list string :=
match find_all r text with
| [] => []
| (_, st) :: _ => map (group (caps st)) [1; 2; 3; 4; 5; 6; 7]%nat
end.


(** A text is fully resolved when none of the patterns of the
    preprocessor finds anything in it: no comment, no [@NAME@], no
    [@include], no [@unroll] loop. *)
Definition fullyResolved (text : string) : Prop :=
test commentsRegex0 text = false /\
test commentsRegex1 text = false /\
test constantRegex text = false /\
test includeRegex text = false /\
Forall (fun r => test r text = false) unrollRegex.



(** An unrolled loop: the opening of the new scope, the declaration of
    the counter, one copy of the body per counter value, the closing of
    the scope. *)
Definition expansion (hasBreak : bool) (type counter loopcode : string)
           (values : list Z) : string :=
(if hasBreak then "switch(1) { default:" ++ nl else "{" ++ nl)
  ++ type ++ " " ++ counter ++ ";" ++ nl
  ++ join (map (unrolledCopy counter loopcode) values)
  ++ "}" ++ nl.

(** ** An environment to run examples in *)

Definition exampleFiles (filename : string) : option string :=
if String.eqb filename "f1.glsl" then Some "float f1;"
else if String.eqb filename "open.glsl"
     then Some "@unroll for(int i=0;i<2;i++){"
else if String.eqb filename "loop.glsl"
     then Some ("@include " ++ dquote ++ "loop.glsl" ++ dquote)
else None.

Definition exampleEnv : Env :=
{| numericGlobals := [("PYRAMID_MAX_LEVELS", 8)];
   PixelComponent_RED := 1;
   PixelComponent_GREEN := 2;
   PixelComponent_BLUE := 4;
   PixelComponent_ALPHA := 8;
   platformString := "Linux x86_64";
   renderer := "Mesa";
   isInitialized := true;
   includeFolder := exampleFiles |}.

End ShaderPreprocessor.

(* ===================================================================== *)
(** * shader-preprocessor.js, the earlier revision

    The repository carries a second, older copy of the file. It differs
    from the current one in [generateGLSL]: there is no [generateConstants],
    the constants come from one frozen table, and [@include] is expanded
    before the constants are substituted. The rest is shared. *)
(* ===================================================================== *)

Module ShaderPreprocessorLegacy.
Import Str Regex JS ShaderPreprocessor.

(** [constants]: a frozen object literal. *)
Definition constants (env : Env) : ShaderPreprocessorConstants :=
basicConstants env.

(** The names that a plain object inherits from [Object.prototype]: for
    them [constants[name] !== undefined] holds as well, and [Number(...)]
    of what is found there is [NaN]. *)
Definition inherited (name : string) : bool :=
existsb (String.eqb name)
  [ "constructor"; "hasOwnProperty"; "isPrototypeOf";
    "propertyIsEnumerable"; "toLocaleString"; "toString"; "valueOf";
    "__proto__"; "__defineGetter__"; "__defineSetter__";
    "__lookupGetter__"; "__lookupSetter__" ].

(** The replacer of [constantRegex]: a defined constant first, a global
    one otherwise. *)
Definition constantReplacer (env : Env)
           (defines : ShaderPreprocessorConstants)
           (_ : string) (cs : captures) : M string :=
let name := group cs 1 in
match map_get defines name with
| Some v => ret (String_of_number v)
| None =>
    match map_get (constants env) name with
    | Some v => ret (String_of_number v)
    | None =>
        if inherited name then ret "NaN"
        else
          _ <- push_error ("Undefined constant: " ++ name) ;;
          ret (String_of_number 0)
    end
end.

Fixpoint generateGLSL (fuel : nat) (env : Env)
         (defines : ShaderPreprocessorConstants) (infix : string)
         (prefix suffix : option string) {struct fuel} : result string :=
match fuel with
| O => Diverge
| S fuel' =>
    let code := generateUnprocessedGLSL defines infix prefix suffix in
    let includeReplacer (_ : string) (cs : captures) : M string :=
      lift (match readfileSync env (group cs 1) with
            | Ok contents => generateGLSL fuel' env defines contents None None
            | Throw e => Throw e
            | Diverge => Diverge
            end) in
    let run : M string :=
      code <- replace commentsRegex0 (fun _ _ => ret "") code ;;
      code <- replace commentsRegex1 (fun _ _ => ret "") code ;;
      code <- replace includeRegex includeReplacer code ;;
      code <- replace constantRegex (constantReplacer env defines) code ;;
      code <- unrollLoops code defines ;;
      errors <- get_errors ;;
      ret (code ++ (if (0 <? Z.of_nat (List.length errors))
                    then join (map (fun msg => nl ++ "#error " ++ msg ++ nl)
                                   errors)
                    else "")) in
    match run [] with
    | Ok (glsl, _) => Ok glsl
    | Throw e => Throw e
    | Diverge => Diverge
    end
end.

End ShaderPreprocessorLegacy.

(* ===================================================================== *)
(** * pipeline-portspec.js and pipeline-port.js

    Ports are objects that refer to each other: an input port holds a
    reference to the output port it is linked to and reads whatever
    message that port holds at the time. The embedding keeps the ports in
    a heap and lets every method take the heap and give it back, together
    with what the method returns or throws. A method that throws leaves
    the heap as the assignments made before the [throw] left it. *)
(* ===================================================================== *)

Module Pipeline.
Import Str Regex.

Inductive exn : Type :=
| IllegalArgumentError
| IllegalOperationError
| NotSupportedError
| AbstractMethodError
| AssertionError
| TypeError.          (* a method called on something that is not a port *)

Inductive outcome (A : Type) : Type :=
| Return (a : A)
| Throw (e : exn).
Arguments Return {A} a.
Arguments Throw {A} e.

(** Modelled from the spec: [pipeline-message.js] is not among the
    sources. The specification gives the closed set of message tags, and
    says that a message is a tagged union over them; [hasType] and
    [isEmpty] are the two tests that the ports call. *)
Inductive SpeedyPipelineMessageType : Type :=
| Nothing | Image | Keypoints | Vector | Matrix.

Definition type_eqb (a b : SpeedyPipelineMessageType) : bool :=
match a, b with
| Nothing, Nothing | Image, Image | Keypoints, Keypoints
| Vector, Vector | Matrix, Matrix => true
| _, _ => false
end.

Section Ports.

(** What a message carries besides its tag. *)
Variable Payload : Type.

Record SpeedyPipelineMessage : Type := Message {
  _type : SpeedyPipelineMessageType;
  _payload : option Payload
}.

(** Modelled from the spec: [message.hasType(type)] compares the tag of
    the message with [type]. *)
Definition hasType (message : SpeedyPipelineMessage)
           (type : SpeedyPipelineMessageType) : bool :=
type_eqb (_type message) type.

(** Modelled from the spec: [message.isEmpty()] holds for the messages
    tagged [Nothing]. *)
Definition isEmpty (message : SpeedyPipelineMessage) : bool :=
hasType message Nothing.

(** [new SpeedyPipelineMessageWithNothing()] *)
Definition EMPTY_MESSAGE : SpeedyPipelineMessage := Message Nothing None.

(** ** SpeedyPipelinePortSpec *)

Definition SpeedyPipelineMessageConstraint : Type :=
SpeedyPipelineMessage -> bool.

Definition always : SpeedyPipelineMessageConstraint := fun _ => true.

Record SpeedyPipelinePortSpec : Type := PortSpec {
  _expectedMessageType : SpeedyPipelineMessageType;
  _isValidMessage : SpeedyPipelineMessageConstraint
}.

(** [new SpeedyPipelinePortSpec(expectedMessageType, messageConstraint)];
    [None] is a constraint that is left out or that is not a function. *)
Definition newPortSpec (expectedMessageType : SpeedyPipelineMessageType)
           (messageConstraint : option SpeedyPipelineMessageConstraint)
  : outcome SpeedyPipelinePortSpec :=
let spec :=
  PortSpec expectedMessageType
           (match messageConstraint with Some f => f | None => always end) in
if type_eqb (_expectedMessageType spec) Nothing then Throw AssertionError
else Return spec.

Definition isCompatibleWith (this spec : SpeedyPipelinePortSpec) : bool :=
type_eqb (_expectedMessageType this) (_expectedMessageType spec).

Definition accepts (this : SpeedyPipelinePortSpec)
           (message : SpeedyPipelineMessage) : bool :=
hasType message (_expectedMessageType this) && _isValidMessage this message.

(** ** SpeedyPipelinePort and its two subclasses *)

Inductive PortClass : Type := InputPort | OutputPort.

(** A reference to a port. *)
Definition ref : Type := nat.

Record SpeedyPipelinePort : Type := Port {
  class : PortClass;
  _name : string;
  _spec : SpeedyPipelinePortSpec;
  _node : nat;
  _message : SpeedyPipelineMessage;
  (** of an input port: the incoming link *)
  _incomingLink : option ref
}.

Definition Heap : Type := list SpeedyPipelinePort.

Definition deref (h : Heap) (r : ref) : option SpeedyPipelinePort :=
nth_error h r.

Fixpoint assign (h : Heap) (r : ref) (p : SpeedyPipelinePort) : Heap :=
match h, r with
| [], _ => []
| _ :: h', O => p :: h'
| q :: h', S r' => q :: assign h' r' p
end.

Definition DEFAULT_INPUT_PORT_NAME : string := "in".
Definition DEFAULT_OUTPUT_PORT_NAME : string := "out".

(** [/^[a-z][a-zA-Z0-9]*$/] *)
Definition ACCEPTABLE_PORT_NAME : regex :=
sequence [ Start; Cls (in_range 97 122);
           star (Cls (fun c => in_range 97 122 c || in_range 65 90 c
                               || in_range 48 57 c));
           End ].

(** [new SpeedyPipelineInputPort(name, spec, node)] and
    [new SpeedyPipelineOutputPort(name, spec, node)]: the new port holds
    the empty message and, if it is an input port, no link. *)
Definition newPort (c : PortClass) (h : Heap) (name : string)
           (spec : SpeedyPipelinePortSpec) (node : nat)
  : Heap * outcome ref :=
let port := Port c name spec node EMPTY_MESSAGE None in
if test ACCEPTABLE_PORT_NAME (_name port)
then ((h ++ [port])%list, Return (List.length h))
else (h, Throw AssertionError).

Definition isInputPort (p : SpeedyPipelinePort) : bool :=
match class p with InputPort => true | OutputPort => false end.

Definition isOutputPort (p : SpeedyPipelinePort) : bool :=
negb (isInputPort p).

(** [port.clearMessage()] *)
Definition clearMessage (h : Heap) (this : ref) : Heap * outcome unit :=
match deref h this with
| None => (h, Throw TypeError)
| Some p =>
    (assign h this
       (Port (class p) (_name p) (_spec p) (_node p) EMPTY_MESSAGE
             (_incomingLink p)),
     Return tt)
end.

(** [port.hasMessage()] *)
Definition hasMessage (h : Heap) (this : ref) : Heap * outcome bool :=
match deref h this with
| None => (h, Throw TypeError)
| Some p => (h, Return (negb (isEmpty (_message p))))
end.

(** [port.read()] *)
Definition read (h : Heap) (this : ref)
  : Heap * outcome SpeedyPipelineMessage :=
match deref h this with
| None => (h, Throw TypeError)
| Some p =>
    if isEmpty (_message p) then (h, Throw IllegalOperationError)
    else (h, Return (_message p))
end.

(** [port.write(message)]: an output port validates the message against
    its own specification and keeps it; any other port refuses. *)
Definition write (h : Heap) (this : ref) (message : SpeedyPipelineMessage)
  : Heap * outcome unit :=
match deref h this with
| None => (h, Throw TypeError)
| Some p =>
    match class p with
    | InputPort => (h, Throw NotSupportedError)
    | OutputPort =>
        if negb (accepts (_spec p) message)
        then (h, Throw IllegalArgumentError)
        else
          (assign h this
             (Port (class p) (_name p) (_spec p) (_node p) message
                   (_incomingLink p)),
           Return tt)
    end
end.

(** [SpeedyPipelineInputPort.prototype.connectTo]: [this] is an input
    port. *)
Definition InputPort_connectTo (h : Heap) (this port : ref)
  : Heap * outcome unit :=
match deref h this, deref h port with
| Some p, Some q =>
    if negb (isOutputPort q) then (h, Throw IllegalArgumentError)
    else if negb (isCompatibleWith (_spec p) (_spec q))
    then (h, Throw IllegalArgumentError)
    else
      (assign h this
         (Port (class p) (_name p) (_spec p) (_node p) (_message p)
               (Some port)),
       Return tt)
| _, _ => (h, Throw TypeError)
end.

(** [port.connectTo(other)], dispatched on the class of [this]: an
    output port checks that the other end is an input port and lets that
    one make the link. *)
Definition connectTo (h : Heap) (this port : ref) : Heap * outcome unit :=
match deref h this, deref h port with
| Some p, Some q =>
    match class p with
    | InputPort => InputPort_connectTo h this port
    | OutputPort =>
        if negb (isInputPort q) then (h, Throw IllegalArgumentError)
        else InputPort_connectTo h port this
    end
| _, _ => (h, Throw TypeError)
end.

(** [inputPort.disconnect()] *)
Definition disconnect (h : Heap) (this : ref) : Heap * outcome unit :=
match deref h this with
| None => (h, Throw TypeError)
| Some p =>
    match class p with
    | OutputPort => (h, Throw TypeError)       (* no such method *)
    | InputPort =>
        (assign h this
           (Port (class p) (_name p) (_spec p) (_node p) (_message p) None),
         Return tt)
    end
end.

(** [inputPort.pullMessage()]: read what the linked output port holds,
    validate it against the specification of this input port, keep it. *)
Definition pullMessage (h : Heap) (this : ref)
  : Heap * outcome SpeedyPipelineMessage :=
match deref h this with
| None => (h, Throw TypeError)
| Some p =>
    match class p, _incomingLink p with
    | OutputPort, _ => (h, Throw TypeError)    (* no such method *)
    | InputPort, None => (h, Throw IllegalOperationError)
    | InputPort, Some link =>
        match read h link with
        | (h1, Throw e) => (h1, Throw e)
        | (h1, Return message) =>
            if negb (accepts (_spec p) message)
            then (h1, Throw IllegalArgumentError)
            else
              (assign h1 this
                 (Port (class p) (_name p) (_spec p) (_node p) message
                       (_incomingLink p)),
               Return message)
        end
    end
end.

(** The incoming link of the port behind a reference. *)
Definition incomingLink (h : Heap) (this : ref) : option ref :=
match deref h this with
| Some p => _incomingLink p
| None => None
end.

(** The message tag that the specification of a port expects. *)
Definition tag (p : SpeedyPipelinePort) : SpeedyPipelineMessageType :=
_expectedMessageType (_spec p).

(** The message that the port behind a reference holds. *)
Definition messageOf (h : Heap) (this : ref)
  : option SpeedyPipelineMessage :=
option_map _message (deref h this).

End Ports.

Arguments Message {Payload} _ _.
Arguments _type {Payload} _.
Arguments _payload {Payload} _.
Arguments hasType {Payload} _ _.
Arguments isEmpty {Payload} _.
Arguments EMPTY_MESSAGE {Payload}.
Arguments always {Payload} _.
Arguments PortSpec {Payload} _ _.
Arguments _expectedMessageType {Payload} _.
Arguments _isValidMessage {Payload} _ _.
Arguments newPortSpec {Payload} _ _.
Arguments isCompatibleWith {Payload} _ _.
Arguments accepts {Payload} _ _.
Arguments Port {Payload} _ _ _ _ _ _.
Arguments class {Payload} _.
Arguments _name {Payload} _.
Arguments _spec {Payload} _.
Arguments _node {Payload} _.
Arguments _message {Payload} _.
Arguments _incomingLink {Payload} _.
Arguments deref {Payload} _ _.
Arguments assign {Payload} _ _ _.
Arguments newPort {Payload} _ _ _ _ _.
Arguments isInputPort {Payload} _.
Arguments isOutputPort {Payload} _.
Arguments clearMessage {Payload} _ _.
Arguments hasMessage {Payload} _ _.
Arguments read {Payload} _ _.
Arguments write {Payload} _ _ _.
Arguments InputPort_connectTo {Payload} _ _ _.
Arguments connectTo {Payload} _ _ _.
Arguments disconnect {Payload} _ _.
Arguments pullMessage {Payload} _ _.
Arguments incomingLink {Payload} _ _.
Arguments messageOf {Payload} _ _.
Arguments tag {Payload} _.

(** ** A small graph to run examples in

    An output port that expects images of any kind, and an input port that
    expects images and, on top of that, refuses every message. *)

Definition refuseAll : SpeedyPipelineMessageConstraint unit := fun _ => false.

Definition exampleHeap : Heap unit :=
[ Port OutputPort "out" (PortSpec Image always) 0 EMPTY_MESSAGE None;
  Port InputPort "in" (PortSpec Image refuseAll) 1 EMPTY_MESSAGE None ].

Definition exampleImage : SpeedyPipelineMessage unit :=
Message Image (Some tt).

(** The graph once the input port is linked to the output port, and once
    an image has been written to the output port. *)
Definition linkedHeap : Heap unit :=
[ Port OutputPort "out" (PortSpec Image always) 0 EMPTY_MESSAGE None;
  Port InputPort "in" (PortSpec Image refuseAll) 1 EMPTY_MESSAGE (Some 0%nat) ].

Definition writtenHeap : Heap unit :=
[ Port OutputPort "out" (PortSpec Image always) 0 exampleImage None;
  Port InputPort "in" (PortSpec Image refuseAll) 1 EMPTY_MESSAGE (Some 0%nat) ].

End Pipeline.

(* ===================================================================== *)
(** * keypoints.glsl

    An encoded keypoint texture is an RGBA8 texture: a texel is four
    bytes, and the sampler hands each of them to the shader as the number
    byte/255. These numbers are rationals here. The two tests that
    classify a record compare such numbers with 0 and with 1 and add two
    of them, none of them negative; on this, rational and floating-point
    arithmetic agree. What the shader takes from files that are not among
    the sources (the decoding of half floats, of fixed-point numbers and
    of the level of detail, the constants of [math.glsl]) and the
    arithmetic of [float] are parameters of the section. A GLSL [int] is
    a [Z] wrapped to 32 bits. *)
(* ===================================================================== *)

Module Keypoints.
Local Open Scope Z_scope.

(** Two's complement wrap-around of a 32-bit [int]. *)
Definition wrap (z : Z) : Z := (z + 2 ^ 31) mod 2 ^ 32 - 2 ^ 31.

Record texel : Type := Texel {
  red : Byte.byte;
  green : Byte.byte;
  blue : Byte.byte;
  alpha : Byte.byte
}.

Record vec4 : Type := Vec4 { r : Q; g : Q; b : Q; a : Q }.

(** The value that the sampler gives for a byte of the texture. *)
Definition channel (x : Byte.byte) : Q := Z.of_N (Byte.to_N x) # 255.

Definition texelValue (t : texel) : vec4 :=
Vec4 (channel (red t)) (channel (green t)) (channel (blue t))
     (channel (alpha t)).

(** A [sampler2D] bound to an RGBA8 texture, read with [texelFetch]. *)
Definition sampler2D : Type := Z -> Z -> texel.

(** [pixelAt(img, pos)] *)
Definition pixelAt (img : sampler2D) (x y : Z) : vec4 := texelValue (img x y).

Record KeypointAddress : Type := Address { base : Z; offset : Z }.

(** [vec4(x)] *)
Definition vec4_of (x : Q) : vec4 := Vec4 x x x x.

(** [a + b] on [vec4] *)
Definition vec4_add (u v : vec4) : vec4 :=
Vec4 (r u + r v) (g u + g v) (b u + b v) (a u + a v).

(** [all(equal(u, v))] *)
Definition all_equal (u v : vec4) : bool :=
Qeq_bool (r u) (r v) && Qeq_bool (g u) (g v)
&& Qeq_bool (b u) (b v) && Qeq_bool (a u) (a v).

(** [int(x)] for a float that is not negative: the fraction is dropped. *)
Definition int_of (x : Q) : Z := Qfloor x.

(** [encodeNullKeypoint()] is [vec4(1.0f)], [encodeDiscardedKeypoint()] is
    [vec4(0.0f)]. *)
Definition encodeNullKeypoint : vec4 := vec4_of 1.
Definition encodeDiscardedKeypoint : vec4 := vec4_of 0.

Definition KPF_NONE : Z := 0.
Definition KPF_NULL : Z := 1.
Definition KPF_DISCARDED : Z := 2.

(** [readKeypointData(encodedKeypoints, encoderLength, address)] *)
Definition readKeypointData (encodedKeypoints : sampler2D)
           (encoderLength : Z) (address : KeypointAddress) : vec4 :=
let rasterIndex := wrap (base address + offset address) in
let data := pixelAt encodedKeypoints (Z.rem rasterIndex encoderLength)
                    (Z.quot rasterIndex encoderLength) in
if rasterIndex <? wrap (encoderLength * encoderLength) then data
else encodeNullKeypoint.

Section Decode.

(** The type [float] and its arithmetic. *)
Variable float : Type.
Variable literal : Q -> float.
Variable fmul fsub : float -> float -> float.
(** [math.glsl] *)
Variable TWO_PI PI : float.
(** [float16.glsl], [pyramids.glsl], [fixed-point.glsl] *)
Variable decodeFloat16 : Q * Q -> float.
Variable decodeLod : Q -> float.
Variable fixtovec2 : Z * Z -> float * float.

Record Keypoint : Type := MkKeypoint {
  position : float * float;
  lod : float;
  orientation : float;
  score : float;
  flags : Z
}.

(** [#define decodeKeypointScore(encodedScore) decodeFloat16(encodedScore)] *)
Definition decodeKeypointScore (encodedScore : Q * Q) : float :=
decodeFloat16 encodedScore.

(** [#define decodeKeypointOrientation(value) ((value) * TWO_PI - PI)] *)
Definition decodeKeypointOrientation (value : Q) : float :=
fsub (fmul (literal value) TWO_PI) PI.

(** [uint(b)] *)
Definition uint_of_bool (x : bool) : Z := if x then 1 else 0.

(** The body of [decodeKeypoint] once the two pixels of the header have
    been read. *)
Definition decodeHeader (rawEncodedPosition rawEncodedProperties : vec4)
  : Keypoint :=
let encodedPosition_r := int_of (r rawEncodedPosition * 255) in
let encodedPosition_g := int_of (g rawEncodedPosition * 255) in
let encodedPosition_b := int_of (b rawEncodedPosition * 255) in
let encodedPosition_a := int_of (a rawEncodedPosition * 255) in
let position :=
  fixtovec2 (Z.lor encodedPosition_r (wrap (Z.shiftl encodedPosition_g 8)),
             Z.lor encodedPosition_b (wrap (Z.shiftl encodedPosition_a 8))) in
let lod := decodeLod (r rawEncodedProperties) in
let orientation := decodeKeypointOrientation (g rawEncodedProperties) in
let score :=
  decodeKeypointScore (b rawEncodedProperties, a rawEncodedProperties) in
let isNull := all_equal rawEncodedPosition (vec4_of 1) in
let isDiscarded :=
  all_equal (vec4_add rawEncodedPosition rawEncodedProperties) (vec4_of 0) in
let score := if isNull || isDiscarded then literal (-1) else score in
let flags := KPF_NONE in
let flags := Z.lor flags (KPF_NULL * uint_of_bool isNull) in
let flags := Z.lor flags (KPF_DISCARDED * uint_of_bool isDiscarded) in
MkKeypoint position lod orientation score flags.

(** [decodeKeypoint(encodedKeypoints, encoderLength, address)] *)
Definition decodeKeypoint (encodedKeypoints : sampler2D) (encoderLength : Z)
           (address : KeypointAddress) : Keypoint :=
let positionAddress := Address (base address) 0 in
let propertiesAddress := Address (base address) 1 in
decodeHeader
  (readKeypointData encodedKeypoints encoderLength positionAddress)
  (readKeypointData encodedKeypoints encoderLength propertiesAddress).

(** [isNullKeypoint(keypoint)] and [isDiscardedKeypoint(keypoint)] *)
Definition isNullKeypoint (keypoint : Keypoint) : bool :=
negb (Z.land (flags keypoint) KPF_NULL =? 0).

Definition isDiscardedKeypoint (keypoint : Keypoint) : bool :=
negb (Z.land (flags keypoint) KPF_DISCARDED =? 0).

End Decode.

Arguments position {float} _.
Arguments lod {float} _.
Arguments orientation {float} _.
Arguments score {float} _.
Arguments flags {float} _.
Arguments isNullKeypoint {float} _.
Arguments isDiscardedKeypoint {float} _.

(** The eight bytes of the header of the record at an address, as
    [readKeypointData] delivers them: bytes of the texture, or 0xFF
    throughout for a pixel beyond the end of the texture. *)
Definition headerBytes (encodedKeypoints : sampler2D) (encoderLength : Z)
           (address : KeypointAddress) (offset : Z) : texel :=
let rasterIndex := wrap (base address + offset) in
if rasterIndex <? wrap (encoderLength * encoderLength)
then encodedKeypoints (Z.rem rasterIndex encoderLength)
                      (Z.quot rasterIndex encoderLength)
else Texel Byte.xff Byte.xff Byte.xff Byte.xff.

(** The position of the null keypoint, and a pixel of the header of a
    discarded keypoint. *)
Definition allOnes : texel := Texel Byte.xff Byte.xff Byte.xff Byte.xff.
Definition allZeros : texel := Texel Byte.x00 Byte.x00 Byte.x00 Byte.x00.

(** Two vectors of the same value, whichever way their components are
    written as fractions. *)
Definition sameValue (u v : vec4) : Prop :=
(r u == r v /\ g u == g v /\ b u == b v /\ a u == a v)%Q.

End Keypoints.

(* ===================================================================== *)
(** * speedy-texture-reader.js: waiting for a fence

    [_clientWaitAsync] polls a sync object and, while the fence is not
    signaled, hands itself to [setTimeout] with one attempt less. One call
    of the function is one task of the event loop; the embedding gives the
    function as such a step, and the succession of the steps as [wait]. *)
(* ===================================================================== *)

Module TextureReader.
Local Open Scope Z_scope.

(** What [gl.clientWaitSync] may return. *)
Inductive SyncStatus : Type :=
| ALREADY_SIGNALED
| TIMEOUT_EXPIRED
| CONDITION_SATISFIED
| WAIT_FAILED.

(** The device as the routine sees it: what the [n]-th call of
    [gl.clientWaitSync] on the fence returns, and the error code that
    [GLUtils.getError(gl)] reports after [n] such calls. *)
Record Device : Type := {
  clientWaitSync : nat -> SyncStatus;
  getError : nat -> string
}.

Inductive exn : Type :=
| TimeoutError (msg : string) (cause : string).

(** The arguments of a call that change from one call to the next. *)
Record Arguments_ : Type := Args {
  pollInterval : Z;
  remainingAttempts : Z
}.

(** The default values of the two arguments. *)
Definition defaultArguments : Arguments_ := Args 10 1000.

(** What one call does before it returns. *)
Inductive Action : Type :=
| Resolve
| Reject (e : exn)
| SetTimeout (delay : Z) (next : Arguments_).

Definition timeoutMessage : string := "_checkStatus() is taking too long.".

Definition signaled (status : SyncStatus) : bool :=
match status with
| CONDITION_SATISFIED | ALREADY_SIGNALED => true
| _ => false
end.

(** [SpeedyTextureReader._clientWaitAsync(gl, sync, flags, resolve, reject,
    pollInterval, remainingAttempts)], as the call that makes poll number
    [polls] (counted from 0). *)
Definition _clientWaitAsync (gl : Device) (polls : nat) (args : Arguments_)
  : Action :=
let status := clientWaitSync gl polls in
let nextPollInterval :=
  if 2 <? pollInterval args then pollInterval args - 2 else 0 in
if remainingAttempts args <=? 0 then
  Reject (TimeoutError timeoutMessage (getError gl (S polls)))
else if signaled status then
  Resolve
else
  SetTimeout (pollInterval args)
             (Args nextPollInterval (remainingAttempts args - 1)).

(** How the promise was settled, after how many polls, and the delays of
    the timers that were set on the way. *)
Inductive Settled : Type :=
| Resolved
| Rejected (e : exn).

Record Run : Type := MkRun {
  settled : Settled;
  pollCount : nat;
  delays : list Z
}.

(** The event loop running the timers that the routine sets, one after
    the other. [None] when [fuel] tasks were not enough to settle the
    promise. *)
Fixpoint wait (fuel : nat) (gl : Device) (polls : nat) (args : Arguments_)
         (timers : list Z) : option Run :=
match fuel with
| O => None
| S fuel' =>
    match _clientWaitAsync gl polls args with
    | Resolve => Some (MkRun Resolved (S polls) timers)
    | Reject e => Some (MkRun (Rejected e) (S polls) timers)
    | SetTimeout delay next =>
        wait fuel' gl (S polls) next (timers ++ [delay])
    end
end.

(** The poll intervals of [n] successive calls, from [pollInterval] on. *)
Fixpoint intervals (n : nat) (pollInterval : Z) : list Z :=
match n with
| O => []
| S n' =>
    pollInterval
      :: intervals n' (if 2 <? pollInterval then pollInterval - 2 else 0)
end.

(** The first of the polls [from], [from + 1], ..., [from + n - 1] at
    which the fence is reported as signaled. *)
Fixpoint firstSignaled (gl : Device) (from n : nat) : option nat :=
match n with
| O => None
| S n' =>
    if signaled (clientWaitSync gl from) then Some from
    else firstSignaled gl (S from) n'
end.


(** A fence that is signaled from poll [n] on, on a device without
    errors. *)
Definition signaledFrom (n : nat) : Device :=
{| clientWaitSync :=
     fun k => if (n <=? k)%nat then ALREADY_SIGNALED else TIMEOUT_EXPIRED;
   getError := fun _ => "NO_ERROR" |}.

End TextureReader.
(* ===================================================================== *)
(** * Character classes of the anchored patterns

    [readfileSync] and the constructor of a port test a whole string
    against a pattern anchored at both ends. What follows names the sets
    of characters these patterns are written with, for the theory to say
    which strings they accept. *)
(* ===================================================================== *)

Module Names.
Import Str Regex ShaderPreprocessor.

(** Every character of a string belongs to a class. *)
Fixpoint all_chars (p : ascii -> bool) (s : string) : bool :=
match s with
| EmptyString => true
| String c s' => p c && all_chars p s'
end.

(** Some character of a string belongs to a class. *)
Fixpoint some_char (p : ascii -> bool) (s : string) : bool :=
match s with
| EmptyString => false
| String c s' => p c || some_char p s'
end.

(** [[a-zA-Z0-9_-]], the class of [filenameRegex]. *)
Definition filenameChar (c : ascii) : bool :=
in_range 97 122 c || in_range 65 90 c || in_range 48 57 c
|| Ascii.eqb c "_" || Ascii.eqb c "-".

(** [[a-z]] and [[a-zA-Z0-9]], the classes of [ACCEPTABLE_PORT_NAME]. *)
Definition lowerCase (c : ascii) : bool := in_range 97 122 c.

Definition alphaNumeric (c : ascii) : bool :=
in_range 97 122 c || in_range 65 90 c || in_range 48 57 c.

(** The names that [filenameRegex] is written for: one or more
    characters of its class, then [.glsl]. *)
Definition shaderFileName (filename : string) : Prop :=
exists w, filename = w ++ ".glsl" /\ w <> "" /\ all_chars filenameChar w = true.

(** The names that [ACCEPTABLE_PORT_NAME] is written for: a lower-case
    letter, then letters and digits. *)
Definition portName (name : string) : Prop :=
exists c w, name = String c w /\ lowerCase c = true
            /\ all_chars alphaNumeric w = true.

(** The double quote. *)
Definition isQuote (c : ascii) : bool := Ascii.eqb c (ascii_of_N 34).

(** A path separator. *)
Definition separator (c : ascii) : bool :=
Ascii.eqb c "/" || Ascii.eqb c "\".

(** What [constantReplacer] records for a name that a table of constants
    does not have. *)
Definition undefinedIn (constants : ShaderPreprocessorConstants)
           (msg : string) : Prop :=
exists name, msg = "Undefined constant " ++ name
             /\ map_get constants name = None.

(** A file that includes the file of a given name. *)
Definition includeOf (filename : string) : string :=
"@include " ++ dquote ++ filename ++ dquote.

End Names.

(** A graph to run examples in: an output port that holds an image, and
    an input port linked to it that accepts images. *)
Module PortExamples.
Import Pipeline.

Definition readyHeap : Heap unit :=
[ Port OutputPort "out" (PortSpec Image always) 0 exampleImage None;
  Port InputPort "in" (PortSpec Image always) 1 EMPTY_MESSAGE (Some 0%nat) ].

(** Two output ports and an input port, all for images. *)
Definition twoSources : Heap unit :=
[ Port OutputPort "out" (PortSpec Image always) 0 EMPTY_MESSAGE None;
  Port OutputPort "out" (PortSpec Image always) 1 EMPTY_MESSAGE None;
  Port InputPort "in" (PortSpec Image always) 2 EMPTY_MESSAGE None ].

End PortExamples.
(* ===================================================================== *)
(** * keypoints.glsl: addresses of the records, encoding of the position

    [MIN_KEYPOINT_SIZE] is a constant that the preprocessor puts in, and
    [vec2tofix] is a function of [fixed-point.glsl]; the first is a
    parameter of the functions that use it, the second a parameter of the
    section. A [fixed2_t] is a pair of [int]. *)
(* ===================================================================== *)

Module KeypointAddressing.
Import Keypoints.
Local Open Scope Z_scope.

(** [sizeofEncodedKeypoint(descriptorSize, extraSize)] *)
Definition sizeofEncodedKeypoint (MIN_KEYPOINT_SIZE : Z)
           (descriptorSize extraSize : Z) : Z :=
wrap (wrap (MIN_KEYPOINT_SIZE + descriptorSize) + extraSize).

(** [sizeofEncodedKeypointHeader()] *)
Definition sizeofEncodedKeypointHeader (MIN_KEYPOINT_SIZE : Z) : Z :=
sizeofEncodedKeypoint MIN_KEYPOINT_SIZE 0 0.

(** [findKeypointIndex(address, descriptorSize, extraSize)] *)
Definition findKeypointIndex (MIN_KEYPOINT_SIZE : Z)
           (address : KeypointAddress) (descriptorSize extraSize : Z) : Z :=
Z.quot (base address)
       (Z.quot (sizeofEncodedKeypoint MIN_KEYPOINT_SIZE descriptorSize
                                      extraSize) 4).

(** [findKeypointAddress(thread, encoderLength, descriptorSize,
    extraSize)]; [thread] is given by its two coordinates. *)
Definition findKeypointAddress (MIN_KEYPOINT_SIZE : Z)
           (thread_x thread_y : Z) (encoderLength : Z)
           (descriptorSize extraSize : Z) : KeypointAddress :=
let threadRaster := wrap (wrap (thread_y * encoderLength) + thread_x) in
let pixelsPerKeypoint :=
  Z.quot (sizeofEncodedKeypoint MIN_KEYPOINT_SIZE descriptorSize extraSize)
         4 in
let keypointIndex := Z.quot threadRaster pixelsPerKeypoint in
Address (wrap (keypointIndex * pixelsPerKeypoint))
        (Z.rem threadRaster pixelsPerKeypoint).

Section Encode.

Variable float : Type.
Variable literal : Q -> float.
(** [max(a, b)] on [float] *)
Variable fmax : float -> float -> float.
(** [fixed-point.glsl] *)
Variable vec2tofix : float * float -> Z * Z.

(** The pair of fixed-point numbers that [encodeKeypointPosition] splits
    into bytes: [vec2tofix(max(position, zeros))]. *)
Definition fixedPosition (position : float * float) : Z * Z :=
let zeros := (literal 0, literal 0) in
vec2tofix (fmax (fst position) (fst zeros), fmax (snd position) (snd zeros)).

(** [encodeKeypointPosition(position)]: the float of an [int] divided by
    255. *)
Definition encodeKeypointPosition (position : float * float) : vec4 :=
let pos := fixedPosition position in
let lo := (Z.land (fst pos) 255, Z.land (snd pos) 255) in
let hi := (Z.land (Z.shiftr (fst pos) 8) 255,
           Z.land (Z.shiftr (snd pos) 8) 255) in
Vec4 (inject_Z (fst lo) / 255) (inject_Z (fst hi) / 255)
     (inject_Z (snd lo) / 255) (inject_Z (snd hi) / 255).

End Encode.

End KeypointAddressing.
(* ===================================================================== *)
(** * speedy-texture-reader.js: the pixel buffers and the synchronous
      read

    A [Uint8Array] is a view of an [ArrayBuffer], and [subarray] gives a
    view of the same buffer: what [readPixelsSync] returns is a window
    on a buffer that the reader keeps and writes to again. The embedding
    keeps the buffers in a store, and a typed array is the index of its
    buffer together with its length; every view here starts at the first
    byte of its buffer. The pixel buffer objects play no part in the
    synchronous read and are left out. *)
(* ===================================================================== *)

Module TextureReaderBuffers.
Local Open Scope Z_scope.

Inductive exn : Type :=
| AssertionError
| TypeError.          (* a property of [undefined] *)

Inductive outcome (A : Type) : Type :=
| Return (a : A)
| Throw (e : exn).
Arguments Return {A} a.
Arguments Throw {A} e.

Record Uint8Array : Type := View {
  buffer : nat;
  byteLength : nat
}.

(** The array buffers that have been allocated. *)
Definition Store : Type := list (list Byte.byte).

(** [new Uint8Array(size)]: a new buffer of zeros. *)
Definition newUint8Array (store : Store) (size : nat) : Store * Uint8Array :=
((store ++ [repeat Byte.x00 size])%list, View (List.length store) size).

(** [array.subarray(0, end)] for an [end] that is not negative. *)
Definition subarray (array : Uint8Array) (end_ : Z) : Uint8Array :=
View (buffer array) (Nat.min (Z.to_nat end_) (byteLength array)).

(** The bytes that are seen through a typed array. *)
Definition contents (store : Store) (array : Uint8Array) : list Byte.byte :=
firstn (byteLength array) (nth (buffer array) store []).

Record SpeedyTextureReader : Type := Reader {
  _pixelBuffer : list Uint8Array;
  _initialized : bool
}.

(** [(new Array(numberOfBuffers)).fill(null).map(() => new Uint8Array(0))] *)
Fixpoint emptyBuffers (store : Store) (numberOfBuffers : nat)
  : Store * list Uint8Array :=
match numberOfBuffers with
| O => (store, [])
| S n =>
    let (store1, array) := newUint8Array store 0 in
    let (store2, arrays) := emptyBuffers store1 n in
    (store2, array :: arrays)
end.

Definition DEFAULT_NUMBER_OF_BUFFERS : Z := 2.

(** [new SpeedyTextureReader(numberOfBuffers)] *)
Definition newReader (store : Store) (numberOfBuffers : Z)
  : Store * outcome SpeedyTextureReader :=
if negb (0 <? numberOfBuffers) then (store, Throw AssertionError)
else
  let (store', arrays) := emptyBuffers store (Z.to_nat numberOfBuffers) in
  (store', Return (Reader arrays false)).

(** [reader.init(gpu)] and [reader.release(gpu)], as far as the pixel
    buffers go. *)
Definition init (this : SpeedyTextureReader) : SpeedyTextureReader :=
Reader (_pixelBuffer this) true.

Definition release (this : SpeedyTextureReader) : SpeedyTextureReader :=
Reader (_pixelBuffer this) false.

(** The loop of [_reallocate]: every pixel buffer gives way to a new
    array of [size] bytes. *)
Fixpoint reallocateAll (store : Store) (arrays : list Uint8Array)
         (size : nat) : Store * list Uint8Array :=
match arrays with
| [] => (store, [])
| _ :: arrays' =>
    let (store1, newBuffer) := newUint8Array store size in
    let (store2, arrays'') := reallocateAll store1 arrays' size in
    (store2, newBuffer :: arrays'')
end.

(** [reader._reallocate(size)] *)
Definition _reallocate (store : Store) (this : SpeedyTextureReader)
           (size : Z) : Store * outcome SpeedyTextureReader :=
match _pixelBuffer this with
| [] => (store, Throw TypeError)
| first :: _ =>
    if size <=? Z.of_nat (byteLength first) then (store, Return this)
    else
      let (store', arrays) :=
        reallocateAll store (_pixelBuffer this) (Z.to_nat size) in
      (store', Return (Reader arrays (_initialized this)))
end.

(** A texture with its framebuffer. [pixels x y width height] are the
    bytes that [gl.readPixels] delivers for a rectangle, the first
    [width * height * 4] of them. *)
Record SpeedyDrawableTexture : Type := Texture {
  width : Z;
  height : Z;
  isContextLost : bool;
  pixels : Z -> Z -> Z -> Z -> nat -> Byte.byte
}.

(** The rectangle that is read, as the two read functions clamp it. *)
Record Rectangle : Type := Rect { rx : Z; ry : Z; rwidth : Z; rheight : Z }.

Definition clamp (texture : SpeedyDrawableTexture) (x y width_ height_ : Z)
  : Rectangle :=
let width_ := Z.max 0 (Z.min width_ (width texture)) in
let height_ := Z.max 0 (Z.min height_ (height texture)) in
let x := Z.max 0 (Z.min x (width texture - width_)) in
let y := Z.max 0 (Z.min y (height texture - height_)) in
Rect x y width_ height_.

(** The store with other bytes in one of its buffers. *)
Fixpoint setBuffer (store : Store) (index : nat) (bytes : list Byte.byte)
  : Store :=
match store, index with
| [], _ => []
| _ :: store', O => bytes :: store'
| b :: store', S index' => b :: setBuffer store' index' bytes
end.

(** [gl.readPixels(x, y, width, height, gl.RGBA, gl.UNSIGNED_BYTE, dst)]:
    the bytes of the rectangle go to the start of the buffer of [dst];
    nothing is written when [dst] is too short for them. *)
Definition readPixels (store : Store) (texture : SpeedyDrawableTexture)
           (rect : Rectangle) (dst : Uint8Array) : Store :=
let n := Z.to_nat (rwidth rect * rheight rect * 4) in
if (byteLength dst <? n)%nat then store
else
  let old := nth (buffer dst) store [] in
  let data :=
    map (pixels texture (rx rect) (ry rect) (rwidth rect) (rheight rect))
        (seq 0 n) in
  setBuffer store (buffer dst) (data ++ skipn n old)%list.

(** [reader.readPixelsSync(texture, x, y, width, height)] *)
Definition readPixelsSync (store : Store) (this : SpeedyTextureReader)
           (texture : SpeedyDrawableTexture) (x y width_ height_ : Z)
  : Store * SpeedyTextureReader * outcome Uint8Array :=
if negb (_initialized this) then (store, this, Throw AssertionError)
else
  let rect := clamp texture x y width_ height_ in
  let sizeofBuffer := rwidth rect * rheight rect * 4 in
  match _reallocate store this sizeofBuffer with
  | (store1, Throw e) => (store1, this, Throw e)
  | (store1, Return this1) =>
      match _pixelBuffer this1 with
      | [] => (store1, this1, Throw TypeError)
      | first :: _ =>
          if isContextLost texture
          then (store1, this1, Return (subarray first sizeofBuffer))
          else
            (readPixels store1 texture rect first, this1,
             Return (subarray first sizeofBuffer))
      end
  end.

(** The capacity of the pixel buffers: the length of the first of them. *)
Definition capacity (this : SpeedyTextureReader) : Z :=
match _pixelBuffer this with
| [] => 0
| first :: _ => Z.of_nat (byteLength first)
end.

(** What the constructor sets up and what [_reallocate] and
    [readPixelsSync] keep: there is a pixel buffer, the pixel buffers
    are arrays of one length, each is the whole of a buffer of its own. *)
Definition wellFormed (store : Store) (this : SpeedyTextureReader) : Prop :=
_pixelBuffer this <> []
/\ Forall (fun array =>
             Z.of_nat (byteLength array) = capacity this
             /\ (buffer array < List.length store)%nat
             /\ List.length (nth (buffer array) store []) = byteLength array)
          (_pixelBuffer this)
/\ NoDup (map buffer (_pixelBuffer this)).

(** A texture to run examples on: 4 by 2 pixels, every byte of a pixel
    being the column of the pixel. *)
Definition columnOf (x w : Z) (i : nat) : Byte.byte :=
match Byte.of_N (Z.to_N (x + Z.of_nat (Nat.modulo (Nat.div i 4) (Z.to_nat w))))
with
| Some byte => byte
| None => Byte.xff
end.

Definition exampleTexture : SpeedyDrawableTexture :=
{| width := 4;
   height := 2;
   isContextLost := false;
   pixels := fun x y w h i => columnOf x w i |}.

(** The sum of the delays of a list of timers. *)
Definition total (delays : list Z) : Z := fold_right Z.add 0 delays.

End TextureReaderBuffers.
(* ===================================================================== *)
(** * encode-keypoints.glsl: the search for the q-th keypoint

    A keypoint image holds in the red channel of a pixel its score (0
    when the pixel is no corner) and in the blue channel a skip offset:
    how many pixels that are no corners follow, in raster order. The
    [while] loop of [findQthKeypoint] takes fuel; its state is what the
    loop reads and writes. The [out] parameter [pixel] has no value
    before the first pixel is fetched. *)
(* ===================================================================== *)

Module EncodeKeypoints.
Import Keypoints.
Local Open Scope Z_scope.

Record Scan : Type := MkScan {
  i : Z;
  p : Z;
  position : Z * Z;
  pixel : option vec4
}.

(** [int(pixel.r > 0.0f)] *)
Definition isCorner (px : vec4) : Z := if Qle_bool (r px) 0 then 0 else 1.

(** [int(pixel.b * 255.0f)] *)
Definition skipOffset (px : vec4) : Z := int_of (b px * 255).

(** The condition of the loop. *)
Definition searching (imageSize : Z * Z) (q : Z) (s : Scan) : bool :=
negb (p s =? q) && (snd (position s) <? snd imageSize).

(** The body of the loop. *)
Definition scanStep (image : sampler2D) (imageSize : Z * Z) (s : Scan)
  : Scan :=
let px := pixelAt image (fst (position s)) (snd (position s)) in
let p' := wrap (p s + isCorner px) in
let i' := wrap (i s + wrap (1 + skipOffset px)) in
MkScan i' p' (Z.rem i' (fst imageSize), Z.quot i' (fst imageSize)) (Some px).

Fixpoint scanLoop (fuel : nat) (image : sampler2D) (imageSize : Z * Z)
         (q : Z) (s : Scan) : option Scan :=
if searching imageSize q s then
  match fuel with
  | O => None
  | S fuel' => scanLoop fuel' image imageSize q (scanStep image imageSize s)
  end
else Some s.

(** [findQthKeypoint(q, position, pixel)]: what it returns, and the two
    [out] parameters. [None] when [fuel] turns of the loop were not
    enough. *)
Definition findQthKeypoint (fuel : nat) (image : sampler2D)
           (imageSize : Z * Z) (q : Z)
  : option (bool * (Z * Z) * option vec4) :=
match scanLoop fuel image imageSize q (MkScan 0 (-1) (0, 0) None) with
| Some s => Some (p s =? q, position s, pixel s)
| None => None
end.

(** A keypoint image to run examples on, 4 by 2 pixels: corners at
    (1, 0) and (2, 1), each pixel that is no corner telling how far the
    next corner is. *)
Definition exampleImage : sampler2D :=
fun x y =>
  if (x =? 0) && (y =? 0) then Texel Byte.x00 Byte.x00 Byte.x00 Byte.xff
  else if (x =? 1) && (y =? 0) then Texel Byte.x80 Byte.x00 Byte.x04 Byte.xff
  else if (x =? 2) && (y =? 1) then Texel Byte.x40 Byte.x00 Byte.x01 Byte.xff
  else Texel Byte.x00 Byte.x00 Byte.x00 Byte.xff.

End EncodeKeypoints.
(* ===================================================================== *)
(** * speedy-matrix.js: shapes, blocks and entries

    A matrix keeps its entries in a typed array, in column-major order,
    and reaches the entry of a row and a column by two steps. A block, a
    row, a column and the diagonal of a matrix are matrices on a part of
    the same array. What follows covers the functions that build
    matrices and read them; none of them writes to an array that a
    matrix holds, so an array is the list of its elements here.

    [SpeedyMatrixExpr], the class that [SpeedyMatrix] extends, is not
    among the sources. Its constructor receives the numbers of rows and
    columns and sets [_rows] and [_columns]; what it sets, or that it
    throws, is a parameter of the section, as are the numbers that the
    entries are and the conversion that storing a number in the array
    applies. The functions are taken with the default [dtype]; the
    arrays they make are of the type that goes with it, which is what
    the first assertion of the constructor asks for. *)
(* ===================================================================== *)

Module Matrix.
Import Keypoints.
Local Open Scope Z_scope.

Inductive exn : Type :=
| AssertionError
| ExprError.          (* thrown by the constructor of [SpeedyMatrixExpr] *)

Inductive outcome (A : Type) : Type :=
| Return (a : A)
| Throw (e : exn).
Arguments Return {A} a.
Arguments Throw {A} e.

(** The integers 0, 1, ..., n - 1. *)
Definition upto (n : Z) : list Z := map Z.of_nat (seq 0 (Z.to_nat n)).

Section SpeedyMatrix.

Variable number : Type.
Variable zero one : number.
(** The conversion of a number that is stored in the typed array. *)
Variable stored : number -> number.
(** [super(rows, columns, dtype)]: the [_rows] and [_columns] that the
    constructor of [SpeedyMatrixExpr] sets; [None] when it throws. *)
Variable SpeedyMatrixExpr : Z -> Z -> option (Z * Z).

Definition TypedArray : Type := list number.

(** [array[index]]; [None] is [undefined]. *)
Definition element (array : TypedArray) (index : Z) : option number :=
if index <? 0 then None else nth_error array (Z.to_nat index).

(** [array[index] = value]: nothing happens beyond the ends. *)
Fixpoint setNth (array : TypedArray) (index : nat) (value : number)
  : TypedArray :=
match array, index with
| [], _ => []
| _ :: array', O => value :: array'
| x :: array', S index' => x :: setNth array' index' value
end.

Definition setElement (array : TypedArray) (index : Z) (value : number)
  : TypedArray :=
if index <? 0 then array else setNth array (Z.to_nat index) (stored value).

(** A relative index of [subarray], brought into the array. *)
Definition relativeIndex (len index : Z) : Z :=
if index <? 0 then Z.max (len + index) 0 else Z.min index len.

(** [array.subarray(begin, end)] *)
Definition subarray (array : TypedArray) (begin end_ : Z) : TypedArray :=
let len := Z.of_nat (List.length array) in
let beginIndex := relativeIndex len begin in
let endIndex := relativeIndex len end_ in
firstn (Z.to_nat (Z.max (endIndex - beginIndex) 0))
       (skipn (Z.to_nat beginIndex) array).

Record SpeedyMatrix : Type := MkMatrix {
  _rows : Z;
  _columns : Z;
  _step0 : Z;
  _step1 : Z;
  _data : TypedArray
}.

(** [new SpeedyMatrix(rows, columns, step0, step1, data)] *)
Definition newSpeedyMatrix (rows columns step0 step1 : Z)
           (data : TypedArray) : outcome SpeedyMatrix :=
match SpeedyMatrixExpr rows columns with
| None => Throw ExprError
| Some (rows', columns') =>
    let length := Z.of_nat (List.length data) in
    if negb ((0 <? step0) && (step0 <=? step1)) then Throw AssertionError
    else if negb ((length + rows * columns =? 0)
                  || (length =? 1 + step0 * (rows - 1)
                                + step1 * (columns - 1)))
    then Throw AssertionError
    else Return (MkMatrix rows' columns' (wrap step0) (wrap step1) data)
end.

(** [SpeedyMatrix.Create(rows, columns, entries)] *)
Definition Create (rows columns : Z) (entries : list number)
  : outcome SpeedyMatrix :=
if negb (0 <? rows * columns) then Throw AssertionError
else if negb (rows * columns =? Z.of_nat (List.length entries))
then Throw AssertionError
else newSpeedyMatrix rows columns 1 rows (map stored entries).

(** [SpeedyMatrix.Zeros(rows, columns)] *)
Definition Zeros (rows columns : Z) : outcome SpeedyMatrix :=
if negb (0 <? rows * columns) then Throw AssertionError
else newSpeedyMatrix rows columns 1 rows
                     (repeat zero (Z.to_nat (rows * columns))).

(** [SpeedyMatrix.Ones(rows, columns)] *)
Definition Ones (rows columns : Z) : outcome SpeedyMatrix :=
if negb (0 <? rows * columns) then Throw AssertionError
else newSpeedyMatrix rows columns 1 rows
                     (repeat (stored one) (Z.to_nat (rows * columns))).

(** The loop of [Eye]: [data[j * rows + j] = 1] for [j] from [count - 1]
    down to 0. *)
Fixpoint eyeLoop (count : nat) (rows : Z) (data : TypedArray) : TypedArray :=
match count with
| O => data
| S j => eyeLoop j rows
                 (setElement data (Z.of_nat j * rows + Z.of_nat j) one)
end.

(** [SpeedyMatrix.Eye(rows, columns)] *)
Definition Eye (rows columns : Z) : outcome SpeedyMatrix :=
if negb (0 <? rows * columns) then Throw AssertionError
else
  let data := repeat zero (Z.to_nat (rows * columns)) in
  let data := eyeLoop (Z.to_nat (Z.min rows columns)) rows data in
  newSpeedyMatrix rows columns 1 rows data.

(** [matrix.block(firstRow, lastRow, firstColumn, lastColumn)] *)
Definition block (this : SpeedyMatrix)
           (firstRow lastRow firstColumn lastColumn : Z)
  : outcome SpeedyMatrix :=
if negb ((firstRow <=? lastRow) && (firstColumn <=? lastColumn))
then Throw AssertionError
else
  let firstRow := Z.max firstRow 0 in
  let lastRow := Z.min lastRow (_rows this - 1) in
  let firstColumn := Z.max firstColumn 0 in
  let lastColumn := Z.min lastColumn (_columns this - 1) in
  let rows := lastRow - firstRow + 1 in
  let columns := lastColumn - firstColumn + 1 in
  let step0 := _step0 this in
  let step1 := _step1 this in
  let begin := firstRow * step0 + firstColumn * step1 in
  let end_ := 1 + lastRow * step0 + lastColumn * step1 in
  newSpeedyMatrix rows columns step0 step1 (subarray (_data this) begin end_).

(** [matrix.row(index)] and [matrix.column(index)] *)
Definition row (this : SpeedyMatrix) (index : Z) : outcome SpeedyMatrix :=
block this index index 0 (_columns this - 1).

Definition column (this : SpeedyMatrix) (index : Z) : outcome SpeedyMatrix :=
block this 0 (_rows this - 1) index index.

(** [matrix.diagonal()] *)
Definition diagonal (this : SpeedyMatrix) : outcome SpeedyMatrix :=
let diagsize := Z.min (_rows this) (_columns this) in
let rows := diagsize in
let columns := 1 in
let diagstep := _step0 this + _step1 this in
let begin := 0 in
let end_ := 1 + (diagsize - 1) * diagstep in
newSpeedyMatrix rows columns diagstep diagstep
                (subarray (_data this) begin end_).

(** [matrix.at(row, column)]; [None] is [undefined]. *)
Definition at_ (this : SpeedyMatrix) (row column : Z) : option number :=
if (0 <=? row) && (row <? _rows this)
   && (0 <=? column) && (column <? _columns this)
then element (_data this) (_step0 this * row + _step1 this * column)
else None.

(** [matrix.read()]: the entries column by column. *)
Definition read (this : SpeedyMatrix) : list (option number) :=
flat_map
  (fun column =>
     map (fun row =>
            element (_data this)
                    (row * _step0 this + column * _step1 this))
         (upto (_rows this)))
  (upto (_columns this)).

(** A matrix as the functions above make it: a shape, steps within the
    range of [int], an array of the length that the shape and the steps
    ask for. *)
Definition wellShaped (this : SpeedyMatrix) : Prop :=
0 < _rows this /\ 0 < _columns this
/\ 0 < _step0 this <= _step1 this
/\ _step1 this < 2 ^ 31
/\ Z.of_nat (List.length (_data this))
   = 1 + _step0 this * (_rows this - 1) + _step1 this * (_columns this - 1).

End SpeedyMatrix.

(** The constructor of [SpeedyMatrixExpr] that the examples run with: it
    asks for a shape and keeps it. *)
Definition exampleExpr (rows columns : Z) : option (Z * Z) :=
if (0 <? rows) && (0 <? columns) then Some (rows, columns) else None.

End Matrix.

(* ===================================================================== *)
(** * Theory of the shader preprocessor *)
(* ===================================================================== *)

Module PreprocessorTheory.
Import Str Regex JS ShaderPreprocessor.

(** Evaluation of closed examples. *)
Ltac evaluate := repeat split; vm_compute; reflexivity.

(** ** The patterns and the built-ins at work *)

Example comments_found :
  spans commentsRegex0 ("a /* x */ b /* y" ++ nl ++ " z */ c /* open")
  = [(2, 9); (12, 22)]%nat
  /\ spans commentsRegex1 ("a // foo" ++ nl ++ "b //" ++ nl ++ "//c")
     = [(2, 8); (11, 13); (14, 17)]%nat.
Proof. evaluate. Qed.

Example constants_found :
  spans constantRegex "x @FOO@ @BAR @B@Z@ @@ @1_a@"
  = [(2, 7); (13, 16); (22, 27)]%nat.
Proof. evaluate. Qed.

(** An [@include] is a directive only where it starts a line. *)
Example includes_found :
  spans includeRegex
        ("  @include " ++ dquote ++ "a.glsl" ++ dquote ++ nl
         ++ "x @include " ++ dquote ++ "b.glsl" ++ dquote)
  = [(0, 19)]%nat.
Proof. evaluate. Qed.

(** The groups of a loop: type, counter, start, comparison, end, step,
    body. Without [int] the type is empty; a counter that starts with
    [int] is still the counter. *)
Example loops_found :
  firstGroups (nth 0 unrollRegex (Lit "")) "@unroll for(int i=0;i<3;i++){X(i);}"
  = ["int"; "i"; "0"; "<"; "3"; ""; "X(i);"]
  /\ firstGroups (nth 1 unrollRegex (Lit ""))
                 "@unroll for(intx = 0x10; intx <= N; intx += 2) { a; }"
     = [""; "intx"; "0x10"; "<="; "N"; "2"; "a;"]
  /\ firstGroups (nth 1 unrollRegex (Lit ""))
                 "@unroll for(int i=0;i<3;i++){X(i);}"
     = [].
Proof. evaluate. Qed.

Example breaks_found :
  map (test breakRegex) ["break;"; "x; break ;"; "mybreak;"; "breakfast;"]
  = [true; true; false; false].
Proof. evaluate. Qed.

Example numbers_printed_and_read :
  map String_of_number [0; 7; -17; 1000] = ["0"; "7"; "-17"; "1000"]
  /\ map parseInt ["12"; "-3"; "0x1F"; "1e3"; "N"; " 7px"]
     = [Some 12; Some (-3); Some 31; Some 1; None; Some 7]
  /\ map isFinite_of_string ["12"; "-3"; "0x1F"; "1e3"; "N"; "7px"; "1e999"]
     = [true; true; true; true; false; false; false].
Proof. evaluate. Qed.

(** ** Strings *)

Lemma append_nil_r (s : string) : s ++ "" = s.
Proof. induction s as [|c s IH]; simpl; [reflexivity | now rewrite IH]. Qed.

Lemma append_assoc (s t u : string) : (s ++ t) ++ u = s ++ (t ++ u).
Proof. induction s as [|c s IH]; simpl; [reflexivity | now rewrite IH]. Qed.

Lemma append_length (s t : string) :
  String.length (s ++ t) = (String.length s + String.length t)%nat.
Proof. induction s as [|c s IH]; simpl; [reflexivity | now rewrite IH]. Qed.

Lemma substring_whole (s : string) : substring 0 (String.length s) s = s.
Proof. induction s as [|c s IH]; simpl; [reflexivity | now rewrite IH]. Qed.

Lemma join_app (xs ys : list string) :
  join (xs ++ ys)%list = join xs ++ join ys.
Proof.
  induction xs as [|x xs IH]; simpl; [reflexivity|].
  now rewrite IH, append_assoc.
Qed.

(** ** Replacement *)

(** A pattern that is found nowhere has no match to collect. *)
Lemma search_from_none_find_all (r : regex) (s : string) :
  forall pv p, search_from r pv p s = None -> find_all_from r 0 pv p s = [].
Proof.
  induction s as [|c s IH]; intros pv p H; simpl in *.
  - destruct (match_here r pv p ""); [discriminate | reflexivity].
  - destruct (match_here r pv p (String c s)); [discriminate|].
    now apply IH.
Qed.

Lemma test_false_find_all (r : regex) (text : string) :
  test r text = false -> find_all r text = [].
Proof.
  unfold test, search, find_all. intros H.
  apply search_from_none_find_all.
  destruct (search_from r None 0 text); [discriminate | reflexivity].
Qed.

(** Replacing the matches of a pattern that has none changes nothing and
    calls nobody. *)
Lemma replace_no_match (r : regex) (f : string -> captures -> M string)
      (text : string) :
  test r text = false -> replace r f text = ret text.
Proof.
  intros H. unfold replace. rewrite (test_false_find_all _ _ H). simpl.
  now rewrite Nat.sub_0_r, substring_whole.
Qed.






Lemma substring_zero (n : nat) (s : string) : substring n 0 s = "".
Proof.
  revert n. induction s as [|c s IH]; intros [|n]; simpl; try reflexivity.
  apply IH.
Qed.






(** ** The order of the stages *)


(** ** Fuel

    The fuel only bounds the nesting of [@include]: a result that is
    reached with some fuel is reached with more. *)

Lemma splice_more_fuel (f g : string -> captures -> M string)
      (text : string) :
  (forall m cs errors, f m cs errors <> Diverge ->
                       g m cs errors = f m cs errors) ->
  forall ms next errors,
    splice f text next ms errors <> Diverge ->
    splice g text next ms errors = splice f text next ms errors.
Proof.
  intros Hfg. induction ms as [|[p st] ms IH]; intros next errors H.
  - reflexivity.
  - cbn [splice] in *. unfold bind in *.
    destruct (f (substring p (pos st - p) text) (caps st) errors)
      as [[rep errors']| |] eqn:E.
    + rewrite Hfg by (rewrite E; discriminate). rewrite E.
      rewrite IH; [reflexivity|].
      intros D. apply H. now rewrite D.
    + rewrite Hfg by (rewrite E; discriminate). now rewrite E.
    + now elim H.
Qed.

Lemma generateGLSL_more_fuel (fuel : nat) (env : Env)
      (defines : ShaderPreprocessorConstants) :
  forall (infix : string) (prefix suffix : option string),
    generateGLSL fuel env defines infix prefix suffix <> Diverge ->
    generateGLSL (S fuel) env defines infix prefix suffix
    = generateGLSL fuel env defines infix prefix suffix.
Proof.
  induction fuel as [|fuel IH]; intros infix prefix suffix H.
  - now elim H.
  - set (lhs := generateGLSL (S (S fuel)) env defines infix prefix suffix).
    cbn [generateGLSL] in H |- *. subst lhs.
    remember (S fuel) as n eqn:En. cbn [generateGLSL].
    destruct (generateConstants env defines) as [constants| |];
      try reflexivity.
    unfold bind in *.
    destruct (replace commentsRegex0 _ _ []) as [[c0 e0]| |]; try reflexivity.
    destruct (replace commentsRegex1 _ c0 e0) as [[c1 e1]| |];
      try reflexivity.
    destruct (replace constantRegex _ c1 e1) as [[c2 e2]| |]; try reflexivity.
    unfold replace in H |- *.
    match goal with
    | |- context [splice ?g c2 0 _ e2] =>
        match type of H with
        | context [splice ?f c2 0 _ e2] =>
            assert (forall m cs errors, f m cs errors <> Diverge ->
                                        g m cs errors = f m cs errors) as Hfg
        end
    end.
    { intros m cs errors. unfold lift.
      destruct (readfileSync env (group cs 1)) as [contents| |];
        try reflexivity.
      intros Hne. rewrite IH; [reflexivity|].
      intros D. apply Hne. now rewrite D. }
    rewrite (splice_more_fuel _ _ c2 Hfg); [reflexivity|].
    intros D. apply H. now rewrite D.
Qed.

(** What the order of the stages means for a reader of the output: a token
    inside a comment is never looked up; a token inside the name of an
    included file is substituted before the file is read; a loop whose
    head comes from an included file is unrolled. *)
Example stage_order_observed :
  generateGLSL 1 exampleEnv [] "/* @UNDEFINED@ */x" None None = Ok "x"
  /\ generateGLSL 2 exampleEnv [("N", 1)]
        ("@include " ++ dquote ++ "f@N@.glsl" ++ dquote) None None
      = Ok ("#define N 1" ++ nl ++ "#define N 1" ++ nl ++ "float f1;")
  /\ generateGLSL 2 exampleEnv []
        ("@include " ++ dquote ++ "open.glsl" ++ dquote ++ "X(i);}")
        None None
      = Ok (expansion false "int" "i" "X(i);" [0; 1]).
Proof. evaluate. Qed.

(** The earlier revision expands [@include] before it substitutes the
    constants: there the name of the file still holds the token, and the
    file is refused. *)
Example legacy_includes_before_constants :
  ShaderPreprocessorLegacy.generateGLSL 2 exampleEnv [("N", 1)]
    ("@include " ++ dquote ++ "f@N@.glsl" ++ dquote) None None
  = Throw (FileNotFoundError
             ("Shader preprocessor: can't read file " ++ dquote
              ++ "f@N@.glsl" ++ dquote)).
Proof. vm_compute. reflexivity. Qed.

(** ** Fully resolved text *)

Lemma join_with_length_le (sep : string) (parts : list string) (last : string) :
  (String.length last
   <= String.length (join_with sep (parts ++ [last])%list))%nat.
Proof.
  induction parts as [|p ps IH]; simpl; [lia|].
  destruct (ps ++ [last])%list as [|q qs] eqn:E.
  - destruct ps; discriminate.
  - rewrite !append_length. lia.
Qed.

Lemma join_with_cons_length (sep p : string) (parts : list string)
      (last : string) :
  String.length (join_with sep (p :: parts ++ [last])%list)
  = (String.length p + String.length sep
     + String.length (join_with sep (parts ++ [last])%list))%nat.
Proof.
  cbn [join_with]. destruct (parts ++ [last])%list as [|q qs] eqn:E.
  - destruct parts; discriminate.
  - rewrite !append_length. lia.
Qed.

Lemma generateUnprocessedGLSL_unchanged
      (defines : ShaderPreprocessorConstants) (text : string) :
  generateUnprocessedGLSL defines text None None = text <-> defines = [].
Proof.
  unfold generateUnprocessedGLSL. rewrite app_nil_l, app_nil_r. split.
  - destruct defines as [|d ds]; [reflexivity|]. intros H. exfalso.
    apply (f_equal String.length) in H.
    rewrite map_cons, <- app_comm_cons, join_with_cons_length in H.
    pose proof (join_with_length_le nl (map defineLine ds) text) as Hle.
    simpl in H. lia.
  - intros ->. reflexivity.
Qed.

Lemma unrollLoops_no_match (code : string)
      (defines : ShaderPreprocessorConstants) :
  Forall (fun r => test r code = false) unrollRegex ->
  unrollLoops code defines = ret code.
Proof.
  unfold unrollLoops, unrollRegex. intros H.
  inversion H as [|r0 l0 H0 H']; subst.
  inversion H' as [|r1 l1 H1 _]; subst.
  simpl. unfold bind at 2. simpl.
  rewrite (replace_no_match _ _ _ H0).
  unfold bind, ret. simpl.
  rewrite (replace_no_match _ _ _ H1). reflexivity.
Qed.

(** The [#define] lines that [generateUnprocessedGLSL] puts in front of
    the text, one per entry of the symbol table. *)
Lemma generateUnprocessedGLSL_lines
      (defines : ShaderPreprocessorConstants) (text : string) :
  generateUnprocessedGLSL defines text None None
  = join (map (fun kv => defineLine kv ++ nl) defines) ++ text.
Proof.
  unfold generateUnprocessedGLSL. rewrite app_nil_l, app_nil_r.
  induction defines as [|d ds IH]; [reflexivity|].
  rewrite !map_cons, <- app_comm_cons. cbn [join_with join].
  destruct (map defineLine ds ++ [text])%list as [|q qs] eqn:E.
  - destruct (map defineLine ds); discriminate.
  - rewrite IH. now rewrite !append_assoc.
Qed.

(** C2, as the code has it. Run on a text in which, once the [#define]
    lines of the symbol table are put in front of it, no pattern of the
    preprocessor finds anything, [generateGLSL] returns these [#define]
    lines, one per entry of the table, followed by the text; this is the
    text itself exactly when the symbol table is empty. *)
Theorem generateGLSL_fully_resolved (fuel : nat) (env : Env)
        (defines : ShaderPreprocessorConstants) (text : string) :
  isInitialized env = true ->
  fullyResolved (join (map (fun kv => defineLine kv ++ nl) defines) ++ text) ->
  generateGLSL (S fuel) env defines text None None
  = Ok (join (map (fun kv => defineLine kv ++ nl) defines) ++ text)
  /\ (join (map (fun kv => defineLine kv ++ nl) defines) ++ text = text
      <-> defines = []).
Proof.
  rewrite <- generateUnprocessedGLSL_lines.
  intros Hinit (Hc0 & Hc1 & Hk & Hi & Hu).
  split; [|apply generateUnprocessedGLSL_unchanged].
  simpl. unfold generateConstants. rewrite Hinit. simpl.
  unfold bind.
  rewrite (replace_no_match _ _ _ Hc0). simpl.
  rewrite (replace_no_match _ _ _ Hc1). simpl.
  rewrite (replace_no_match _ _ _ Hk). simpl.
  rewrite (replace_no_match _ _ _ Hi). simpl.
  rewrite (unrollLoops_no_match _ _ Hu). simpl.
  now rewrite append_nil_r.
Qed.

Lemma generateGLSL_fully_resolved_witness :
  generateGLSL 1 exampleEnv [("N", 1)] "void main() { }" None None
  = Ok ("#define N 1" ++ nl ++ "void main() { }").
Proof.
  refine (proj1 (generateGLSL_fully_resolved 0 exampleEnv [("N", 1)]
                   "void main() { }" _ _)).
  - reflexivity.
  - repeat split; try (vm_compute; reflexivity).
    repeat constructor.
Defined.

(** C2 as the specification states it fails as soon as the symbol table
    is not empty: the output for ["x"] under [N = 1] is fully resolved,
    and running the preprocessor on it puts a second [#define] line in
    front of it. *)
Lemma generateGLSL_not_idempotent :
  generateGLSL 1 exampleEnv [("N", 1)] "x" None None
  = Ok ("#define N 1" ++ nl ++ "x")
  /\ fullyResolved ("#define N 1" ++ nl ++ "x")
  /\ generateGLSL 1 exampleEnv [("N", 1)] ("#define N 1" ++ nl ++ "x")
        None None
      = Ok ("#define N 1" ++ nl ++ "#define N 1" ++ nl ++ "x")
  /\ generateGLSL 1 exampleEnv [("N", 1)] ("#define N 1" ++ nl ++ "x")
        None None
      <> Ok ("#define N 1" ++ nl ++ "x").
Proof.
  split; [vm_compute; reflexivity|].
  split; [repeat split; try (vm_compute; reflexivity); repeat constructor|].
  split; [vm_compute; reflexivity|].
  vm_compute. discriminate.
Qed.

(** ** Unrolling *)










(** A loop whose start lies beyond its end, through [unroll] and through
    the whole preprocessor. *)
Example unroll_decreasing_limits_refused :
  unroll [] "@unroll for(int i=5;i<3;i++){X(i);}" "int" "i" "5" "<" "3" ""
         "X(i);"
  = Throw AssertionError
  /\ generateGLSL 1 exampleEnv [] "@unroll for(int i=5;i<3;i++){X(i);}"
                  None None
     = Throw AssertionError.
Proof. evaluate. Qed.





(** The same through the whole preprocessor: with no defines the loop is
    left as it is, with one define that does not help a [ParseError] is
    thrown, and with the define that is needed the loop is unrolled. *)
Example unresolved_limit_observed :
  generateGLSL 1 exampleEnv [] "@unroll for(int i=0;i<N;i++){X(i);}"
               None None
  = Ok "@unroll for(int i=0;i<N;i++){X(i);}"
  /\ generateGLSL 1 exampleEnv [("M", 1)]
        "@unroll for(int i=0;i<N;i++){X(i);}" None None
      = Throw (ParseError
                 ("Can't unroll loop: unknown limits (start=0, end=N). Code:"
                  ++ nl ++ nl ++ "@unroll for(int i=0;i<N;i++){X(i);}"))
  /\ generateGLSL 1 exampleEnv [("N", 2)]
        "@unroll for(int i=0;i<N;i++){X(i);}" None None
      = Ok ("#define N 2" ++ nl ++ expansion false "int" "i" "X(i);" [0; 1]).
Proof. evaluate. Qed.

(** The expansion of the first example, spelled out. *)
Example expansion_spelled_out :
  expansion false "int" "i" "X(i);" [0; 1; 2]
  = "{" ++ nl ++ "int i;" ++ nl
    ++ "{" ++ nl ++ "i = 0;" ++ nl ++ "X(i);" ++ nl ++ "}" ++ nl
    ++ "{" ++ nl ++ "i = 1;" ++ nl ++ "X(i);" ++ nl ++ "}" ++ nl
    ++ "{" ++ nl ++ "i = 2;" ++ nl ++ "X(i);" ++ nl ++ "}" ++ nl
    ++ "}" ++ nl.
Proof. reflexivity. Qed.

End PreprocessorTheory.

(* ===================================================================== *)
(** * Theory of the pipeline ports *)
(* ===================================================================== *)

Module PipelineTheory.
Import Pipeline.
Local Open Scope nat_scope.

Section PortFacts.

Variable Payload : Type.

Let Heap : Type := Pipeline.Heap Payload.
Let Port_ : Type := SpeedyPipelinePort Payload.

(** ** The heap *)

Lemma type_eqb_eq (a b : SpeedyPipelineMessageType) :
  type_eqb a b = true <-> a = b.
Proof. destruct a, b; simpl; split; intros H; congruence. Qed.

Lemma type_eqb_neq (a b : SpeedyPipelineMessageType) :
  type_eqb a b = false <-> a <> b.
Proof. destruct a, b; simpl; split; intros H; congruence. Qed.

Lemma deref_assign_same (h : Heap) (r : ref) (p q : Port_) :
  deref h r = Some q -> deref (assign h r p) r = Some p.
Proof.
  unfold deref. revert r. induction h as [|x h IH]; intros [|r] H;
    simpl in *; try discriminate; [reflexivity | now apply IH].
Qed.

Lemma deref_assign_other (h : Heap) (r r' : ref) (p : Port_) :
  r <> r' -> deref (assign h r p) r' = deref h r'.
Proof.
  unfold deref. revert r r'.
  induction h as [|x h IH]; intros [|r] [|r'] H; simpl; try reflexivity;
    try congruence.
  apply IH. congruence.
Qed.

(** ** Connecting *)

(** C5. Connecting an input port to a port succeeds exactly when that
    port is an output port and the two specifications expect the same
    message tag, and then the incoming link is that port. With an output
    port that expects another tag the call throws at once, from either
    end, and nothing is changed: the incoming link is as it was. *)
Theorem connectTo_requires_identical_tag
        (h : Heap) (this port : ref) (p q : Port_) :
  deref h this = Some p ->
  class p = InputPort ->
  deref h port = Some q ->
  ((exists h', connectTo h this port = (h', Return tt))
   <-> class q = OutputPort /\ tag p = tag q)
  /\ (class q = OutputPort -> tag p = tag q ->
      exists h',
        connectTo h this port = (h', Return tt)
        /\ connectTo h port this = (h', Return tt)
        /\ incomingLink h' this = Some port)
  /\ (class q = OutputPort -> tag p <> tag q ->
      connectTo h this port = (h, Throw IllegalArgumentError)
      /\ connectTo h port this = (h, Throw IllegalArgumentError)
      /\ incomingLink (fst (connectTo h this port)) this = _incomingLink p).
Proof.
  intros Hp Hin Hq.
  assert (forall x, incomingLink (assign h this x) this = _incomingLink x)
    as Hlink.
  { intros x. unfold incomingLink.
    now rewrite (deref_assign_same _ _ _ _ Hp). }
  unfold connectTo, InputPort_connectTo, isCompatibleWith, isOutputPort,
    isInputPort, incomingLink, tag.
  rewrite Hp, Hq, Hin.
  destruct (class q) eqn:Hc; cbn [negb].
  - (* the other port is an input port *)
    split; [|split]; try discriminate.
    split; [intros (h' & H); discriminate | intros (H & _); discriminate].
  - destruct (type_eqb (_expectedMessageType (_spec p))
                       (_expectedMessageType (_spec q))) eqn:Ht; cbn [negb].
    + apply type_eqb_eq in Ht.
      split; [|split].
      * split; [intros _; now split | intros _; eexists; reflexivity].
      * intros _ _. eexists. repeat split. apply Hlink.
      * intros _ Hne. contradiction.
    + apply type_eqb_neq in Ht.
      split; [|split].
      * split; [intros (h' & H); discriminate | intros (_ & H); contradiction].
      * intros _ He. contradiction.
      * intros _ _. repeat split. cbn [fst]. now rewrite Hp.
Qed.

(** ** Writing and pulling *)

Lemma accepts_not_empty (spec : SpeedyPipelinePortSpec Payload)
      (m : SpeedyPipelineMessage Payload) :
  _expectedMessageType spec <> Nothing ->
  accepts spec m = true -> isEmpty m = false.
Proof.
  unfold accepts, isEmpty, hasType. intros Hne H.
  apply andb_true_iff in H. destruct H as [H _].
  apply type_eqb_eq in H. apply type_eqb_neq. congruence.
Qed.

(** C6, as the code has it. An output port validates a message against
    its own specification when the message is written: [write] throws
    exactly when that specification does not accept the message, and then
    the port holds what it held. The specification of the input port at
    the other end of a link is looked at when that port pulls the
    message: it is then that a message which the output port has accepted
    and the input port does not accept is refused. *)
Theorem write_validates_then_pull_validates
        (h : Heap) (this : ref) (q : Port_)
        (m : SpeedyPipelineMessage Payload) :
  deref h this = Some q ->
  class q = OutputPort ->
  tag q <> Nothing ->
  (write h this m = (h, Throw IllegalArgumentError)
   <-> accepts (_spec q) m = false)
  /\ (accepts (_spec q) m = false ->
      messageOf (fst (write h this m)) this = Some (_message q))
  /\ (accepts (_spec q) m = true ->
      snd (write h this m) = Return tt
      /\ messageOf (fst (write h this m)) this = Some m)
  /\ (forall (input : ref) (p : Port_),
        deref h input = Some p ->
        class p = InputPort ->
        _incomingLink p = Some this ->
        accepts (_spec q) m = true ->
        let h' := fst (write h this m) in
        (accepts (_spec p) m = true ->
         snd (pullMessage h' input) = Return m
         /\ messageOf (fst (pullMessage h' input)) input = Some m)
        /\ (accepts (_spec p) m = false ->
            pullMessage h' input = (h', Throw IllegalArgumentError))).
Proof.
  intros Hq Hout Htag.
  assert (write h this m
          = if accepts (_spec q) m
            then (assign h this
                    (Port (class q) (_name q) (_spec q) (_node q) m
                          (_incomingLink q)), Return tt)
            else (h, Throw IllegalArgumentError)) as Hw.
  { unfold write. rewrite Hq, Hout.
    destruct (accepts (_spec q) m); reflexivity. }
  rewrite Hw. split; [|split; [|split]].
  - destruct (accepts (_spec q) m); split; intros H;
      try discriminate; reflexivity.
  - intros ->. simpl. unfold messageOf. now rewrite Hq.
  - intros ->. simpl. split; [reflexivity|].
    unfold messageOf. now rewrite (deref_assign_same _ _ _ _ Hq).
  - intros input p Hp Hin Hlink Hacc. rewrite Hacc. cbn [fst].
    assert (input <> this) as Hne by (intros ->; congruence).
    assert (isEmpty m = false) as Hm
        by (apply (accepts_not_empty (_spec q)); assumption).
    assert (deref (assign h this
                     (Port (class q) (_name q) (_spec q) (_node q) m
                           (_incomingLink q))) input = Some p) as Hp'
        by (rewrite deref_assign_other; [assumption | congruence]).
    unfold pullMessage, read.
    rewrite Hp', Hin, Hlink.
    rewrite (deref_assign_same _ _ _ _ Hq). cbn [_message].
    rewrite Hm.
    split; intros Hp_acc; rewrite Hp_acc; cbn [negb fst snd].
    + split; [reflexivity|].
      unfold messageOf. now rewrite (deref_assign_same _ _ _ _ Hp').
    + reflexivity.
Qed.

(** ** Reading *)

(** C10. For every port, [read] throws an [IllegalOperationError] exactly
    when the port holds the empty message, and otherwise returns the
    message that the port holds; [hasMessage] is true exactly when [read]
    does not throw. A port holds the empty message when it has just been
    constructed and after [clearMessage]. Reading changes nothing. *)
Theorem read_throws_iff_empty (h : Heap) (this : ref) (p : Port_) :
  deref h this = Some p ->
  (read h this = (h, Throw IllegalOperationError)
   <-> isEmpty (_message p) = true)
  /\ (isEmpty (_message p) = false -> read h this = (h, Return (_message p)))
  /\ (hasMessage h this = (h, Return true)
      <-> exists m, read h this = (h, Return m))
  /\ read (fst (clearMessage h this)) this
     = (fst (clearMessage h this), Throw IllegalOperationError)
  /\ (forall (c : PortClass) (h0 : Pipeline.Heap Payload) (name : string)
             (spec : SpeedyPipelinePortSpec Payload) (node : nat)
             (h1 : Pipeline.Heap Payload) (r : ref),
        newPort c h0 name spec node = (h1, Return r) ->
        read h1 r = (h1, Throw IllegalOperationError)
        /\ hasMessage h1 r = (h1, Return false)).
Proof.
  intros Hp. unfold read, hasMessage, clearMessage. rewrite Hp.
  split; [|split; [|split; [|split]]].
  - destruct (isEmpty (_message p)); split; intros H;
      try discriminate; reflexivity.
  - intros ->. reflexivity.
  - destruct (isEmpty (_message p)); cbn [negb]; split.
    + discriminate.
    + intros (m & H). discriminate.
    + intros _. eexists. reflexivity.
    + reflexivity.
  - cbn [fst]. now rewrite (deref_assign_same _ _ _ _ Hp).
  - intros c h0 name spec node h1 r. unfold newPort.
    destruct (Regex.test ACCEPTABLE_PORT_NAME _); intros H; inversion H; subst.
    unfold deref. rewrite nth_error_app2 by lia.
    rewrite Nat.sub_diag. split; reflexivity.
Qed.

End PortFacts.

(** The three theorems at the ports of the example graph. *)

Lemma connectTo_requires_identical_tag_witness :
  connectTo exampleHeap 1 0 = (linkedHeap, Return tt)
  /\ connectTo exampleHeap 0 1 = (linkedHeap, Return tt)
  /\ incomingLink linkedHeap 1 = Some 0.
Proof.
  destruct (proj1 (proj2 (connectTo_requires_identical_tag unit exampleHeap
                            1 0 _ _ eq_refl eq_refl eq_refl))
                  eq_refl eq_refl) as (h' & H1 & H2 & H3).
  pose proof H1 as E. vm_compute in E. injection E as <-.
  repeat split; assumption.
Defined.

Lemma write_validates_then_pull_validates_witness :
  write exampleHeap 0 EMPTY_MESSAGE
  = (exampleHeap, Throw IllegalArgumentError)
  <-> accepts (PortSpec Image always) (@EMPTY_MESSAGE unit) = false.
Proof.
  refine (proj1 (write_validates_then_pull_validates unit exampleHeap 0 _
                   EMPTY_MESSAGE eq_refl eq_refl _)).
  discriminate.
Defined.

Lemma read_throws_iff_empty_witness :
  read exampleHeap 0 = (exampleHeap, Throw IllegalOperationError)
  <-> isEmpty (@EMPTY_MESSAGE unit) = true.
Proof.
  refine (proj1 (read_throws_iff_empty unit exampleHeap 0 _ eq_refl)).
Defined.

(** C6 as the specification states it fails: a message can pass the
    validation of [write] and fail the predicate of the input port that
    is linked to the output port, and this shows only when the input port
    pulls the message. *)
Lemma downstream_predicate_checked_at_pull :
  connectTo exampleHeap 1 0 = (linkedHeap, Return tt)
  /\ accepts (PortSpec Image refuseAll) exampleImage = false
  /\ write linkedHeap 0 exampleImage = (writtenHeap, Return tt)
  /\ pullMessage writtenHeap 1 = (writtenHeap, Throw IllegalArgumentError).
Proof. repeat split. Qed.

End PipelineTheory.

(* ===================================================================== *)
(** * Theory of the keypoint codec *)
(* ===================================================================== *)

Module KeypointsTheory.
Import Keypoints.
Local Open Scope Z_scope.

(** ** Bytes and the numbers that the sampler makes of them *)

Lemma to_N_zero (x : Byte.byte) : Byte.to_N x = 0%N <-> x = Byte.x00.
Proof.
  split; [|intros ->; reflexivity]. intros H.
  pose proof (Byte.of_to_N x) as E. rewrite H in E.
  simpl in E. congruence.
Qed.

Lemma to_N_max (x : Byte.byte) : Byte.to_N x = 255%N <-> x = Byte.xff.
Proof.
  split; [|intros ->; reflexivity]. intros H.
  pose proof (Byte.of_to_N x) as E. rewrite H in E.
  simpl in E. congruence.
Qed.

Lemma channel_is_one (x : Byte.byte) :
  Qeq_bool (channel x) 1 = true <-> x = Byte.xff.
Proof.
  rewrite <- to_N_max. unfold channel, Qeq_bool. simpl.
  rewrite Z.eqb_eq. lia.
Qed.

Lemma channel_sum_is_zero (x y : Byte.byte) :
  Qeq_bool (channel x + channel y) 0 = true
  <-> x = Byte.x00 /\ y = Byte.x00.
Proof.
  rewrite <- !to_N_zero. unfold channel, Qeq_bool, Qplus. simpl.
  rewrite Z.eqb_eq. lia.
Qed.

Lemma texel_eq (t : texel) (x y z w : Byte.byte) :
  t = Texel x y z w
  <-> red t = x /\ green t = y /\ blue t = z /\ alpha t = w.
Proof.
  destruct t as [tr tg tb ta]. simpl. split.
  - intros H. inversion H. auto.
  - intros (-> & -> & -> & ->). reflexivity.
Qed.

Lemma isNull_bytes (t : texel) :
  all_equal (texelValue t) (vec4_of 1) = true <-> t = allOnes.
Proof.
  unfold all_equal, allOnes. simpl. rewrite !andb_true_iff.
  rewrite !channel_is_one, texel_eq. tauto.
Qed.

Lemma isDiscarded_bytes (t u : texel) :
  all_equal (vec4_add (texelValue t) (texelValue u)) (vec4_of 0) = true
  <-> t = allZeros /\ u = allZeros.
Proof.
  unfold all_equal, allZeros. simpl. rewrite !andb_true_iff.
  rewrite !channel_sum_is_zero, !texel_eq. tauto.
Qed.

(** What [readKeypointData] returns, in terms of [headerBytes]. *)
Lemma readKeypointData_bytes (tex : sampler2D) (len : Z)
      (address : KeypointAddress) (off : Z) :
  sameValue (readKeypointData tex len (Address (base address) off))
            (texelValue (headerBytes tex len address off)).
Proof.
  unfold readKeypointData, headerBytes, pixelAt. simpl.
  destruct (_ <? _); unfold sameValue; simpl; repeat split; reflexivity.
Qed.

Lemma Qeq_bool_compat (x x' y y' : Q) :
  (x == x')%Q -> (y == y')%Q -> Qeq_bool x y = Qeq_bool x' y'.
Proof.
  intros Hx Hy. destruct (Qeq_bool x' y') eqn:E.
  - apply Qeq_bool_iff. apply Qeq_bool_iff in E. now rewrite Hx, Hy.
  - destruct (Qeq_bool x y) eqn:E'; [|reflexivity].
    apply Qeq_bool_iff in E'. rewrite Hx, Hy in E'.
    apply Qeq_bool_iff in E'. congruence.
Qed.

Lemma all_equal_compat (u u' v : vec4) :
  sameValue u u' -> all_equal u v = all_equal u' v.
Proof.
  intros (Hr & Hg & Hb & Ha). unfold all_equal.
  now rewrite (Qeq_bool_compat _ _ _ _ Hr (Qeq_refl _)),
              (Qeq_bool_compat _ _ _ _ Hg (Qeq_refl _)),
              (Qeq_bool_compat _ _ _ _ Hb (Qeq_refl _)),
              (Qeq_bool_compat _ _ _ _ Ha (Qeq_refl _)).
Qed.

Lemma vec4_add_compat (u u' v v' : vec4) :
  sameValue u u' -> sameValue v v' ->
  sameValue (vec4_add u v) (vec4_add u' v').
Proof.
  intros (Hr & Hg & Hb & Ha) (Hr' & Hg' & Hb' & Ha').
  unfold sameValue, vec4_add. simpl.
  now rewrite Hr, Hg, Hb, Ha, Hr', Hg', Hb', Ha'.
Qed.

Section Decoding.

Variable float : Type.
Variable literal : Q -> float.
Variable fmul fsub : float -> float -> float.
Variable TWO_PI PI : float.
Variable decodeFloat16 : Q * Q -> float.
Variable decodeLod : Q -> float.
Variable fixtovec2 : Z * Z -> float * float.

Let decodeHeader :=
  decodeHeader float literal fmul fsub TWO_PI PI decodeFloat16 decodeLod
               fixtovec2.
Let decodeKeypoint :=
  decodeKeypoint float literal fmul fsub TWO_PI PI decodeFloat16 decodeLod
                 fixtovec2.

Lemma isNullKeypoint_decodeHeader (p q : vec4) :
  isNullKeypoint (decodeHeader p q) = all_equal p (vec4_of 1).
Proof.
  unfold isNullKeypoint, decodeHeader, Keypoints.decodeHeader. simpl.
  destruct (all_equal p (vec4_of 1)), (all_equal (vec4_add p q) (vec4_of 0));
    reflexivity.
Qed.

Lemma isDiscardedKeypoint_decodeHeader (p q : vec4) :
  isDiscardedKeypoint (decodeHeader p q)
  = all_equal (vec4_add p q) (vec4_of 0).
Proof.
  unfold isDiscardedKeypoint, decodeHeader, Keypoints.decodeHeader. simpl.
  destruct (all_equal p (vec4_of 1)), (all_equal (vec4_add p q) (vec4_of 0));
    reflexivity.
Qed.

(** C7. The record at an address decodes to the null keypoint (the end of
    the list) exactly when the four bytes of its position are all 0xFF,
    and to a discarded keypoint exactly when the eight bytes of its header
    are all 0. In both cases its score is -1.0; in every other case the
    score is the half float held in the last two bytes of the second
    pixel of the header. *)
Theorem decodeKeypoint_classifies (encodedKeypoints : sampler2D)
        (encoderLength : Z) (address : KeypointAddress) :
  let positionBytes := headerBytes encodedKeypoints encoderLength address 0 in
  let propertiesBytes :=
    headerBytes encodedKeypoints encoderLength address 1 in
  let rawEncodedProperties :=
    readKeypointData encodedKeypoints encoderLength
                     (Address (base address) 1) in
  let keypoint := decodeKeypoint encodedKeypoints encoderLength address in
  (isNullKeypoint keypoint = true <-> positionBytes = allOnes)
  /\ (isDiscardedKeypoint keypoint = true
      <-> positionBytes = allZeros /\ propertiesBytes = allZeros)
  /\ (isNullKeypoint keypoint = true \/ isDiscardedKeypoint keypoint = true ->
      score keypoint = literal (-1))
  /\ (isNullKeypoint keypoint = false ->
      isDiscardedKeypoint keypoint = false ->
      score keypoint
      = decodeFloat16 (b rawEncodedProperties, a rawEncodedProperties)).
Proof.
  intros positionBytes propertiesBytes rawEncodedProperties keypoint.
  pose proof (readKeypointData_bytes encodedKeypoints encoderLength address 0)
    as Hpos.
  pose proof (readKeypointData_bytes encodedKeypoints encoderLength address 1)
    as Hprops.
  fold positionBytes in Hpos. fold propertiesBytes in Hprops.
  fold rawEncodedProperties in Hprops.
  set (rawEncodedPosition :=
         readKeypointData encodedKeypoints encoderLength
                          (Address (base address) 0)) in *.
  assert (keypoint = decodeHeader rawEncodedPosition rawEncodedProperties)
    as -> by reflexivity.
  rewrite isNullKeypoint_decodeHeader, isDiscardedKeypoint_decodeHeader.
  rewrite (all_equal_compat _ _ _ Hpos).
  rewrite (all_equal_compat _ _ _ (vec4_add_compat _ _ _ _ Hpos Hprops)).
  split; [apply isNull_bytes|].
  split; [apply isDiscarded_bytes|].
  rewrite <- (all_equal_compat _ _ _ Hpos).
  rewrite <- (all_equal_compat _ _ _ (vec4_add_compat _ _ _ _ Hpos Hprops)).
  unfold decodeHeader, Keypoints.decodeHeader. simpl.
  split.
  - intros [-> | ->]; [reflexivity | now rewrite orb_true_r].
  - intros -> ->. reflexivity.
Qed.

End Decoding.

(** The first record of a texture that is all zeros is a discarded
    keypoint; the record that would start beyond the end of the texture
    is the null keypoint. Both get the score -1. *)
Example decodeKeypoint_sentinels :
  let blank : sampler2D := fun _ _ => allZeros in
  let decode :=
    decodeKeypoint Q (fun q => q) Qmult Qminus (628 # 100)%Q (314 # 100)%Q
                   (fun _ => 0%Q) (fun q => q) (fun xy => (0%Q, 0%Q))
                   blank 4 in
  flags (decode (Address 0 0)) = KPF_DISCARDED
  /\ score (decode (Address 0 0)) = (-1)%Q
  /\ flags (decode (Address 16 0)) = KPF_NULL
  /\ score (decode (Address 16 0)) = (-1)%Q.
Proof. repeat split. Qed.

End KeypointsTheory.

(* ===================================================================== *)
(** * Theory of the fence polling *)
(* ===================================================================== *)

Module TextureReaderTheory.
Import TextureReader.
Local Open Scope Z_scope.

Lemma firstSignaled_range (gl : Device) (n from k : nat) :
  firstSignaled gl from n = Some k -> (from <= k < from + n)%nat.
Proof.
  revert from. induction n as [|n IH]; intros from H; simpl in H.
  - discriminate.
  - destruct (signaled (clientWaitSync gl from)).
    + inversion H. lia.
    + apply IH in H. lia.
Qed.

Lemma firstSignaled_signaled (gl : Device) (n from k : nat) :
  firstSignaled gl from n = Some k ->
  signaled (clientWaitSync gl k) = true
  /\ forall j, (from <= j < k)%nat -> signaled (clientWaitSync gl j) = false.
Proof.
  revert from. induction n as [|n IH]; intros from H; simpl in H.
  - discriminate.
  - destruct (signaled (clientWaitSync gl from)) eqn:E.
    + inversion H; subst. split; [assumption | intros j Hj; lia].
    + destruct (IH _ H) as [Hk Hbefore]. split; [assumption|].
      intros j Hj. destruct (Nat.eq_dec j from) as [->|Hne];
        [assumption | apply Hbefore; lia].
Qed.

Lemma firstSignaled_none (gl : Device) (n from : nat) :
  firstSignaled gl from n = None ->
  forall j, (from <= j < from + n)%nat ->
            signaled (clientWaitSync gl j) = false.
Proof.
  revert from. induction n as [|n IH]; intros from H j Hj; simpl in H.
  - lia.
  - destruct (signaled (clientWaitSync gl from)) eqn:E; [discriminate|].
    destruct (Nat.eq_dec j from) as [->|Hne];
      [assumption | apply (IH _ H); lia].
Qed.

(** What the succession of calls comes to, for a budget of [n] attempts:
    the promise is resolved at the first of the next [n] polls that finds
    the fence signaled, and rejected by the poll after these if there is
    none. *)
Lemma wait_settles (gl : Device) (n : nat) :
  forall (fuel polls : nat) (p : Z) (timers : list Z),
    (n < fuel)%nat ->
    wait fuel gl polls (Args p (Z.of_nat n)) timers
    = Some
        match firstSignaled gl polls n with
        | Some k =>
            MkRun Resolved (S k) (timers ++ intervals (k - polls) p)
        | None =>
            MkRun (Rejected (TimeoutError timeoutMessage
                                          (getError gl (S (polls + n)))))
                  (S (polls + n)) (timers ++ intervals n p)
        end.
Proof.
  induction n as [|n IH]; intros fuel polls p timers Hfuel;
    (destruct fuel as [|fuel]; [lia|]).
  - simpl. unfold _clientWaitAsync. simpl.
    now rewrite Nat.add_0_r, app_nil_r.
  - cbn [wait firstSignaled]. unfold _clientWaitAsync.
    cbn [remainingAttempts pollInterval].
    destruct (Z.leb_spec (Z.of_nat (S n)) 0); [lia|].
    destruct (signaled (clientWaitSync gl polls)) eqn:E.
    + now rewrite Nat.sub_diag, app_nil_r.
    + replace (Z.of_nat (S n) - 1) with (Z.of_nat n) by lia.
      rewrite IH by lia.
      destruct (firstSignaled gl (S polls) n) as [k|] eqn:F.
      * apply firstSignaled_range in F.
        replace (k - polls)%nat with (S (k - S polls)) by lia.
        cbn [intervals]. now rewrite <- app_assoc.
      * cbn [intervals]. rewrite <- app_assoc.
        now replace (S polls + n)%nat with (polls + S n)%nat by lia.
Qed.


Lemma intervals_length (n : nat) (p : Z) : List.length (intervals n p) = n.
Proof.
  revert p. induction n as [|n IH]; intros p; simpl; [|rewrite IH];
    reflexivity.
Qed.



(** The poll that is made with the budget exhausted rejects whatever it
    finds: with no attempt left and a fence that is signaled from the
    start, and with the default budget and a fence that becomes signaled
    at poll 1001. *)
Example signaled_at_last_poll_rejected :
  signaled (clientWaitSync (signaledFrom 0) 0) = true
  /\ wait 1 (signaledFrom 0) 0 (Args 10 0) []
     = Some (MkRun (Rejected (TimeoutError timeoutMessage "NO_ERROR")) 1 [])
  /\ signaled (clientWaitSync (signaledFrom 1000) 1000) = true
  /\ option_map settled
       (wait 1001 (signaledFrom 1000) 0 defaultArguments [])
     = Some (Rejected (TimeoutError timeoutMessage "NO_ERROR")).
Proof. repeat split; vm_compute; reflexivity. Qed.

End TextureReaderTheory.
(* ===================================================================== *)
(** * More on the shader preprocessor: tables of constants, diagnostics,
      file names, loops and includes *)
(* ===================================================================== *)

Module PreprocessorLaws.
Import Str Regex JS ShaderPreprocessor Names.

(** ** Tables *)

Lemma map_get_map_set (m : ShaderPreprocessorConstants) (key name : string)
      (v : Z) :
  map_get (map_set m key v) name
  = if String.eqb key name then Some v else map_get m name.
Proof.
  induction m as [|[k w] m IH]; simpl.
  - reflexivity.
  - destruct (String.eqb k key) eqn:Ek; simpl.
    + apply String.eqb_eq in Ek. subst k.
      destruct (String.eqb key name); reflexivity.
    + rewrite IH. destruct (String.eqb k name) eqn:En; [|reflexivity].
      destruct (String.eqb key name) eqn:E; [|reflexivity].
      apply String.eqb_eq in En, E. subst.
      rewrite String.eqb_refl in Ek. discriminate.
Qed.

Lemma map_set_keys (m : ShaderPreprocessorConstants) (key : string) (v : Z)
      (x : string) :
  In x (map fst (map_set m key v)) <-> x = key \/ In x (map fst m).
Proof.
  induction m as [|[k w] m IH]; simpl.
  - intuition congruence.
  - destruct (String.eqb k key) eqn:Ek; simpl.
    + apply String.eqb_eq in Ek. subst k. intuition congruence.
    + rewrite IH. intuition congruence.
Qed.

Lemma map_set_NoDup (m : ShaderPreprocessorConstants) (key : string) (v : Z) :
  NoDup (map fst m) -> NoDup (map fst (map_set m key v)).
Proof.
  induction m as [|[k w] m IH]; simpl; intros H.
  - constructor; [intros [] | constructor].
  - inversion H as [|? ? Hin Hnd]; subst.
    destruct (String.eqb k key) eqn:Ek; simpl.
    + now constructor.
    + constructor; [|now apply IH].
      rewrite map_set_keys. intros [->|Hk]; [|contradiction].
      now rewrite String.eqb_refl in Ek.
Qed.

Lemma assign_NoDup (source target : ShaderPreprocessorConstants) :
  NoDup (map fst target) -> NoDup (map fst (assign target source)).
Proof.
  revert target. induction source as [|[k v] source IH]; intros target H.
  - exact H.
  - apply (IH (map_set target k v)). now apply map_set_NoDup.
Qed.

Lemma map_get_absent (m : ShaderPreprocessorConstants) (key : string) :
  ~ In key (map fst m) -> map_get m key = None.
Proof.
  induction m as [|[k w] m IH]; simpl; intros H; [reflexivity|].
  destruct (String.eqb k key) eqn:Ek.
  - apply String.eqb_eq in Ek. tauto.
  - apply IH. tauto.
Qed.

(** [Object.assign]: what the source has wins, the rest is the target's. *)
Lemma map_get_assign (source target : ShaderPreprocessorConstants)
      (name : string) :
  NoDup (map fst source) ->
  map_get (assign target source) name
  = match map_get source name with
    | Some v => Some v
    | None => map_get target name
    end.
Proof.
  revert target. induction source as [|[k v] source IH]; intros target H.
  - reflexivity.
  - inversion H as [|? ? Hin Hnd]; subst.
    change (assign target ((k, v) :: source))
      with (assign (map_set target k v) source).
    rewrite (IH _ Hnd), map_get_map_set. simpl.
    destruct (String.eqb k name) eqn:Ek; [|reflexivity].
    apply String.eqb_eq in Ek. subst k.
    now rewrite (map_get_absent _ _ Hin).
Qed.

(** X1. The table that [generateConstants] builds is looked up like this:
    a constant of the user first, then a constant of the platform, then
    a basic constant; a name that none of them has is absent. *)
Theorem generateConstants_precedence (env : Env)
        (defines : ShaderPreprocessorConstants) :
  isInitialized env = true ->
  NoDup (map fst defines) ->
  NoDup (map fst (numericGlobals env)) ->
  exists constants,
    generateConstants env defines = Ok constants
    /\ forall name,
         map_get constants name
         = match map_get defines name with
           | Some v => Some v
           | None =>
               match map_get (platformConstants (platformString env)
                                                (renderer env)) name with
               | Some v => Some v
               | None => map_get (basicConstants env) name
               end
           end.
Proof.
  intros Hinit Hdef Hglob. unfold generateConstants. rewrite Hinit.
  cbn [negb].
  eexists. split; [reflexivity|]. intros name.
  assert (NoDup (map fst (basicConstants env))) as Hbasic
      by (now apply assign_NoDup).
  assert (NoDup (map fst (platformConstants (platformString env)
                                            (renderer env)))) as Hplat.
  { simpl. repeat constructor; simpl; intuition discriminate. }
  rewrite (map_get_assign defines _ name Hdef).
  destruct (map_get defines name); [reflexivity|].
  rewrite map_get_assign by (apply assign_NoDup, assign_NoDup; constructor).
  rewrite (map_get_assign _ _ name Hplat).
  destruct (map_get (platformConstants _ _) name); [reflexivity|].
  rewrite (map_get_assign _ _ name Hbasic). simpl.
  now destruct (map_get (basicConstants env) name).
Qed.

Lemma generateConstants_precedence_witness :
  exists constants,
    generateConstants exampleEnv [("APPLE", 7); ("N", 3)] = Ok constants
    /\ map_get constants "APPLE" = Some 7
    /\ map_get constants "INTEL_GRAPHICS" = Some 0
    /\ map_get constants "PYRAMID_MAX_LEVELS" = Some 8
    /\ map_get constants "M" = None.
Proof.
  destruct (generateConstants_precedence exampleEnv [("APPLE", 7); ("N", 3)])
    as [constants [H Hget]].
  - reflexivity.
  - simpl. repeat constructor; simpl; intuition discriminate.
  - simpl. repeat constructor; simpl; intuition discriminate.
  - exists constants. split; [exact H|].
    rewrite !Hget. repeat split; vm_compute; reflexivity.
Defined.

(** ** Diagnostics *)



(** X2. Substituting the [@NAME@] tokens never throws: a name that the
    table does not have is replaced and recorded, at most once per token,
    after the diagnostics that were there before. *)
Theorem substituteConstants_records
        (constants : ShaderPreprocessorConstants) (code : string)
        (errors : list string) :
  exists out new,
    replace constantRegex (constantReplacer constants) code errors
    = Ok (out, (errors ++ new)%list)
    /\ Forall (undefinedIn constants) new
    /\ (List.length new <= List.length (find_all constantRegex code))%nat.
Proof.
  unfold replace. revert errors.
  generalize (find_all constantRegex code) as ms. generalize 0%nat as next.
  intros next ms. revert next. set (text := code).
  induction ms as [|[p st] ms IH]; intros next errors.
  - exists (substring next (String.length text - next) text), [].
    simpl. unfold ret. rewrite app_nil_r. repeat split; [constructor | lia].
  - cbn [splice]. unfold bind at 1. unfold constantReplacer at 1.
    destruct (map_get constants (group (caps st) 1)) eqn:Eget.
    + unfold ret at 1. unfold bind at 1.
      destruct (IH (p + (pos st - p))%nat errors)
        as [out [new [H [Hall Hlen]]]].
      rewrite H. eexists. exists new. unfold ret.
      repeat split; [exact Hall | simpl; lia].
    + unfold bind at 1, push_error at 1, ret at 1. unfold bind at 1.
      destruct (IH (p + (pos st - p))%nat
                   (errors ++ [("Undefined constant "
                                ++ group (caps st) 1)%string])%list)
        as [out [new [H [Hall Hlen]]]].
      rewrite H. eexists.
      exists (("Undefined constant " ++ group (caps st) 1) :: new).
      unfold ret. rewrite <- app_assoc. simpl.
      repeat split; [|lia].
      constructor; [|exact Hall].
      exists (group (caps st) 1). now split.
Qed.

(** ** Patterns anchored at both ends *)

Lemma strip_prefix_app (p s r : string) :
  strip_prefix p s = Some r -> s = p ++ r.
Proof.
  revert s. induction p as [|a p IH]; intros s H; simpl in *.
  - now injection H as ->.
  - destruct s as [|b s]; [discriminate|].
    destruct (Ascii.eqb a b) eqn:E; [|discriminate].
    apply Ascii.eqb_eq in E. subst b. now rewrite (IH _ H).
Qed.

Lemma strip_prefix_self (p r : string) : strip_prefix p (p ++ r) = Some r.
Proof.
  induction p as [|a p IH]; simpl; [reflexivity|].
  now rewrite Ascii.eqb_refl.
Qed.

(** A pattern that starts with [^] matches at the start of the text or
    nowhere. *)
Lemma search_from_Start (r : regex) (s : string) :
  forall c p, search_from (Seq Start r) (Some c) p s = None.
Proof.
  induction s as [|d s IH]; intros c p; simpl; [reflexivity | apply IH].
Qed.

Lemma test_Start (r : regex) (s : string) :
  test (Seq Start r) s
  = match match_here (Seq Start r) None 0 s with
    | Some _ => true
    | None => false
    end.
Proof.
  unfold test, search. destruct s as [|c s]; simpl.
  - now destruct (match_here (Seq Start r) None 0 "").
  - destruct (match_here (Seq Start r) None 0 (String c s)); [reflexivity|].
    now rewrite search_from_Start.
Qed.

Lemma mstate_eta (st : mstate) :
  MState (prev st) (pos st + 0) (rest st) (caps st) = st.
Proof. destruct st; simpl. now rewrite Nat.add_0_r. Qed.

Lemma eqb_succ (n : nat) : Nat.eqb (S n) n = false.
Proof. apply Nat.eqb_neq. lia. Qed.

(** Where a greedy repetition of a class succeeds, it has read some
    characters of the class, at least as many as it must, and what
    follows the repetition has succeeded from there. *)
Lemma iterate_class_sound (p : ascii -> bool) :
  forall fuel lo st k r,
    iterate (rmatch (Cls p)) true lo None fuel st k = Some r ->
    exists w t pv,
      rest st = w ++ t /\ all_chars p w = true
      /\ (lo <= String.length w)%nat
      /\ k (MState pv (pos st + String.length w) t (caps st)) = Some r.
Proof.
  induction fuel as [|fuel IH]; intros lo st k r H; [discriminate|].
  assert (match lo with O => k st | S _ => None end = Some r ->
          exists w t pv,
            rest st = w ++ t /\ all_chars p w = true
            /\ (lo <= String.length w)%nat
            /\ k (MState pv (pos st + String.length w) t (caps st)) = Some r)
    as Hstop.
  { intros Hk. destruct lo; [|discriminate].
    exists "", (rest st), (prev st). simpl.
    rewrite mstate_eta. repeat split; [lia | exact Hk]. }
  cbn [iterate rmatch] in H.
  destruct (rest st) as [|c t0] eqn:Erest; [now apply Hstop|].
  destruct (p c) eqn:Epc; [|now apply Hstop].
  cbn [pos option_map] in H. rewrite eqb_succ in H. cbn [andb] in H.
  match type of H with
  | match ?it with _ => _ end = _ => destruct it as [r'|] eqn:Eit
  end; [|now apply Hstop].
  injection H as ->.
  apply IH in Eit. destruct Eit as [w [t [pv [Hr [Hall [Hlo Hk]]]]]].
  cbn [rest pos caps] in *.
  exists (String c w), t, pv. simpl. rewrite Hr, Epc, Hall.
  repeat split; [lia|].
  now rewrite Nat.add_succ_r.
Qed.

(** The other way round: when the text goes on with characters of the
    class up to a character that is not of the class, the repetition
    reads them all, and succeeds if what follows the repetition does. *)
Lemma iterate_class_complete (p : ascii -> bool) (w : string) :
  all_chars p w = true ->
  forall t fuel lo st k r,
    match t with String c _ => p c = false | EmptyString => True end ->
    rest st = w ++ t ->
    (lo <= String.length w)%nat ->
    (String.length w < fuel)%nat ->
    k (MState (last_of (prev st) w) (pos st + String.length w) t (caps st))
    = Some r ->
    iterate (rmatch (Cls p)) true lo None fuel st k = Some r.
Proof.
  induction w as [|c w IH]; intros Hall t fuel lo st k r Ht Hrest Hlo Hfuel Hk.
  - destruct fuel as [|fuel]; [simpl in Hfuel; lia|].
    simpl in Hlo, Hrest, Hk. assert (lo = 0%nat) as -> by lia.
    rewrite <- Hrest, mstate_eta in Hk.
    cbn [iterate rmatch]. rewrite Hrest.
    destruct t as [|d t]; [exact Hk|]. now rewrite Ht.
  - destruct fuel as [|fuel]; [simpl in Hfuel; lia|].
    simpl in Hall. apply andb_prop in Hall. destruct Hall as [Hpc Hall].
    cbn [iterate rmatch]. rewrite Hrest. cbn [append]. rewrite Hpc.
    cbn [pos option_map]. rewrite eqb_succ. cbn [andb].
    rewrite (IH Hall t fuel (Nat.pred lo) _ k r Ht); try reflexivity.
    + simpl in Hlo. simpl. lia.
    + simpl in Hfuel. lia.
    + cbn [prev pos caps]. simpl in Hk.
      now rewrite Nat.add_succ_r in Hk.
Qed.

Lemma length_zero_empty (s : string) : String.length s = 0%nat -> s = "".
Proof. destruct s; [reflexivity | discriminate]. Qed.

(** The names that [filenameRegex] accepts. *)
Lemma filenameRegex_names (filename : string) :
  test filenameRegex filename = true <-> shaderFileName filename.
Proof.
  unfold filenameRegex. cbn [sequence]. rewrite test_Start.
  unfold match_here. cbn [rmatch prev rest plus].
  split.
  - intros H.
    match type of H with
    | match ?it with _ => _ end = _ => destruct it as [r|] eqn:Eit
    end; [|discriminate].
    apply iterate_class_sound in Eit.
    destruct Eit as [w [t [pv [Hr [Hall [Hlo Hk]]]]]].
    cbn [rest pos caps rmatch] in Hr, Hk.
    destruct (strip_prefix ".glsl" t) as [rest'|] eqn:Es; [|discriminate].
    cbn [rest] in Hk. destruct rest'; [|discriminate].
    apply strip_prefix_app in Es. subst t.
    exists w. repeat split; [exact Hr | | exact Hall].
    intros ->. simpl in Hlo. lia.
  - intros [w [-> [Hne Hall]]].
    erewrite (iterate_class_complete _ w Hall ".glsl"); try reflexivity.
    + destruct w; [contradiction | simpl; lia].
    + cbn [rest]. rewrite PreprocessorTheory.append_length. simpl. lia.
Qed.

(** X3. [readfileSync] looks into the folder of include files for the
    names made of one or more characters of [[a-zA-Z0-9_-]] followed by
    [.glsl], and for these only: for every other name it throws
    [FileNotFoundError], whatever the folder holds. *)
Theorem readfileSync_file_names (env : Env) (filename : string) :
  (shaderFileName filename
   /\ readfileSync env filename
      = match includeFolder env filename with
        | Some contents => Ok contents
        | None => Throw (ModuleNotFound ("./shaders/include/" ++ filename))
        end)
  \/ (~ shaderFileName filename
      /\ readfileSync env filename
         = Throw (FileNotFoundError
                    ("Shader preprocessor: can't read file " ++ dquote
                     ++ filename ++ dquote))).
Proof.
  unfold readfileSync.
  destruct (test filenameRegex filename) eqn:E.
  - left. split; [now apply filenameRegex_names | reflexivity].
  - right. split; [|reflexivity].
    intros H. apply filenameRegex_names in H. congruence.
Qed.

Lemma some_char_app (p : ascii -> bool) (s t : string) :
  some_char p (s ++ t) = some_char p s || some_char p t.
Proof.
  induction s as [|c s IH]; simpl; [reflexivity|].
  now rewrite IH, orb_assoc.
Qed.

Lemma all_chars_none (p q : ascii -> bool) (s : string) :
  (forall c, p c = true -> q c = false) ->
  all_chars p s = true -> some_char q s = false.
Proof.
  intros Hpq. induction s as [|c s IH]; simpl; intros H; [reflexivity|].
  apply andb_prop in H. destruct H as [Hc Hs].
  now rewrite (Hpq _ Hc), IH.
Qed.

Lemma filenameChar_cases (c : ascii) :
  filenameChar c = true ->
  (in_range 97 122 c || in_range 65 90 c || in_range 48 57 c) = true
  \/ c = "_"%char \/ c = "-"%char.
Proof.
  unfold filenameChar. intros H.
  apply orb_prop in H. destruct H as [H|H]; [|right; right].
  - apply orb_prop in H. destruct H as [H|H]; [now left | right; left].
    now apply Ascii.eqb_eq.
  - now apply Ascii.eqb_eq.
Qed.

Lemma in_range_code (lo hi : N) (c : ascii) :
  in_range lo hi c = true -> (lo <= N_of_ascii c <= hi)%N.
Proof.
  unfold in_range, code. intros H. apply andb_prop in H.
  destruct H as [H1 H2]. apply N.leb_le in H1, H2. lia.
Qed.

Lemma separator_code (c : ascii) :
  separator c = true -> N_of_ascii c = 47%N \/ N_of_ascii c = 92%N.
Proof.
  unfold separator. intros H. apply orb_prop in H.
  destruct H as [H|H]; apply Ascii.eqb_eq in H; subst c; [left | right];
    reflexivity.
Qed.

Lemma filenameChar_not_separator (c : ascii) :
  filenameChar c = true -> separator c = false.
Proof.
  intros H. destruct (separator c) eqn:Es; [|reflexivity].
  apply separator_code in Es.
  apply filenameChar_cases in H. destruct H as [H|[->| ->]].
  - apply orb_prop in H. destruct H as [H|H].
    + apply orb_prop in H. destruct H as [H|H];
        apply in_range_code in H; lia.
    + apply in_range_code in H; lia.
  - simpl in Es. lia.
  - simpl in Es. lia.
Qed.

(** X4. A name with a slash or a backslash in it never reaches the
    folder of include files: [readfileSync] throws [FileNotFoundError]. *)
Theorem readfileSync_no_path (env : Env) (filename : string) :
  some_char separator filename = true ->
  readfileSync env filename
  = Throw (FileNotFoundError
             ("Shader preprocessor: can't read file " ++ dquote
              ++ filename ++ dquote)).
Proof.
  intros Hsep. unfold readfileSync.
  destruct (test filenameRegex filename) eqn:E; [|reflexivity].
  apply filenameRegex_names in E. destruct E as [w [-> [_ Hall]]].
  rewrite some_char_app in Hsep.
  rewrite (all_chars_none filenameChar separator w
             filenameChar_not_separator Hall) in Hsep.
  discriminate.
Qed.

Lemma readfileSync_no_path_witness :
  readfileSync exampleEnv "../f1.glsl"
  = Throw (FileNotFoundError
             ("Shader preprocessor: can't read file " ++ dquote
              ++ "../f1.glsl" ++ dquote)).
Proof. apply readfileSync_no_path. reflexivity. Defined.

(** ** Loops *)




(** ** Includes *)

Lemma splice_diverges (f : string -> captures -> M string) (text : string)
      (next p : nat) (st : mstate) (ms : list (nat * mstate))
      (errors : list string) :
  f (substring p (pos st - p) text) (caps st) errors = Diverge ->
  splice f text next ((p, st) :: ms) errors = Diverge.
Proof. intros H. cbn [splice]. unfold bind at 1. now rewrite H. Qed.

(** A pattern that starts with a literal character finds nothing in a
    text without that character. *)
Lemma search_from_absent (c0 : ascii) (s' : string) (r : regex)
      (text : string) :
  some_char (Ascii.eqb c0) text = false ->
  forall pv p, search_from (Seq (Lit (String c0 s')) r) pv p text = None.
Proof.
  induction text as [|c text IH]; intros H pv p.
  - reflexivity.
  - simpl in H. apply orb_false_iff in H. destruct H as [Hc Ht].
    cbn [search_from match_here rmatch rest strip_prefix].
    rewrite Hc. now apply IH.
Qed.

Lemma test_absent (c0 : ascii) (s' : string) (r : regex) (text : string) :
  some_char (Ascii.eqb c0) text = false ->
  test (Seq (Lit (String c0 s')) r) text = false.
Proof.
  intros H. unfold test, search. now rewrite search_from_absent.
Qed.

Lemma some_char_suffix (p : ascii -> bool) (s t : string) :
  some_char p (s ++ t) = false -> some_char p t = false.
Proof.
  rewrite some_char_app. intros H. now apply orb_false_iff in H.
Qed.

(** [@NAME@] takes two [@]. *)
Lemma constantRegex_needs_two (text : string) :
  some_char (Ascii.eqb "@") text = false ->
  test constantRegex (String "@" text) = false.
Proof.
  intros H. unfold test, search, constantRegex. cbn [sequence].
  cbn [search_from]. rewrite (search_from_absent "@" "" _ text H).
  unfold match_here. cbn [rmatch rest strip_prefix].
  change (Ascii.eqb "@" "@") with true. cbn iota. cbn [plus rmatch rest].
  match goal with
  | |- context [iterate ?f ?g ?lo ?hi ?fuel ?st ?k] =>
      destruct (iterate f g lo hi fuel st k) as [res|] eqn:E
  end; [|reflexivity].
  apply iterate_class_sound in E.
  destruct E as [w [t [pv [Hr [_ [_ Hk]]]]]].
  cbn [rest pos caps prev strip_prefix] in Hr, Hk.
  rewrite Hr in H. apply some_char_suffix in H.
  destruct t as [|c t]; [discriminate|].
  cbn [some_char] in H. apply orb_false_iff in H. destruct H as [Hc _].
  rewrite Hc in Hk. discriminate.
Qed.

(** A lazy repetition of a class goes on as long as what follows it
    fails, and what follows it fails in front of a character that is not
    the one it wants. *)
Lemma iterate_lazy_until (p q : ascii -> bool) (w : string) :
  all_chars (fun c => p c && negb (q c)) w = true ->
  forall t fuel st k r,
    rest st = w ++ t ->
    (String.length w < fuel)%nat ->
    (forall st', match rest st' with
                 | String c _ => q c = false
                 | EmptyString => True
                 end -> k st' = None) ->
    k (MState (last_of (prev st) w) (pos st + String.length w) t (caps st))
    = Some r ->
    iterate (rmatch (Cls p)) false 0 None fuel st k = Some r.
Proof.
  induction w as [|c w IH]; intros Hall t fuel st k r Hrest Hfuel Hfail Hk.
  - destruct fuel as [|fuel]; [simpl in Hfuel; lia|].
    simpl in Hrest, Hk. rewrite <- Hrest, mstate_eta in Hk.
    cbn [iterate]. now rewrite Hk.
  - destruct fuel as [|fuel]; [simpl in Hfuel; lia|].
    simpl in Hall. apply andb_prop in Hall. destruct Hall as [Hc Hall].
    apply andb_prop in Hc. destruct Hc as [Hpc Hqc].
    apply negb_true_iff in Hqc.
    cbn [iterate rmatch].
    rewrite (Hfail st) by (rewrite Hrest; exact Hqc).
    rewrite Hrest. cbn [append]. rewrite Hpc.
    cbn [pos option_map Nat.pred]. rewrite eqb_succ. cbn [andb].
    apply (IH Hall t fuel _ k r); try reflexivity.
    + simpl in Hfuel. lia.
    + exact Hfail.
    + cbn [prev pos caps]. simpl in Hk.
      now rewrite Nat.add_succ_r in Hk.
Qed.

Lemma take_app (s t : string) : take (String.length s) (s ++ t) = s.
Proof. induction s as [|c s IH]; simpl; [now destruct t | now rewrite IH]. Qed.

(** The characters of a file name: none of them ends a line, none is a
    double quote. *)
Lemma filenameChar_code (c : ascii) :
  filenameChar c = true ->
  (97 <= N_of_ascii c <= 122 \/ 65 <= N_of_ascii c <= 90
   \/ 48 <= N_of_ascii c <= 57 \/ N_of_ascii c = 95 \/ N_of_ascii c = 45)%N.
Proof.
  intros H. apply filenameChar_cases in H. destruct H as [H|[->| ->]].
  - apply orb_prop in H. destruct H as [H|H].
    + apply orb_prop in H. destruct H as [H|H];
        apply in_range_code in H; lia.
    + apply in_range_code in H; lia.
  - right. right. right. left. reflexivity.
  - right. right. right. right. reflexivity.
Qed.

Lemma eqb_code (c d : ascii) :
  N_of_ascii c <> N_of_ascii d -> Ascii.eqb d c = false.
Proof.
  intros H. apply Ascii.eqb_neq. intros ->. now apply H.
Qed.

Lemma filenameChar_plain (c : ascii) :
  filenameChar c = true ->
  is_dot c = true /\ isQuote c = false
  /\ Ascii.eqb "/" c = false /\ Ascii.eqb "@" c = false.
Proof.
  intros H. apply filenameChar_code in H.
  unfold is_dot, is_line_terminator, isQuote, code.
  repeat split.
  - apply negb_true_iff, orb_false_iff. split; apply N.eqb_neq; lia.
  - rewrite Ascii.eqb_sym. apply eqb_code. simpl. lia.
  - apply eqb_code. simpl. lia.
  - apply eqb_code. simpl. lia.
Qed.

Lemma all_chars_app (p : ascii -> bool) (s t : string) :
  all_chars p (s ++ t) = all_chars p s && all_chars p t.
Proof.
  induction s as [|c s IH]; simpl; [reflexivity|].
  now rewrite IH, andb_assoc.
Qed.

Lemma all_chars_weaken (p q : ascii -> bool) (s : string) :
  (forall c, p c = true -> q c = true) ->
  all_chars p s = true -> all_chars q s = true.
Proof.
  intros Hpq. induction s as [|c s IH]; simpl; intros H; [reflexivity|].
  apply andb_prop in H. destruct H as [Hc Hs].
  now rewrite (Hpq _ Hc), IH.
Qed.

(** What the name of a shader file is made of. *)
Lemma shaderFileName_chars (filename : string) :
  shaderFileName filename ->
  all_chars (fun c => is_dot c && negb (isQuote c)) filename = true
  /\ some_char (Ascii.eqb "/") filename = false
  /\ some_char (Ascii.eqb "@") filename = false.
Proof.
  intros [w [-> [_ Hall]]].
  rewrite all_chars_app, !some_char_app.
  rewrite (all_chars_weaken filenameChar _ w) by
    (intros c Hc; destruct (filenameChar_plain c Hc) as [-> [-> _]];
     reflexivity) || exact Hall.
  rewrite (all_chars_none filenameChar (Ascii.eqb "/") w)
    by (first [ intros c Hc; apply (filenameChar_plain c Hc) | exact Hall ]).
  rewrite (all_chars_none filenameChar (Ascii.eqb "@") w)
    by (first [ intros c Hc; apply (filenameChar_plain c Hc) | exact Hall ]).
  repeat split.
Qed.

(** ** Matching piece by piece *)

Lemma rmatch_Seq (r1 r2 : regex) (st : mstate) (k : cont) :
  rmatch (Seq r1 r2) st k = rmatch r1 st (fun st' => rmatch r2 st' k).
Proof. reflexivity. Qed.

Lemma rmatch_Bol_start (st : mstate) (k : cont) :
  prev st = None -> rmatch Bol st k = k st.
Proof. intros H. cbn [rmatch]. now rewrite H. Qed.

Lemma rmatch_Lit (s rest' : string) (st : mstate) (k : cont) :
  strip_prefix s (rest st) = Some rest' ->
  rmatch (Lit s) st k
  = k (MState (last_of (prev st) s) (pos st + String.length s) rest'
              (caps st)).
Proof. intros H. cbn [rmatch]. now rewrite H. Qed.

Lemma rmatch_Group (n : nat) (r : regex) (st : mstate) (k : cont) :
  rmatch (Group n r) st k
  = rmatch r st (fun st' =>
      k (MState (prev st') (pos st') (rest st')
                ((n, take (pos st' - pos st) (rest st)) :: caps st'))).
Proof. reflexivity. Qed.

(** A greedy repetition in front of a character that is not of its
    class repeats no more. *)
Lemma iterate_class_none (p : ascii -> bool) (fuel : nat) (st : mstate)
      (k : cont) :
  match rest st with String c _ => p c = false | EmptyString => True end ->
  iterate (rmatch (Cls p)) true 0 None (S fuel) st k = k st.
Proof.
  intros H. cbn [iterate rmatch].
  destruct (rest st) as [|c t]; [|rewrite H]; now destruct (k st).
Qed.

Lemma rmatch_star_none (p : ascii -> bool) (st : mstate) (k : cont) :
  match rest st with String c _ => p c = false | EmptyString => True end ->
  rmatch (star (Cls p)) st k = k st.
Proof. intros H. unfold star. cbn [rmatch]. now apply iterate_class_none. Qed.

Lemma iterate_greedy_step (step : mstate -> cont -> option mstate)
      (lo fuel : nat) (st : mstate) (k : cont) :
  iterate step true lo None (S fuel) st k
  = match step st (fun st' =>
            if (Nat.eqb (pos st') (pos st) && Nat.eqb lo 0)%bool then None
            else iterate step true (Nat.pred lo) None fuel st' k) with
    | Some r => Some r
    | None => match lo with O => k st | S _ => None end
    end.
Proof. reflexivity. Qed.

Lemma rmatch_Cls (p : ascii -> bool) (st : mstate) (k : cont) (c : ascii)
      (t : string) :
  rest st = String c t ->
  p c = true ->
  rmatch (Cls p) st k = k (MState (Some c) (S (pos st)) t (caps st)).
Proof. intros Hrest Hc. cbn [rmatch]. now rewrite Hrest, Hc. Qed.

Lemma rmatch_plus_one (p : ascii -> bool) (st : mstate) (k : cont)
      (c : ascii) (t : string) :
  rest st = String c t ->
  p c = true ->
  match t with String d _ => p d = false | EmptyString => True end ->
  rmatch (plus (Cls p)) st k = k (MState (Some c) (S (pos st)) t (caps st)).
Proof.
  intros Hrest Hc Ht.
  change (rmatch (plus (Cls p)) st k)
    with (iterate (rmatch (Cls p)) true 1 None
                  (S (1 + String.length (rest st))) st k).
  rewrite iterate_greedy_step, (rmatch_Cls p st _ c t Hrest Hc).
  cbn [pos Nat.pred Nat.add]. rewrite eqb_succ. cbn [andb].
  rewrite iterate_class_none by exact Ht.
  now destruct (k _).
Qed.

Lemma rmatch_lazy_until (p q : ascii -> bool) (w t : string) (st : mstate)
      (k : cont) (r : mstate) :
  all_chars (fun c => p c && negb (q c)) w = true ->
  rest st = w ++ t ->
  (forall st', match rest st' with
               | String c _ => q c = false
               | EmptyString => True
               end -> k st' = None) ->
  k (MState (last_of (prev st) w) (pos st + String.length w) t (caps st))
  = Some r ->
  rmatch (lazy_star (Cls p)) st k = Some r.
Proof.
  intros Hall Hrest Hfail Hk. unfold lazy_star. cbn [rmatch].
  apply (iterate_lazy_until p q w Hall t); try assumption.
  rewrite Hrest, PreprocessorTheory.append_length. lia.
Qed.

Lemma strip_quote (s : string) :
  match s with String c _ => isQuote c = false | EmptyString => True end ->
  strip_prefix dquote s = None.
Proof.
  destruct s as [|c s]; intros H; [reflexivity|].
  unfold dquote. cbn [strip_prefix]. unfold isQuote in H.
  now rewrite Ascii.eqb_sym, H.
Qed.

(** The directive that includes a file is found at the start of a text
    that consists of it, its first group being the name of the file. *)
Lemma includeRegex_directive (filename : string) :
  all_chars (fun c => is_dot c && negb (isQuote c)) filename = true ->
  exists st,
    match_here includeRegex None 0 (includeOf filename) = Some st
    /\ group (caps st) 1 = filename.
Proof.
  intros Hall. unfold includeRegex, includeOf, match_here.
  cbn [sequence].
  rewrite rmatch_Seq, rmatch_Bol_start by reflexivity. cbv beta.
  rewrite rmatch_Seq. unfold sp.
  rewrite rmatch_star_none by exact (eq_refl false). cbv beta.
  rewrite rmatch_Seq.
  rewrite (rmatch_Lit "@" ("include " ++ dquote ++ filename ++ dquote))
    by reflexivity. cbv beta.
  rewrite rmatch_Seq.
  rewrite rmatch_star_none by exact (eq_refl false). cbv beta.
  rewrite rmatch_Seq.
  rewrite (rmatch_Lit "include" (" " ++ dquote ++ filename ++ dquote))
    by reflexivity. cbv beta.
  rewrite rmatch_Seq.
  rewrite (rmatch_plus_one is_space _ _ " " (dquote ++ filename ++ dquote))
    by first [ exact (eq_refl false) | reflexivity ]. cbv beta.
  rewrite rmatch_Seq.
  rewrite (rmatch_Lit dquote (filename ++ dquote)) by reflexivity. cbv beta.
  rewrite rmatch_Seq, rmatch_Group.
  eexists. split.
  - apply (rmatch_lazy_until is_dot isQuote filename dquote _ _ _ Hall).
    + reflexivity.
    + intros st' H. cbv beta. cbn [rmatch rest]. now rewrite strip_quote.
    + cbv beta. cbn [rest]. rewrite (rmatch_Lit dquote "") by reflexivity.
      reflexivity.
  - cbn [caps pos rest]. unfold group. cbn [capture Nat.eqb].
    rewrite Nat.add_comm, Nat.add_sub. apply take_app.
Qed.

(** A replacer that never returns on the first match: neither does the
    replacement. *)
Lemma replace_diverges (r : regex) (f : string -> captures -> M string)
      (text : string) (st : mstate) (errors : list string) :
  match_here r None 0 text = Some st ->
  f (substring 0 (pos st - 0) text) (caps st) errors = Diverge ->
  replace r f text errors = Diverge.
Proof.
  intros Hm Hf. unfold replace, find_all.
  destruct text as [|c text]; cbn [find_all_from]; rewrite Hm;
    now apply splice_diverges.
Qed.


(** X6. Nothing detects a cycle of includes. Preprocessing a text that
    includes a file which consists of the inclusion of itself calls
    [generateGLSL] on that file again and again: no depth of recursion
    is enough for it to return or throw. *)
Theorem include_cycle_never_ends (env : Env) (filename : string)
        (fuel : nat) :
  isInitialized env = true ->
  shaderFileName filename ->
  includeFolder env filename = Some (includeOf filename) ->
  generateGLSL fuel env [] (includeOf filename) None None = Diverge.
Proof.
  intros Hinit Hname Hfile.
  destruct (shaderFileName_chars filename Hname) as [Hplain [Hslash Hat]].
  destruct (includeRegex_directive filename Hplain) as [st [Hm Hg]].
  assert (some_char (Ascii.eqb "/") (includeOf filename) = false) as Hs.
  { unfold includeOf. rewrite !some_char_app, Hslash. reflexivity. }
  assert (test constantRegex (includeOf filename) = false) as Hc.
  { apply (constantRegex_needs_two
             ("include " ++ dquote ++ filename ++ dquote)).
    rewrite !some_char_app, Hat. reflexivity. }
  induction fuel as [|fuel IH]; [reflexivity|].
  cbn [generateGLSL]. unfold generateConstants. rewrite Hinit. cbn [negb].
  change (generateUnprocessedGLSL [] (includeOf filename) None None)
    with (includeOf filename).
  unfold bind at 1.
  rewrite PreprocessorTheory.replace_no_match
    by (apply (test_absent "/" "*"), Hs).
  unfold ret at 1. cbn beta iota. unfold bind at 1.
  rewrite PreprocessorTheory.replace_no_match
    by (apply (test_absent "/" "/"), Hs).
  unfold ret at 1. cbn beta iota. unfold bind at 1.
  rewrite PreprocessorTheory.replace_no_match by exact Hc.
  unfold ret at 1. cbn beta iota. unfold bind at 1.
  rewrite (replace_diverges _ _ _ st); [reflexivity | exact Hm |].
  rewrite Hg. unfold readfileSync.
  rewrite (proj2 (filenameRegex_names filename) Hname).
  now rewrite Hfile, IH.
Qed.

Lemma include_cycle_never_ends_witness :
  generateGLSL 1000 exampleEnv [] (includeOf "loop.glsl") None None = Diverge.
Proof.
  apply include_cycle_never_ends; try reflexivity.
  exists "loop". repeat split. discriminate.
Defined.

End PreprocessorLaws.
(* ===================================================================== *)
(** * More on the pipeline ports: names, specifications, the one message
      of a port, pulling *)
(* ===================================================================== *)

Module PortLaws.
Import Str Regex Pipeline Names.
Local Open Scope nat_scope.

(** The names that [ACCEPTABLE_PORT_NAME] accepts. *)
Lemma ACCEPTABLE_PORT_NAME_names (name : string) :
  test ACCEPTABLE_PORT_NAME name = true <-> portName name.
Proof.
  unfold ACCEPTABLE_PORT_NAME. cbn [sequence].
  rewrite PreprocessorLaws.test_Start.
  unfold match_here. cbn [rmatch prev rest star].
  split.
  - intros H. destruct name as [|c name]; [discriminate|].
    destruct (in_range 97 122 c) eqn:Ec; [|discriminate].
    match type of H with
    | match ?it with _ => _ end = _ => destruct it as [r|] eqn:Eit
    end; [|discriminate].
    apply PreprocessorLaws.iterate_class_sound in Eit.
    destruct Eit as [w [t [pv [Hr [Hall [_ Hk]]]]]].
    cbn [rest pos caps rmatch] in Hr, Hk.
    destruct t; [|discriminate].
    rewrite PreprocessorTheory.append_nil_r in Hr. subst w.
    exists c, name. repeat split; assumption.
  - intros [c [w [-> [Hc Hall]]]]. unfold lowerCase in Hc. rewrite Hc.
    erewrite (PreprocessorLaws.iterate_class_complete _ w Hall "");
      try reflexivity; try exact I; cbn [rest];
      try (now rewrite PreprocessorTheory.append_nil_r); simpl; lia.
Qed.

Section PortLaws.

Variable Payload : Type.

Let Heap : Type := Pipeline.Heap Payload.
Let Port_ : Type := SpeedyPipelinePort Payload.
Let Message_ : Type := SpeedyPipelineMessage Payload.

(** X7. A port is constructed for the names made of a lower-case letter
    followed by letters and digits, and for these only: the new port
    holds the empty message and has no link. For every other name the
    constructor fails its assertion. *)
Theorem newPort_names (c : PortClass) (h : Heap) (name : string)
        (spec : SpeedyPipelinePortSpec Payload) (node : nat) :
  (portName name
   /\ newPort c h name spec node
      = ((h ++ [Port c name spec node EMPTY_MESSAGE None])%list,
         Return (List.length h)))
  \/ (~ portName name
      /\ newPort c h name spec node = (h, Throw AssertionError)).
Proof.
  unfold newPort. cbn [_name].
  destruct (test ACCEPTABLE_PORT_NAME name) eqn:E.
  - left. split; [now apply ACCEPTABLE_PORT_NAME_names | reflexivity].
  - right. split; [|reflexivity].
    intros H. apply ACCEPTABLE_PORT_NAME_names in H. congruence.
Qed.

(** X8. No specification that the constructor makes accepts an empty
    message, whatever its constraint says. *)
Theorem constructed_spec_refuses_empty
        (expectedMessageType : SpeedyPipelineMessageType)
        (messageConstraint : option (SpeedyPipelineMessageConstraint Payload))
        (spec : SpeedyPipelinePortSpec Payload) (m : Message_) :
  newPortSpec expectedMessageType messageConstraint = Return spec ->
  isEmpty m = true ->
  accepts spec m = false.
Proof.
  unfold newPortSpec. cbn [_expectedMessageType].
  destruct (type_eqb expectedMessageType Nothing) eqn:E; [discriminate|].
  intros H Hm. injection H as <-.
  unfold accepts, isEmpty, hasType in *. cbn [_expectedMessageType].
  apply (PipelineTheory.type_eqb_eq) in Hm. rewrite Hm.
  destruct expectedMessageType; try reflexivity. discriminate.
Qed.

(** X9. Ports of the same kind are not connected to each other, and a
    port is not connected to itself: [connectTo] throws and changes
    nothing. *)
Theorem connectTo_same_kind (h : Heap) (this port : ref) (p q : Port_) :
  deref h this = Some p ->
  deref h port = Some q ->
  class p = class q ->
  connectTo h this port = (h, Throw IllegalArgumentError).
Proof.
  intros Hp Hq Hc.
  unfold connectTo, InputPort_connectTo, isOutputPort, isInputPort.
  rewrite Hp, Hq, <- Hc. now destruct (class p).
Qed.

(** X10. An output port holds one message. A message that is written
    takes the place of the one before; a message that is refused leaves
    the one before in place. No other port is touched. *)
Theorem write_keeps_one_message (h : Heap) (this : ref) (q : Port_)
        (m1 m2 : Message_) :
  deref h this = Some q ->
  class q = OutputPort ->
  accepts (_spec q) m1 = true ->
  let h1 := fst (write h this m1) in
  let h2 := fst (write h1 this m2) in
  messageOf h2 this = Some (if accepts (_spec q) m2 then m2 else m1)
  /\ snd (write h1 this m2)
     = (if accepts (_spec q) m2 then Return tt
        else Throw IllegalArgumentError)
  /\ forall r, r <> this -> deref h2 r = deref h r.
Proof.
  intros Hq Hout H1 h1 h2.
  assert (h1 = assign h this
                 (Port (class q) (_name q) (_spec q) (_node q) m1
                       (_incomingLink q))) as Eh1.
  { unfold h1, write. now rewrite Hq, Hout, H1. }
  assert (deref h1 this
          = Some (Port (class q) (_name q) (_spec q) (_node q) m1
                       (_incomingLink q))) as Hd1.
  { rewrite Eh1. apply (PipelineTheory.deref_assign_same _ _ _ _ _ Hq). }
  unfold h2, write. rewrite Hd1. cbn [class _spec]. rewrite Hout.
  destruct (accepts (_spec q) m2); cbn [negb fst snd].
  - repeat split.
    + unfold messageOf.
      now rewrite (PipelineTheory.deref_assign_same _ _ _ _ _ Hd1).
    + intros r Hr. rewrite PipelineTheory.deref_assign_other by congruence.
      rewrite Eh1. apply PipelineTheory.deref_assign_other. congruence.
  - repeat split.
    + unfold messageOf. now rewrite Hd1.
    + intros r Hr. rewrite Eh1.
      apply PipelineTheory.deref_assign_other. congruence.
Qed.

(** X11. An input port pulls nothing when it has no link, when it has
    been disconnected, and when the port at the other end of the link
    holds no message: [pullMessage] throws [IllegalOperationError], and
    the port holds what it held before. *)
Theorem pullMessage_needs_link_and_message (h : Heap) (this : ref)
        (p : Port_) :
  deref h this = Some p ->
  class p = InputPort ->
  (_incomingLink p = None ->
   pullMessage h this = (h, Throw IllegalOperationError))
  /\ (forall link q,
        _incomingLink p = Some link ->
        deref h link = Some q ->
        isEmpty (_message q) = true ->
        pullMessage h this = (h, Throw IllegalOperationError))
  /\ (let h' := fst (disconnect h this) in
      pullMessage h' this = (h', Throw IllegalOperationError)
      /\ messageOf h' this = Some (_message p)).
Proof.
  intros Hp Hin. split; [|split].
  - intros Hl. unfold pullMessage. now rewrite Hp, Hin, Hl.
  - intros link q Hl Hq He. unfold pullMessage, read.
    now rewrite Hp, Hin, Hl, Hq, He.
  - unfold disconnect. rewrite Hp, Hin. cbn [fst].
    unfold pullMessage, messageOf.
    rewrite (PipelineTheory.deref_assign_same _ _ _ _ _ Hp).
    split; reflexivity.
Qed.

(** X12. What an input port has pulled is its own: clearing the output
    port at the other end of the link afterwards empties that port and
    leaves the input port with the message, until a later pull, which
    then fails. *)
Theorem pulled_message_survives_clear (h : Heap) (this link : ref)
        (p q : Port_) :
  deref h this = Some p ->
  class p = InputPort ->
  _incomingLink p = Some link ->
  deref h link = Some q ->
  class q = OutputPort ->
  isEmpty (_message q) = false ->
  accepts (_spec p) (_message q) = true ->
  let h1 := fst (pullMessage h this) in
  let h2 := fst (clearMessage h1 link) in
  snd (pullMessage h this) = Return (_message q)
  /\ read h2 this = (h2, Return (_message q))
  /\ read h2 link = (h2, Throw IllegalOperationError)
  /\ pullMessage h2 this = (h2, Throw IllegalOperationError).
Proof.
  intros Hp Hin Hl Hq Hout Hne Hacc h1 h2.
  assert (this <> link) as Hdiff by (intros ->; congruence).
  set (p' := Port (class p) (_name p) (_spec p) (_node p) (_message q)
                  (_incomingLink p)).
  assert (pullMessage h this = (assign h this p', Return (_message q)))
    as Hpull.
  { unfold pullMessage, read, p'. now rewrite Hp, Hin, Hl, Hq, Hne, Hacc. }
  assert (h1 = assign h this p') as Eh1 by (unfold h1; now rewrite Hpull).
  assert (deref h1 link = Some q) as Hq1.
  { rewrite Eh1, PipelineTheory.deref_assign_other; assumption. }
  assert (deref h1 this = Some p') as Hp1.
  { rewrite Eh1. apply (PipelineTheory.deref_assign_same _ _ _ _ _ Hp). }
  set (q' := Port (class q) (_name q) (_spec q) (_node q) EMPTY_MESSAGE
                  (_incomingLink q)).
  assert (h2 = assign h1 link q') as Eh2.
  { unfold h2, clearMessage. now rewrite Hq1. }
  assert (deref h2 link = Some q') as Hq2.
  { rewrite Eh2. apply (PipelineTheory.deref_assign_same _ _ _ _ _ Hq1). }
  assert (deref h2 this = Some p') as Hp2.
  { rewrite Eh2, PipelineTheory.deref_assign_other; [assumption|].
    congruence. }
  split; [now rewrite Hpull|].
  unfold pullMessage, read. rewrite Hp2, Hq2.
  cbn [p' q' class _message _incomingLink]. rewrite Hin, Hl, Hq2.
  cbn [_message]. rewrite Hne.
  repeat split.
Qed.

(** X29. An input port has one incoming link at most: connecting it
    again, to another output port of the same message tag, puts that
    port in the place of the first, and [disconnect] leaves it with no
    link at all. *)
Theorem connectTo_replaces_link (h : Heap) (this port1 port2 : ref)
        (p q1 q2 : Port_) :
  deref h this = Some p ->
  class p = InputPort ->
  deref h port1 = Some q1 ->
  class q1 = OutputPort ->
  deref h port2 = Some q2 ->
  class q2 = OutputPort ->
  tag p = tag q1 ->
  tag p = tag q2 ->
  let h1 := fst (connectTo h this port1) in
  let h2 := fst (connectTo h1 this port2) in
  incomingLink h1 this = Some port1
  /\ snd (connectTo h1 this port2) = Return tt
  /\ incomingLink h2 this = Some port2
  /\ incomingLink (fst (disconnect h2 this)) this = None.
Proof.
  intros Hp Hin Hq1 Hout1 Hq2 Hout2 Ht1 Ht2 h1 h2.
  assert (this <> port1) as Hd1 by (intros ->; congruence).
  assert (this <> port2) as Hd2 by (intros ->; congruence).
  assert (forall (h0 : Heap) (p0 q0 : Port_) (port : ref),
            deref h0 this = Some p0 -> class p0 = InputPort ->
            deref h0 port = Some q0 -> class q0 = OutputPort ->
            tag p0 = tag q0 ->
            connectTo h0 this port
            = (assign h0 this
                 (Port (class p0) (_name p0) (_spec p0) (_node p0)
                       (_message p0) (Some port)), Return tt)) as Hconnect.
  { intros h0 p0 q0 port H1 H2 H3 H4 H5.
    unfold connectTo, InputPort_connectTo, isCompatibleWith, isOutputPort,
      isInputPort. rewrite H1, H3, H2, H4. cbn [negb].
    unfold tag in H5. rewrite H5.
    now rewrite (proj2 (PipelineTheory.type_eqb_eq _ _) eq_refl). }
  set (p1 := Port (class p) (_name p) (_spec p) (_node p) (_message p)
                  (Some port1)).
  assert (h1 = assign h this p1) as Eh1.
  { unfold h1. now rewrite (Hconnect h p q1 port1). }
  assert (deref h1 this = Some p1) as Hp1.
  { rewrite Eh1. apply (PipelineTheory.deref_assign_same _ _ _ _ _ Hp). }
  assert (deref h1 port2 = Some q2) as Hq2'.
  { rewrite Eh1, PipelineTheory.deref_assign_other; assumption. }
  set (p2 := Port (class p1) (_name p1) (_spec p1) (_node p1) (_message p1)
                  (Some port2)).
  assert (connectTo h1 this port2 = (assign h1 this p2, Return tt)) as E2.
  { apply (Hconnect h1 p1 q2 port2); try assumption. }
  assert (deref (assign h1 this p2) this = Some p2) as Hp2.
  { apply (PipelineTheory.deref_assign_same _ _ _ _ _ Hp1). }
  unfold h2. rewrite E2. cbn [fst snd].
  unfold incomingLink, disconnect. rewrite Hp1, Hp2.
  cbn [p1 p2 class _incomingLink]. rewrite Hin. cbn [fst].
  rewrite (PipelineTheory.deref_assign_same _ _ _ _ _ Hp2).
  repeat split.
Qed.

End PortLaws.

Lemma connectTo_replaces_link_witness :
  incomingLink (fst (connectTo (fst (connectTo PortExamples.twoSources 2 0))
                               2 1)) 2
  = Some 1.
Proof.
  refine (proj1 (proj2 (proj2
            (connectTo_replaces_link unit PortExamples.twoSources 2 0 1
               _ _ _ eq_refl eq_refl eq_refl eq_refl eq_refl eq_refl
               eq_refl eq_refl)))).
Defined.

Lemma constructed_spec_refuses_empty_witness :
  accepts (PortSpec Image refuseAll) (@EMPTY_MESSAGE unit) = false.
Proof.
  apply (constructed_spec_refuses_empty unit Image (Some refuseAll));
    reflexivity.
Defined.

Lemma connectTo_same_kind_witness :
  connectTo exampleHeap 0 0 = (exampleHeap, Throw IllegalArgumentError).
Proof.
  refine (connectTo_same_kind unit exampleHeap 0 0 _ _ eq_refl eq_refl
                              eq_refl).
Defined.

Lemma write_keeps_one_message_witness :
  messageOf (fst (write (fst (write exampleHeap 0 exampleImage)) 0
                        EMPTY_MESSAGE)) 0
  = Some exampleImage.
Proof.
  refine (proj1 (write_keeps_one_message unit exampleHeap 0 _ exampleImage
                   EMPTY_MESSAGE eq_refl eq_refl eq_refl)).
Defined.

Lemma pullMessage_needs_link_and_message_witness :
  pullMessage linkedHeap 1 = (linkedHeap, Throw IllegalOperationError).
Proof.
  refine (proj1 (proj2 (pullMessage_needs_link_and_message unit linkedHeap 1
                          _ eq_refl eq_refl))
                0 _ eq_refl eq_refl eq_refl).
Defined.

Lemma pulled_message_survives_clear_witness :
  snd (pullMessage PortExamples.readyHeap 1) = Return exampleImage.
Proof.
  refine (proj1 (pulled_message_survives_clear unit PortExamples.readyHeap
                   1 0 _ _ eq_refl eq_refl eq_refl eq_refl eq_refl eq_refl
                   eq_refl)).
Defined.

End PortLaws.
(* ===================================================================== *)
(** * More on the keypoint records: addresses, the position and its bytes *)
(* ===================================================================== *)

Module KeypointLaws.
Import Keypoints KeypointAddressing.
Local Open Scope Z_scope.

Lemma wrap_small (z : Z) : - 2 ^ 31 <= z < 2 ^ 31 -> wrap z = z.
Proof.
  intros H. unfold wrap. rewrite Z.mod_small; lia.
Qed.

(** ** Addresses *)

(** X13. The address that [findKeypointAddress] gives for a thread of
    the encoder texture is the address of the pixel of that thread: base
    and offset add up to the raster index of the thread, the offset is
    below the number of pixels of a record, the base is where the record
    of index [findKeypointIndex] starts, and [readKeypointData] at the
    address reads the pixel of the thread. *)
Theorem findKeypointAddress_of_thread
        (MIN_KEYPOINT_SIZE descriptorSize extraSize : Z)
        (encodedKeypoints : sampler2D)
        (thread_x thread_y encoderLength : Z) :
  0 <= MIN_KEYPOINT_SIZE -> 0 <= descriptorSize -> 0 <= extraSize ->
  4 <= MIN_KEYPOINT_SIZE + descriptorSize + extraSize < 2 ^ 31 ->
  encoderLength * encoderLength < 2 ^ 31 ->
  0 <= thread_x < encoderLength ->
  0 <= thread_y < encoderLength ->
  let pixelsPerKeypoint :=
    (MIN_KEYPOINT_SIZE + descriptorSize + extraSize) / 4 in
  let address :=
    findKeypointAddress MIN_KEYPOINT_SIZE thread_x thread_y encoderLength
                        descriptorSize extraSize in
  let index :=
    findKeypointIndex MIN_KEYPOINT_SIZE address descriptorSize extraSize in
  base address + offset address = thread_y * encoderLength + thread_x
  /\ 0 <= offset address < pixelsPerKeypoint
  /\ base address = index * pixelsPerKeypoint
  /\ index = (thread_y * encoderLength + thread_x) / pixelsPerKeypoint
  /\ readKeypointData encodedKeypoints encoderLength address
     = pixelAt encodedKeypoints thread_x thread_y.
Proof.
  intros Hm Hd He Hsize Hlen Hx Hy. cbv zeta.
  assert (0 <= thread_y * encoderLength) as Hrow by nia.
  assert (thread_y * encoderLength <= (encoderLength - 1) * encoderLength)
    as Hlast by (apply Z.mul_le_mono_nonneg_r; lia).
  assert (thread_y * encoderLength + thread_x < encoderLength * encoderLength)
    as Hraster by lia.
  remember (thread_y * encoderLength + thread_x) as raster eqn:Er.
  assert (0 <= raster) as Hr0 by lia.
  assert (sizeofEncodedKeypoint MIN_KEYPOINT_SIZE descriptorSize extraSize
          = MIN_KEYPOINT_SIZE + descriptorSize + extraSize) as Hsz.
  { unfold sizeofEncodedKeypoint.
    rewrite (wrap_small (MIN_KEYPOINT_SIZE + descriptorSize)) by lia.
    apply wrap_small. lia. }
  remember ((MIN_KEYPOINT_SIZE + descriptorSize + extraSize) / 4) as ppk
    eqn:Eppk.
  assert (0 < ppk) as Hppk.
  { rewrite Eppk. apply Z.div_str_pos. lia. }
  pose proof (Z.mod_pos_bound raster ppk Hppk) as Hmod.
  pose proof (Z.div_mod raster ppk ltac:(lia)) as Hdm.
  assert (0 <= raster / ppk) as Hq by (apply Z.div_pos; lia).
  assert (0 <= raster / ppk * ppk <= raster) as Hbase by nia.
  assert (findKeypointAddress MIN_KEYPOINT_SIZE thread_x thread_y
                              encoderLength descriptorSize extraSize
          = Address (raster / ppk * ppk) (raster mod ppk)) as Ha.
  { unfold findKeypointAddress. rewrite Hsz.
    rewrite (Z.quot_div_nonneg _ 4) by lia. rewrite <- Eppk.
    rewrite (wrap_small (thread_y * encoderLength)) by nia.
    rewrite <- Er. rewrite (wrap_small raster) by lia.
    rewrite Z.quot_div_nonneg, Z.rem_mod_nonneg by lia.
    now rewrite wrap_small by lia. }
  rewrite Ha.
  assert (findKeypointIndex MIN_KEYPOINT_SIZE
            (Address (raster / ppk * ppk) (raster mod ppk))
            descriptorSize extraSize = raster / ppk) as Hi.
  { unfold findKeypointIndex. rewrite Hsz. cbn [base].
    rewrite (Z.quot_div_nonneg _ 4) by lia. rewrite <- Eppk.
    rewrite Z.quot_div_nonneg by lia.
    now rewrite Z.div_mul by lia. }
  rewrite Hi. cbn [base offset].
  repeat split; try lia.
  unfold readKeypointData. cbn [base offset].
  replace (raster / ppk * ppk + raster mod ppk) with raster by lia.
  rewrite (wrap_small raster) by lia.
  rewrite (wrap_small (encoderLength * encoderLength)) by nia.
  destruct (Z.ltb_spec raster (encoderLength * encoderLength)); [|lia].
  rewrite Z.rem_mod_nonneg, Z.quot_div_nonneg by lia.
  rewrite Er.
  rewrite Z.add_comm, Z.mod_add, Z.div_add by lia.
  now rewrite Z.mod_small, Z.div_small by lia.
Qed.

Lemma findKeypointAddress_of_thread_witness :
  let address := findKeypointAddress 8 3 2 8 32 0 in
  base address + offset address = 2 * 8 + 3
  /\ 0 <= offset address < (8 + 32 + 0) / 4.
Proof.
  pose proof (findKeypointAddress_of_thread 8 32 0 (fun _ _ => allZeros)
                3 2 8) as H.
  cbv zeta in *.
  destruct H as [H1 [H2 _]]; [lia .. | split; [exact H1 | exact H2]].
Defined.

(** ** The position *)

Lemma byte_channel (z : Z) : int_of (inject_Z z / 255 * 255) = z.
Proof.
  unfold int_of.
  assert (inject_Z z / 255 * 255 == inject_Z z)%Q as H by (field; discriminate).
  rewrite H. apply Qfloor_Z.
Qed.

Lemma low_high_bytes (x : Z) :
  Z.lor (Z.land x 255) (wrap (Z.shiftl (Z.land (Z.shiftr x 8) 255) 8))
  = x mod 2 ^ 16.
Proof.
  assert (0 <= Z.land (Z.shiftr x 8) 255 < 256) as Hhi.
  { change 255 with (Z.ones 8). rewrite Z.land_ones by lia.
    apply Z.mod_pos_bound. lia. }
  rewrite wrap_small by (rewrite Z.shiftl_mul_pow2 by lia; lia).
  rewrite <- (Z.land_ones x 16) by lia.
  change 255 with (Z.ones 8).
  apply Z.bits_inj'. intros n Hn.
  rewrite Z.lor_spec, !Z.land_spec.
  destruct (Z.lt_ge_cases n 8).
  - rewrite Z.shiftl_spec_low by lia.
    rewrite !Z.ones_spec_low by lia. now rewrite orb_false_r.
  - rewrite Z.shiftl_spec by lia.
    rewrite Z.land_spec, Z.shiftr_spec by lia.
    replace (n - 8 + 8) with n by lia.
    rewrite (Z.ones_spec_high 8 n) by lia.
    rewrite andb_false_r. cbn [orb].
    destruct (Z.lt_ge_cases n 16).
    + now rewrite !Z.ones_spec_low by lia.
    + now rewrite !Z.ones_spec_high, !andb_false_r by lia.
Qed.

Lemma low_high_sum (x : Z) :
  x mod 2 ^ 16 = Z.land x 255 + 256 * Z.land (Z.shiftr x 8) 255
  /\ 0 <= Z.land x 255 < 256
  /\ 0 <= Z.land (Z.shiftr x 8) 255 < 256.
Proof.
  change 255 with (Z.ones 8).
  rewrite !Z.land_ones, Z.shiftr_div_pow2 by lia.
  pose proof (Z.mod_pos_bound (x / 2 ^ 8) (2 ^ 8) ltac:(lia)).
  pose proof (Z.mod_pos_bound x (2 ^ 8) ltac:(lia)).
  repeat split; try lia.
  change (2 ^ 16) with (2 ^ 8 * 2 ^ 8).
  rewrite Z.rem_mul_r by lia. lia.
Qed.

Lemma byte_is_one (z : Z) : Qeq_bool (inject_Z z / 255) 1 = true <-> z = 255.
Proof.
  rewrite Qeq_bool_iff. unfold Qeq, Qdiv, Qmult, Qinv, inject_Z. simpl.
  lia.
Qed.

Section Position.

Variable float : Type.
Variable literal : Q -> float.
Variable fmul fsub fmax : float -> float -> float.
Variable TWO_PI PI : float.
Variable decodeFloat16 : Q * Q -> float.
Variable decodeLod : Q -> float.
Variable fixtovec2 : Z * Z -> float * float.
Variable vec2tofix : float * float -> Z * Z.

Let decode := decodeHeader float literal fmul fsub TWO_PI PI decodeFloat16
                           decodeLod fixtovec2.
Let encode := encodeKeypointPosition float literal fmax vec2tofix.
Let fixed := fixedPosition float literal fmax vec2tofix.

(** X14. The position pixel that [encodeKeypointPosition] makes, read
    back by [decodeKeypoint], gives the two fixed-point numbers of the
    position again, each cut down to its low 16 bits. *)
Theorem position_bytes_round_trip (pos : float * float)
        (rawEncodedProperties : vec4) :
  position (decode (encode pos) rawEncodedProperties)
  = fixtovec2 (fst (fixed pos) mod 2 ^ 16, snd (fixed pos) mod 2 ^ 16).
Proof.
  unfold decode, encode, decodeHeader, encodeKeypointPosition.
  cbn [position r g b a fst snd]. fold (fixed pos).
  now rewrite !byte_channel, !low_high_bytes.
Qed.

(** X15. The end of a list of keypoints is marked by a position whose
    bytes are all 0xFF. A position encodes to this mark, and is read
    back as the null keypoint, exactly when the low 16 bits of both of
    its fixed-point numbers are all ones. *)
Theorem position_reads_as_null (pos : float * float)
        (rawEncodedProperties : vec4) :
  isNullKeypoint (decode (encode pos) rawEncodedProperties) = true
  <-> fst (fixed pos) mod 2 ^ 16 = 65535
      /\ snd (fixed pos) mod 2 ^ 16 = 65535.
Proof.
  unfold decode.
  rewrite KeypointsTheory.isNullKeypoint_decodeHeader.
  unfold encode, encodeKeypointPosition, all_equal, vec4_of.
  cbn [r g b a fst snd]. fold (fixed pos).
  rewrite !andb_true_iff, !byte_is_one.
  destruct (low_high_sum (fst (fixed pos))) as [Ex [Hx1 Hx2]].
  destruct (low_high_sum (snd (fixed pos))) as [Ey [Hy1 Hy2]].
  rewrite Ex, Ey. lia.
Qed.

End Position.

End KeypointLaws.
(* ===================================================================== *)
(** * More on the texture reader: the rectangle that is read, the pixel
      buffers, the array that a read returns, the time spent waiting *)
(* ===================================================================== *)

Module TextureReaderLaws.
Import TextureReader TextureReaderBuffers.
Local Open Scope Z_scope.

(** ** The rectangle *)

(** X16. The rectangle that is read lies within the texture. A
    rectangle that lies within the texture is read as it is; one that is
    as wide and as high as the texture at most keeps its size, and is
    moved where it sticks out. *)
Theorem clamp_within_texture (texture : SpeedyDrawableTexture)
        (x y width_ height_ : Z) :
  0 <= width texture ->
  0 <= height texture ->
  let rect := clamp texture x y width_ height_ in
  (0 <= rx rect /\ 0 <= rwidth rect
   /\ rx rect + rwidth rect <= width texture)
  /\ (0 <= ry rect /\ 0 <= rheight rect
      /\ ry rect + rheight rect <= height texture)
  /\ (0 <= width_ <= width texture -> rwidth rect = width_)
  /\ (0 <= height_ <= height texture -> rheight rect = height_)
  /\ (0 <= x -> 0 <= width_ -> x + width_ <= width texture ->
      0 <= y -> 0 <= height_ -> y + height_ <= height texture ->
      rect = Rect x y width_ height_).
Proof.
  intros Hw Hh. unfold clamp. cbn [rx ry rwidth rheight].
  repeat split; try lia.
  intros. f_equal; lia.
Qed.

Lemma clamp_within_texture_witness :
  let rect := clamp exampleTexture 3 (-1) 2 5 in
  0 <= rx rect /\ 0 <= rwidth rect /\ rx rect + rwidth rect <= 4.
Proof.
  pose proof (clamp_within_texture exampleTexture 3 (-1) 2 5) as H.
  cbv zeta in *.
  destruct H as [H _]; [simpl; lia | simpl; lia |].
  exact H.
Defined.

(** ** The store *)

Lemma setBuffer_length (store : Store) (index : nat) (bytes : list Byte.byte) :
  List.length (setBuffer store index bytes) = List.length store.
Proof.
  revert index. induction store as [|b store IH]; intros [|index]; simpl;
    try reflexivity. now rewrite IH.
Qed.

Lemma setBuffer_same (store : Store) (index : nat) (bytes : list Byte.byte) :
  (index < List.length store)%nat ->
  nth index (setBuffer store index bytes) [] = bytes.
Proof.
  revert index. induction store as [|b store IH]; intros [|index] H;
    simpl in *; try lia; [reflexivity | apply IH; lia].
Qed.

Lemma setBuffer_other (store : Store) (index other : nat)
      (bytes : list Byte.byte) :
  index <> other ->
  nth other (setBuffer store index bytes) [] = nth other store [].
Proof.
  revert index other.
  induction store as [|b store IH]; intros [|index] [|other] H; simpl;
    try reflexivity; try congruence.
  apply IH. congruence.
Qed.

Lemma nth_repeat_below {A : Type} (x d : A) (n i : nat) :
  (i < n)%nat -> nth i (repeat x n) d = x.
Proof.
  revert i. induction n as [|n IH]; intros [|i] H; simpl; try lia;
    [reflexivity | apply IH; lia].
Qed.

Lemma map_shift_seq (k n : nat) :
  map (fun i => (k + i)%nat) (seq 0 n) = seq k n.
Proof.
  revert k. induction n as [|n IH]; intros k; simpl; [reflexivity|].
  rewrite Nat.add_0_r. f_equal.
  rewrite <- seq_shift, map_map, <- (IH (S k)).
  apply map_ext. intros i. lia.
Qed.

(** The loop of [_reallocate], in one piece. *)
Lemma reallocateAll_closed (arrays : list Uint8Array) (size : nat) :
  forall store,
    reallocateAll store arrays size
    = ((store ++ repeat (repeat Byte.x00 size) (List.length arrays))%list,
       map (fun i => View (List.length store + i) size)
           (seq 0 (List.length arrays))).
Proof.
  induction arrays as [|a arrays IH]; intros store.
  - simpl. now rewrite app_nil_r.
  - cbn [reallocateAll newUint8Array]. rewrite IH.
    cbn [List.length repeat seq map]. rewrite <- app_assoc. cbn [app].
    rewrite Nat.add_0_r. f_equal. f_equal.
    rewrite <- seq_shift, map_map.
    apply map_ext. intros i. rewrite length_app. cbn [List.length].
    f_equal. lia.
Qed.

Lemma emptyBuffers_closed (n : nat) :
  forall store,
    emptyBuffers store n
    = ((store ++ repeat [] n)%list,
       map (fun i => View (List.length store + i) 0) (seq 0 n)).
Proof.
  induction n as [|n IH]; intros store.
  - simpl. now rewrite app_nil_r.
  - cbn [emptyBuffers newUint8Array]. rewrite IH.
    cbn [repeat seq map]. rewrite <- app_assoc. cbn [app].
    rewrite Nat.add_0_r. f_equal. f_equal.
    rewrite <- seq_shift, map_map.
    apply map_ext. intros i. rewrite length_app. cbn [List.length].
    f_equal. lia.
Qed.

(** New arrays of one size, each on a buffer of its own at the end of
    the store, make a well-formed reader. *)
Lemma fresh_wellFormed (store : Store) (n size : nat) (flag : bool) :
  (0 < n)%nat ->
  wellFormed (store ++ repeat (repeat Byte.x00 size) n)%list
             (Reader (map (fun i => View (List.length store + i) size)
                          (seq 0 n)) flag).
Proof.
  intros Hn.
  assert (capacity (Reader (map (fun i => View (List.length store + i) size)
                                (seq 0 n)) flag) = Z.of_nat size) as Hcap.
  { unfold capacity. cbn [_pixelBuffer].
    destruct n as [|n]; [lia | reflexivity]. }
  unfold wellFormed. rewrite Hcap. cbn [_pixelBuffer].
  split; [destruct n; [lia | discriminate]|]. split.
  - apply Forall_forall. intros array Hin.
    apply in_map_iff in Hin. destruct Hin as [i [<- Hi]].
    apply in_seq in Hi. cbn [byteLength buffer].
    rewrite length_app, repeat_length.
    repeat split; [lia|].
    rewrite app_nth2 by lia.
    replace (List.length store + i - List.length store)%nat with i by lia.
    rewrite nth_repeat_below by lia. apply repeat_length.
  - rewrite map_map.
    rewrite (map_ext _ (fun i => (List.length store + i)%nat))
      by reflexivity.
    rewrite map_shift_seq. apply seq_NoDup.
Qed.

(** ** The pixel buffers *)

(** X17. The constructor asks for one pixel buffer at least, and makes
    as many empty arrays as it is asked for, each on a buffer of its
    own. *)
Theorem newReader_buffers (store : Store) (numberOfBuffers : Z) :
  (numberOfBuffers <= 0
   /\ newReader store numberOfBuffers = (store, Throw AssertionError))
  \/ (0 < numberOfBuffers
      /\ exists store' this,
           newReader store numberOfBuffers = (store', Return this)
           /\ wellFormed store' this
           /\ capacity this = 0
           /\ Z.of_nat (List.length (_pixelBuffer this)) = numberOfBuffers
           /\ _initialized this = false).
Proof.
  unfold newReader. destruct (Z.ltb_spec 0 numberOfBuffers) as [Hpos|Hneg];
    cbn [negb]; [right | left; split; [assumption | reflexivity]].
  split; [assumption|].
  rewrite emptyBuffers_closed. eexists. eexists.
  split; [reflexivity|]. split; [|split; [|split]].
  - apply (fresh_wellFormed store (Z.to_nat numberOfBuffers) 0 false). lia.
  - unfold capacity. cbn [_pixelBuffer].
    destruct (Z.to_nat numberOfBuffers) eqn:E; [lia | reflexivity].
  - cbn [_pixelBuffer]. rewrite length_map, length_seq. lia.
  - reflexivity.
Qed.

Lemma capacity_first (store : Store) (this : SpeedyTextureReader) :
  wellFormed store this ->
  exists first others,
    _pixelBuffer this = first :: others
    /\ capacity this = Z.of_nat (byteLength first).
Proof.
  intros [Hne _]. unfold capacity.
  destruct (_pixelBuffer this) as [|first others]; [contradiction|].
  now exists first, others.
Qed.

(** [_reallocate] makes room. *)
Lemma reallocate_room (store : Store) (this : SpeedyTextureReader)
      (size : Z) :
  wellFormed store this ->
  exists store' this',
    _reallocate store this size = (store', Return this')
    /\ wellFormed store' this'
    /\ capacity this' = Z.max (capacity this) size
    /\ _initialized this' = _initialized this.
Proof.
  intros Hwf. destruct (capacity_first store this Hwf)
    as [first [others [Hbuf Hcap]]].
  unfold _reallocate. rewrite Hbuf, <- Hcap.
  destruct (Z.leb_spec size (capacity this)) as [Hle|Hgt].
  - exists store, this.
    split; [reflexivity|]. split; [assumption|]. split; [lia | reflexivity].
  - rewrite <- Hbuf, reallocateAll_closed. eexists. eexists.
    split; [reflexivity|].
    assert (0 < List.length (_pixelBuffer this))%nat as Hn
        by (rewrite Hbuf; simpl; lia).
    split; [now apply fresh_wellFormed|]. split; [|reflexivity].
    unfold capacity at 1. cbn [_pixelBuffer].
    destruct (List.length (_pixelBuffer this)) eqn:E; [lia|].
    cbn [seq map byteLength]. lia.
Qed.

(** X18. [_reallocate] keeps the pixel buffers as they are when they
    hold [size] bytes already, and otherwise puts a new array of [size]
    zeros in the place of each of them: the capacity goes up to [size]
    and never down, nothing is copied, and the arrays that were there
    before still show what they showed. *)
Theorem reallocate_grows (store : Store) (this : SpeedyTextureReader)
        (size : Z) :
  wellFormed store this ->
  exists store' this',
    _reallocate store this size = (store', Return this')
    /\ wellFormed store' this'
    /\ capacity this' = Z.max (capacity this) size
    /\ List.length (_pixelBuffer this') = List.length (_pixelBuffer this)
    /\ (size <= capacity this -> store' = store /\ this' = this)
    /\ (capacity this < size ->
        Forall (fun array =>
                  contents store' array = repeat Byte.x00 (Z.to_nat size))
               (_pixelBuffer this'))
    /\ (forall array, (buffer array < List.length store)%nat ->
                      contents store' array = contents store array).
Proof.
  intros Hwf. destruct (capacity_first store this Hwf)
    as [first [others [Hbuf Hcap]]].
  unfold _reallocate. rewrite Hbuf, <- Hcap.
  destruct (Z.leb_spec size (capacity this)) as [Hle|Hgt].
  - exists store, this.
    split; [reflexivity|]. split; [assumption|].
    split; [lia|]. split; [now rewrite Hbuf|].
    split; [intros _; now split|].
    split; [intros H; lia | reflexivity].
  - rewrite <- Hbuf, reallocateAll_closed. eexists. eexists.
    split; [reflexivity|].
    assert (0 < List.length (_pixelBuffer this))%nat as Hn
        by (rewrite Hbuf; simpl; lia).
    split; [now apply fresh_wellFormed|].
    split; [|split; [|split; [|split]]].
    + unfold capacity at 1. cbn [_pixelBuffer].
      destruct (List.length (_pixelBuffer this)) eqn:E; [lia|].
      cbn [seq map byteLength]. lia.
    + cbn [_pixelBuffer]. now rewrite length_map, length_seq.
    + lia.
    + intros _. cbn [_pixelBuffer]. apply Forall_forall. intros array Hin.
      apply in_map_iff in Hin. destruct Hin as [i [<- Hi]].
      apply in_seq in Hi. unfold contents. cbn [buffer byteLength].
      rewrite app_nth2 by lia.
      replace (List.length store + i - List.length store)%nat with i by lia.
      rewrite nth_repeat_below by lia.
      rewrite firstn_all2 by (rewrite repeat_length; lia). reflexivity.
    + intros array Ha. unfold contents. now rewrite app_nth1.
Qed.

Lemma reallocate_grows_witness :
  exists store' this',
    _reallocate [[]; []] (Reader [View 0 0; View 1 0] true) 3
    = (store', Return this')
    /\ capacity this' = 3.
Proof.
  destruct (reallocate_grows [[]; []] (Reader [View 0 0; View 1 0] true) 3)
    as [store' [this' [H [_ [Hc _]]]]].
  - unfold wellFormed, capacity. simpl.
    repeat split; try discriminate; repeat constructor; simpl; try lia;
      intuition discriminate.
  - exists store', this'. split; [exact H | exact Hc].
Defined.

(** X19. [_reallocate] looks at the first pixel buffer only, and
    makes room in all of them: after it, the first [size] bytes of every
    pixel buffer make an array of [size] bytes, which is what
    [_readPixelsViaPBO] asserts of the array it is given. *)
Theorem reallocate_room_everywhere (store : Store)
        (this : SpeedyTextureReader) (size : Z) :
  wellFormed store this ->
  0 <= size ->
  exists store' this',
    _reallocate store this size = (store', Return this')
    /\ Forall (fun array =>
                 size <= Z.of_nat (byteLength array)
                 /\ Z.of_nat (byteLength (subarray array size)) = size)
              (_pixelBuffer this').
Proof.
  intros Hwf Hsize.
  destruct (reallocate_room store this size Hwf)
    as [store' [this' [Hre [[_ [Hall _]] [Hcap _]]]]].
  exists store', this'. split; [exact Hre|].
  apply Forall_forall. intros array Hin.
  pose proof (proj1 (Forall_forall _ _) Hall array Hin) as [Hlen _].
  unfold subarray. cbn [byteLength]. lia.
Qed.

Lemma reallocate_room_everywhere_witness :
  exists store' this',
    _reallocate [[]; []] (Reader [View 0 0; View 1 0] true) 3
    = (store', Return this')
    /\ Forall (fun array =>
                 3 <= Z.of_nat (byteLength array)
                 /\ Z.of_nat (byteLength (subarray array 3)) = 3)
              (_pixelBuffer this').
Proof.
  apply (reallocate_room_everywhere [[]; []]
           (Reader [View 0 0; View 1 0] true) 3); [|lia].
  unfold wellFormed, capacity. simpl.
  repeat split; try discriminate; repeat constructor; simpl; try lia;
    intuition discriminate.
Defined.

(** ** The synchronous read *)

Lemma firstn_data {A : Type} (data rest : list A) (n : nat) :
  List.length data = n -> firstn n (data ++ rest) = data.
Proof.
  intros <-. rewrite firstn_app, Nat.sub_diag, firstn_all. simpl.
  apply app_nil_r.
Qed.

Lemma readPixels_contents (store : Store) (texture : SpeedyDrawableTexture)
      (rect : Rectangle) (dst : Uint8Array) :
  let n := Z.to_nat (rwidth rect * rheight rect * 4) in
  (buffer dst < List.length store)%nat ->
  List.length (nth (buffer dst) store []) = byteLength dst ->
  (n <= byteLength dst)%nat ->
  let store' := readPixels store texture rect dst in
  nth (buffer dst) store' []
  = (map (pixels texture (rx rect) (ry rect) (rwidth rect) (rheight rect))
         (seq 0 n)
     ++ skipn n (nth (buffer dst) store []))%list
  /\ List.length store' = List.length store
  /\ (forall other, other <> buffer dst ->
                    nth other store' [] = nth other store [])
  /\ List.length (nth (buffer dst) store' []) = byteLength dst.
Proof.
  intros n Hb Hlen Hn store'.
  assert (store' = setBuffer store (buffer dst)
                     (map (pixels texture (rx rect) (ry rect) (rwidth rect)
                               (rheight rect)) (seq 0 n)
                      ++ skipn n (nth (buffer dst) store []))%list) as ->.
  { unfold store', readPixels. fold n.
    destruct (Nat.ltb_spec (byteLength dst) n); [lia | reflexivity]. }
  rewrite setBuffer_same by assumption.
  repeat split.
  - apply setBuffer_length.
  - intros other Ho. apply setBuffer_other. congruence.
  - rewrite length_app, length_map, length_seq, length_skipn. lia.
Qed.

Lemma readPixels_wellFormed (store : Store) (this : SpeedyTextureReader)
      (texture : SpeedyDrawableTexture) (rect : Rectangle)
      (first : Uint8Array) (others : list Uint8Array) :
  wellFormed store this ->
  _pixelBuffer this = first :: others ->
  (Z.to_nat (rwidth rect * rheight rect * 4) <= byteLength first)%nat ->
  wellFormed (readPixels store texture rect first) this.
Proof.
  intros [Hne [Hall Hnd]] Hbuf Hn.
  assert (In first (_pixelBuffer this)) as Hin by (rewrite Hbuf; now left).
  pose proof (proj1 (Forall_forall _ _) Hall first Hin) as [_ [Hb Hlen]].
  destruct (readPixels_contents store texture rect first Hb Hlen Hn)
    as [_ [Hl [Hother Hsame]]].
  split; [assumption|]. split; [|assumption].
  apply Forall_forall. intros array Ha.
  pose proof (proj1 (Forall_forall _ _) Hall array Ha) as [Hc [Hb' Hlen']].
  rewrite Hl. repeat split; try assumption.
  destruct (Nat.eq_dec (buffer array) (buffer first)) as [E|E].
  - rewrite E, Hsame. rewrite E in Hlen'. congruence.
  - now rewrite Hother.
Qed.

(** What a synchronous read comes to. *)
Lemma readPixelsSync_spec (store : Store) (this : SpeedyTextureReader)
      (texture : SpeedyDrawableTexture) (x y width_ height_ : Z) :
  wellFormed store this ->
  _initialized this = true ->
  let rect := clamp texture x y width_ height_ in
  let size := rwidth rect * rheight rect * 4 in
  exists store1 this1 first others,
    _reallocate store this size = (store1, Return this1)
    /\ wellFormed store1 this1
    /\ _pixelBuffer this1 = first :: others
    /\ (Z.to_nat size <= byteLength first)%nat
    /\ (buffer first < List.length store1)%nat
    /\ List.length (nth (buffer first) store1 []) = byteLength first
    /\ _initialized this1 = true
    /\ readPixelsSync store this texture x y width_ height_
       = (if isContextLost texture then store1
          else readPixels store1 texture rect first,
          this1, Return (View (buffer first) (Z.to_nat size))).
Proof.
  intros Hwf Hinit rect size.
  destruct (reallocate_room store this size Hwf)
    as [store1 [this1 [Hre [Hwf1 [Hcap Hflag]]]]].
  destruct (capacity_first store1 this1 Hwf1)
    as [first [others [Hbuf Hfirst]]].
  exists store1, this1, first, others.
  assert (Z.to_nat size <= byteLength first)%nat as Hn by lia.
  assert (In first (_pixelBuffer this1)) as Hin by (rewrite Hbuf; now left).
  destruct Hwf1 as [Hne [Hall Hnd]].
  pose proof (proj1 (Forall_forall _ _) Hall first Hin) as [_ [Hb Hlen]].
  assert (_initialized this1 = true) as Hinit1 by congruence.
  repeat split; try assumption.
  unfold readPixelsSync. rewrite Hinit. cbn [negb].
  fold rect. fold size. rewrite Hre, Hbuf. unfold subarray.
  rewrite Nat.min_l by assumption.
  destruct (isContextLost texture); reflexivity.
Qed.

(** X20. A synchronous read hands back an array of exactly four bytes
    for each pixel of the rectangle that is read. While the context is
    alive they are the bytes that the device delivers for that
    rectangle. The reader stays as the constructor made it: pixel
    buffers of one length, each on a buffer of its own. *)
Theorem readPixelsSync_returns (store : Store) (this : SpeedyTextureReader)
        (texture : SpeedyDrawableTexture) (x y width_ height_ : Z) :
  wellFormed store this ->
  _initialized this = true ->
  let rect := clamp texture x y width_ height_ in
  let n := Z.to_nat (rwidth rect * rheight rect * 4) in
  exists store' this' data,
    readPixelsSync store this texture x y width_ height_
    = (store', this', Return data)
    /\ wellFormed store' this'
    /\ List.length (contents store' data) = n
    /\ (isContextLost texture = false ->
        contents store' data
        = map (pixels texture (rx rect) (ry rect) (rwidth rect)
                      (rheight rect)) (seq 0 n)).
Proof.
  intros Hwf Hinit rect n.
  destruct (readPixelsSync_spec store this texture x y width_ height_
                                Hwf Hinit)
    as [store1 [this1 [first [others
         [Hre [Hwf1 [Hbuf [Hn [Hb [Hlen [_ Hread]]]]]]]]]]].
  fold rect in Hn, Hread. fold n in Hn, Hread.
  destruct (readPixels_contents store1 texture rect first Hb Hlen Hn)
    as [Hdata _].
  rewrite Hread. eexists. eexists. eexists. split; [reflexivity|].
  destruct (isContextLost texture).
  - split; [assumption|]. split; [|discriminate].
    unfold contents. cbn [buffer byteLength].
    rewrite length_firstn. lia.
  - split; [now apply (readPixels_wellFormed _ _ _ _ first others)|].
    unfold contents. cbn [buffer byteLength]. fold n in Hdata.
    rewrite Hdata, firstn_data by (now rewrite length_map, length_seq).
    split; [now rewrite length_map, length_seq | reflexivity].
Qed.

Lemma readPixelsSync_returns_witness :
  exists store' this' data,
    readPixelsSync [[]; []] (Reader [View 0 0; View 1 0] true)
                   exampleTexture 3 0 2 1
    = (store', this', Return data)
    /\ contents store' data
       = [Byte.x02; Byte.x02; Byte.x02; Byte.x02;
          Byte.x03; Byte.x03; Byte.x03; Byte.x03].
Proof.
  destruct (readPixelsSync_returns [[]; []]
              (Reader [View 0 0; View 1 0] true) exampleTexture 3 0 2 1)
    as [store' [this' [data [H [_ [_ Hc]]]]]].
  - unfold wellFormed, capacity. simpl.
    repeat split; try discriminate; repeat constructor; simpl; try lia;
      intuition discriminate.
  - reflexivity.
  - exists store', this', data. split; [exact H|].
    rewrite (Hc eq_refl). reflexivity.
Defined.

(** X21. The array that a read returns is a window on the first pixel
    buffer, and the next read writes to that buffer again: unless the
    next read needs more room than the one before, the array of the
    first read begins with the pixels of the second. *)
Theorem readPixelsSync_reuses_array
        (store : Store) (this : SpeedyTextureReader)
        (texture1 texture2 : SpeedyDrawableTexture)
        (x1 y1 width1 height1 x2 y2 width2 height2 : Z)
        (store1 store2 : Store) (this1 this2 : SpeedyTextureReader)
        (data1 data2 : Uint8Array) :
  wellFormed store this ->
  _initialized this = true ->
  isContextLost texture2 = false ->
  readPixelsSync store this texture1 x1 y1 width1 height1
  = (store1, this1, Return data1) ->
  readPixelsSync store1 this1 texture2 x2 y2 width2 height2
  = (store2, this2, Return data2) ->
  (byteLength data2 <= byteLength data1)%nat ->
  buffer data2 = buffer data1
  /\ firstn (byteLength data2) (contents store2 data1)
     = contents store2 data2
  /\ contents store2 data2
     = (let rect := clamp texture2 x2 y2 width2 height2 in
        map (pixels texture2 (rx rect) (ry rect) (rwidth rect)
                    (rheight rect))
            (seq 0 (byteLength data2))).
Proof.
  intros Hwf Hinit Hlive H1 H2 Hle.
  destruct (readPixelsSync_spec store this texture1 x1 y1 width1 height1
                                Hwf Hinit)
    as [s1 [t1 [first [others
         [_ [Hwf1 [Hbuf [Hn [Hb [Hlen [Hinit1 Hread]]]]]]]]]]].
  rewrite Hread in H1. injection H1 as Es1 Et1 Ed1.
  assert (wellFormed store1 this1) as Hwf1'.
  { rewrite <- Es1, <- Et1. destruct (isContextLost texture1);
      [assumption | now apply (readPixels_wellFormed _ _ _ _ first others)]. }
  assert (_initialized this1 = true) as Hinit1' by (now rewrite <- Et1).
  destruct (readPixelsSync_spec store1 this1 texture2 x2 y2 width2 height2
                                Hwf1' Hinit1')
    as [s2 [t2 [first2 [others2
         [Hre2 [Hwf2 [Hbuf2 [Hn2 [Hb2 [Hlen2 [_ Hread2]]]]]]]]]]].
  rewrite Hread2, Hlive in H2. injection H2 as Es2 Et2 Ed2.
  set (rect2 := clamp texture2 x2 y2 width2 height2) in *.
  set (n2 := Z.to_nat (rwidth rect2 * rheight rect2 * 4)) in *.
  set (rect1 := clamp texture1 x1 y1 width1 height1) in *.
  set (n1 := Z.to_nat (rwidth rect1 * rheight rect1 * 4)) in *.
  assert (byteLength data1 = n1 /\ buffer data1 = buffer first)
    as [Hl1 Hb1] by (rewrite <- Ed1; now split).
  assert (byteLength data2 = n2 /\ buffer data2 = buffer first2)
    as [Hl2 Hb2'] by (rewrite <- Ed2; now split).
  (* the second read finds room enough *)
  assert (first2 = first /\ s2 = store1) as [-> ->].
  { unfold _reallocate in Hre2. rewrite <- Et1, Hbuf in Hre2.
    destruct (Z.leb_spec (rwidth rect2 * rheight rect2 * 4)
                         (Z.of_nat (byteLength first))) as [_|Hgt];
      [|unfold n2, n1 in *; lia].
    injection Hre2 as <- <-. rewrite Hbuf in Hbuf2.
    injection Hbuf2 as <- _. now split. }
  destruct (readPixels_contents store1 texture2 rect2 first Hb2 Hlen2 Hn2)
    as [Hdata _].
  fold n2 in Hdata. rewrite <- Es2.
  unfold contents. rewrite Hb1, Hb2', Hl1, Hl2, Hdata.
  split; [reflexivity|].
  rewrite firstn_firstn, Nat.min_l by lia.
  rewrite firstn_data by (now rewrite length_map, length_seq).
  split; reflexivity.
Qed.

Lemma readPixelsSync_reuses_array_witness :
  let first :=
    readPixelsSync [[]; []] (Reader [View 0 0; View 1 0] true)
                   exampleTexture 0 0 2 1 in
  let second :=
    readPixelsSync (fst (fst first)) (snd (fst first)) exampleTexture
                   2 0 2 1 in
  firstn 8 (contents (fst (fst second)) (View 2 8))
  = [Byte.x02; Byte.x02; Byte.x02; Byte.x02;
     Byte.x03; Byte.x03; Byte.x03; Byte.x03].
Proof.
  intros first second.
  destruct (readPixelsSync_reuses_array [[]; []]
              (Reader [View 0 0; View 1 0] true)
              exampleTexture exampleTexture 0 0 2 1 2 0 2 1
              (fst (fst first)) (fst (fst second))
              (snd (fst first)) (snd (fst second))
              (View 2 8) (View 2 8)) as [_ [H1 H2]].
  - unfold wellFormed, capacity. simpl.
    repeat split; try discriminate; repeat constructor; simpl; try lia;
      intuition discriminate.
  - reflexivity.
  - reflexivity.
  - reflexivity.
  - reflexivity.
  - cbn [byteLength]. lia.
  - exact (eq_trans H1 H2).
Defined.

(** ** The time spent waiting *)

Lemma intervals_total (n : nat) :
  forall p, 0 <= p -> 0 <= total (intervals n p)
                      /\ 4 * total (intervals n p) <= (p + 1) ^ 2.
Proof.
  induction n as [|n IH]; intros p Hp.
  - simpl. nia.
  - cbn [intervals total fold_right].
    fold (total (intervals n (if 2 <? p then p - 2 else 0))).
    destruct (Z.ltb_spec 2 p) as [H|H].
    + destruct (IH (p - 2)) as [H0 H4]; [lia|]. nia.
    + destruct (IH 0) as [H0 H4]; [lia|]. nia.
Qed.

(** X22. The timers of one wait add up to (p + 1)^2 / 4 milliseconds at
    most, where [p] is the first poll interval, however many attempts
    there are: from the default interval of 10 ms on, 30 ms at most. It
    is the number of attempts, not the time, that ends the wait. *)
Theorem wait_total_delay (gl : Device) (R p : Z) (fuel : nat) :
  0 <= R ->
  0 <= p ->
  (Z.to_nat R < fuel)%nat ->
  exists run : Run,
    wait fuel gl 0 (Args p R) [] = Some run
    /\ 0 <= total (delays run)
    /\ 4 * total (delays run) <= (p + 1) ^ 2
    /\ (p <= 10 -> total (delays run) <= 30).
Proof.
  intros HR Hp Hfuel.
  pose proof (TextureReaderTheory.wait_settles gl (Z.to_nat R) fuel 0 p []
                Hfuel) as H.
  rewrite Z2Nat.id in H by assumption.
  eexists. split; [exact H|].
  destruct (firstSignaled gl 0 (Z.to_nat R)) as [k|];
    cbn [delays app].
  - destruct (intervals_total (k - 0) p Hp) as [H0 H4].
    repeat split; try assumption. intros. nia.
  - destruct (intervals_total (Z.to_nat R) p Hp) as [H0 H4].
    repeat split; try assumption. intros. nia.
Qed.

Lemma wait_total_delay_witness :
  exists run : Run,
    wait 1001 (signaledFrom 2000) 0 defaultArguments [] = Some run
    /\ total (delays run) <= 30.
Proof.
  destruct (wait_total_delay (signaledFrom 2000) 1000 10 1001)
    as [run [H [_ [_ H30]]]]; try lia.
  exists run. split; [exact H | apply H30; lia].
Defined.

End TextureReaderLaws.
(* ===================================================================== *)
(** * The search for the q-th keypoint *)
(* ===================================================================== *)

Module EncodeKeypointsLaws.
Import Keypoints EncodeKeypoints.
Local Open Scope Z_scope.

Lemma skipOffset_byte (image : sampler2D) (x y : Z) :
  skipOffset (pixelAt image x y) = Z.of_N (Byte.to_N (blue (image x y)))
  /\ 0 <= skipOffset (pixelAt image x y) <= 255.
Proof.
  assert (skipOffset (pixelAt image x y)
          = Z.of_N (Byte.to_N (blue (image x y)))) as E.
  { unfold skipOffset, int_of, pixelAt, texelValue, channel. cbn [b].
    unfold Qmult, Qfloor. cbn [Qnum Qden].
    change (Z.pos (255 * 1)) with 255. apply Z.div_mul. lia. }
  split; [exact E|]. rewrite E.
  pose proof (Byte.to_N_bounded (blue (image x y))). lia.
Qed.

Lemma isCorner_cases (px : vec4) :
  (isCorner px = 0 /\ (r px <= 0)%Q) \/ (isCorner px = 1 /\ (0 < r px)%Q).
Proof.
  unfold isCorner. destruct (Qle_bool (r px) 0) eqn:E.
  - left. split; [reflexivity | now apply Qle_bool_iff].
  - right. split; [reflexivity|]. apply Qnot_le_lt. intros H.
    apply Qle_bool_iff in H. congruence.
Qed.

Section Search.

Variable image : sampler2D.
Variables w h q : Z.
Hypothesis w_positive : 0 < w.
Hypothesis size_fits : w * h + 256 < 2 ^ 31.

(** What holds of the state of the loop whenever its condition is
    looked at. *)
Let invariant (s : Scan) : Prop :=
  0 <= i s < w * h + 256
  /\ position s = (i s mod w, i s / w)
  /\ -1 <= p s <= i s - 1.

Let initial : Scan := MkScan 0 (-1) (0, 0) None.

Lemma searching_inside (s : Scan) :
  invariant s -> searching (w, h) q s = true ->
  p s <> q /\ i s < w * h /\ 0 <= i s / w < h /\ 0 <= i s mod w < w.
Proof.
  intros [Hi [Hpos Hp]] Hs. unfold searching in Hs.
  apply andb_prop in Hs. destruct Hs as [Hq Hy].
  apply negb_true_iff, Z.eqb_neq in Hq. apply Z.ltb_lt in Hy.
  rewrite Hpos in Hy. cbn [snd] in Hy.
  pose proof (Z.div_mod (i s) w ltac:(lia)) as Hdm.
  pose proof (Z.mod_pos_bound (i s) w w_positive) as Hm.
  assert (0 <= i s / w) by (apply Z.div_pos; lia).
  repeat split; try lia. nia.
Qed.

Lemma scanStep_fields (s : Scan) :
  invariant s -> searching (w, h) q s = true ->
  let px := pixelAt image (i s mod w) (i s / w) in
  scanStep image (w, h) s
  = MkScan (i s + 1 + skipOffset px) (p s + isCorner px)
           ((i s + 1 + skipOffset px) mod w, (i s + 1 + skipOffset px) / w)
           (Some px).
Proof.
  intros Hinv Hs px.
  destruct (searching_inside s Hinv Hs) as [_ [Hlt [Hy Hx]]].
  destruct Hinv as [Hi [Hpos Hp]].
  destruct (skipOffset_byte image (i s mod w) (i s / w)) as [_ Hskip].
  fold px in Hskip.
  unfold scanStep. rewrite Hpos. cbn [fst snd]. fold px.
  assert (0 <= isCorner px <= 1) as Hc
      by (destruct (isCorner_cases px) as [[-> _]|[-> _]]; lia).
  assert (wrap (1 + skipOffset px) = 1 + skipOffset px) as ->
      by (apply KeypointLaws.wrap_small; lia).
  assert (wrap (i s + (1 + skipOffset px)) = i s + 1 + skipOffset px) as ->
      by (rewrite KeypointLaws.wrap_small; lia).
  assert (wrap (p s + isCorner px) = p s + isCorner px) as ->
      by (apply KeypointLaws.wrap_small; lia).
  now rewrite Z.rem_mod_nonneg, Z.quot_div_nonneg by lia.
Qed.

Lemma scanStep_invariant (s : Scan) :
  invariant s -> searching (w, h) q s = true ->
  invariant (scanStep image (w, h) s)
  /\ i s < i (scanStep image (w, h) s).
Proof.
  intros Hinv Hs. rewrite (scanStep_fields s Hinv Hs).
  destruct (searching_inside s Hinv Hs) as [_ [Hlt [Hy Hx]]].
  destruct Hinv as [Hi [Hpos Hp]].
  destruct (skipOffset_byte image (i s mod w) (i s / w)) as [_ Hskip].
  pose proof (isCorner_cases (pixelAt image (i s mod w) (i s / w))) as Hc.
  unfold invariant. cbn [i p position].
  repeat split; try lia; destruct Hc as [[-> _]|[-> _]]; lia.
Qed.

(** The loop comes to an end, and ends in the initial state or after a
    turn that began with the condition true. *)
Lemma scanLoop_ends (fuel : nat) :
  forall s,
    invariant s ->
    (Z.to_nat (w * h - i s) <= fuel)%nat ->
    s = initial
    \/ (exists s0, invariant s0 /\ searching (w, h) q s0 = true
                   /\ s = scanStep image (w, h) s0) ->
    exists s',
      scanLoop fuel image (w, h) q s = Some s'
      /\ searching (w, h) q s' = false
      /\ (s' = initial
          \/ exists s0, invariant s0 /\ searching (w, h) q s0 = true
                        /\ s' = scanStep image (w, h) s0).
Proof.
  induction fuel as [|fuel IH]; intros s Hinv Hfuel Hfrom.
  - destruct (searching (w, h) q s) eqn:Hs.
    + destruct (searching_inside s Hinv Hs) as [_ [Hlt _]]. lia.
    + exists s. split; [simpl; now rewrite Hs|]. split; assumption.
  - destruct (searching (w, h) q s) eqn:Hs.
    + destruct (scanStep_invariant s Hinv Hs) as [Hinv' Hlt].
      destruct (searching_inside s Hinv Hs) as [_ [Hlt' _]].
      destruct (IH (scanStep image (w, h) s) Hinv') as [s' [H1 [H2 H3]]].
      * lia.
      * right. exists s.
        split; [assumption | split; [assumption | reflexivity]].
      * exists s'. split; [cbn [scanLoop]; now rewrite Hs|].
        split; assumption.
    + exists s. split; [cbn [scanLoop]; now rewrite Hs|]. split; assumption.
Qed.

End Search.

(** X23. In an image of [w] by [h] pixels, [findQthKeypoint] ends after
    w * h turns of its loop at most. When it returns true, [pixel] is a
    pixel of the image with a positive score, and [position] is the place
    where the search would go on: one plus the skip offset of that pixel
    further in raster order, not the place of the pixel. When it returns
    false, [position] is below the last row. *)
Theorem findQthKeypoint_finds (image : sampler2D) (w h q : Z) :
  0 < w ->
  0 <= h ->
  w * h + 256 < 2 ^ 31 ->
  0 <= q ->
  exists found pos px,
    findQthKeypoint (Z.to_nat (w * h)) image (w, h) q = Some (found, pos, px)
    /\ (found = true ->
        exists x y,
          0 <= x < w /\ 0 <= y < h
          /\ px = Some (pixelAt image x y)
          /\ (0 < r (pixelAt image x y))%Q
          /\ let next := y * w + x + 1 + skipOffset (pixelAt image x y) in
             pos = (next mod w, next / w))
    /\ (found = false -> h <= snd pos).
Proof.
  intros Hw Hh Hsize Hq.
  destruct (scanLoop_ends image w h q Hw Hsize (Z.to_nat (w * h))
                          (MkScan 0 (-1) (0, 0) None))
    as [s' [Hloop [Hstop Hfrom]]].
  - split; [cbn [i]; nia|].
    split; [cbn [i position]; now rewrite Zmod_0_l, Zdiv_0_l | cbn [i p]; lia].
  - cbn [i]. lia.
  - now left.
  - unfold findQthKeypoint. rewrite Hloop.
    exists (p s' =? q), (position s'), (pixel s').
    split; [reflexivity|]. split.
    + intros Hfound. apply Z.eqb_eq in Hfound.
      destruct Hfrom as [->|[s0 [Hinv [Hs ->]]]]; [cbn [p] in Hfound; lia|].
      rewrite (scanStep_fields image w h q Hw Hsize s0 Hinv Hs) in *.
      destruct (searching_inside w h q Hw Hsize s0 Hinv Hs)
        as [Hne [_ [Hy Hx]]].
      cbn [p position pixel] in *.
      exists (i s0 mod w), (i s0 / w).
      destruct (isCorner_cases (pixelAt image (i s0 mod w) (i s0 / w)))
        as [[Hc _]|[_ Hc]]; [lia|].
      repeat split; try lia; try assumption.
      cbv zeta.
      replace (i s0 / w * w + i s0 mod w) with (i s0); [reflexivity|].
      pose proof (Z.div_mod (i s0) w ltac:(lia)). lia.
    + intros Hfound. apply Z.eqb_neq in Hfound.
      unfold searching in Hstop. apply andb_false_iff in Hstop.
      destruct Hstop as [Hstop|Hstop].
      * apply negb_false_iff, Z.eqb_eq in Hstop. contradiction.
      * apply Z.ltb_ge in Hstop. exact Hstop.
Qed.

Lemma findQthKeypoint_finds_witness :
  exists pos px,
    findQthKeypoint 8 exampleImage (4, 2) 1 = Some (true, pos, px)
    /\ pos = (0, 2).
Proof.
  destruct (findQthKeypoint_finds exampleImage 4 2 1)
    as [found [pos [px [H _]]]]; try lia.
  change (Z.to_nat (4 * 2)) with 8%nat in H.
  assert (found = true /\ pos = (0, 2)) as [-> ->].
  { vm_compute in H. injection H as <- <- _. now split. }
  exists (0, 2), px. split; [exact H | reflexivity].
Defined.

End EncodeKeypointsLaws.
(* ===================================================================== *)
(** * Matrices: entries, blocks, the diagonal, the identity *)
(* ===================================================================== *)

Module MatrixLaws.
Import Keypoints Matrix.
Local Open Scope Z_scope.

(** ** Lists *)

Lemma nth_error_all {A : Type} (l : list A) :
  map (nth_error l) (seq 0 (List.length l)) = map Some l.
Proof.
  induction l as [|a l IH]; [reflexivity|].
  cbn [List.length seq map nth_error]. f_equal.
  rewrite <- seq_shift, map_map. exact IH.
Qed.

Lemma flat_map_rows {B : Type} (F : nat -> B) (r c : nat) :
  flat_map (fun j => map (fun i => F (i + j * r)%nat) (seq 0 r)) (seq 0 c)
  = map F (seq 0 (c * r)).
Proof.
  induction c as [|c IH]; [reflexivity|].
  rewrite seq_S, flat_map_app, IH. cbn [flat_map Nat.add].
  rewrite app_nil_r.
  replace (S c * r)%nat with (c * r + r)%nat by lia.
  rewrite seq_app, map_app. f_equal. cbn [Nat.add].
  rewrite <- (TextureReaderLaws.map_shift_seq (c * r) r), map_map.
  apply map_ext. intros i. f_equal. lia.
Qed.

Lemma flat_map_map {A B C : Type} (g : A -> B) (f : B -> list C)
      (l : list A) :
  flat_map f (map g l) = flat_map (fun x => f (g x)) l.
Proof.
  induction l as [|a l IH]; [reflexivity|]. simpl. now rewrite IH.
Qed.

Section Laws.

Variable number : Type.
Variable zero one : number.
Variable stored : number -> number.
Variable SpeedyMatrixExpr : Z -> Z -> option (Z * Z).

(** What is taken for granted of the constructor of the class that is
    not among the sources: given a shape, it keeps it. *)
Hypothesis expr_keeps :
  forall rows columns, 0 < rows -> 0 < columns ->
                       SpeedyMatrixExpr rows columns = Some (rows, columns).

Let Matrix_ : Type := SpeedyMatrix number.
Let new := newSpeedyMatrix number SpeedyMatrixExpr.
Let at_ := Matrix.at_ number.
Let element := Matrix.element number.
Let subarray := Matrix.subarray number.

Lemma newSpeedyMatrix_ok (rows columns step0 step1 : Z)
      (data : TypedArray number) :
  0 < rows -> 0 < columns ->
  0 < step0 <= step1 -> step1 < 2 ^ 31 ->
  Z.of_nat (List.length data)
  = 1 + step0 * (rows - 1) + step1 * (columns - 1) ->
  new rows columns step0 step1 data
  = Return (MkMatrix number rows columns step0 step1 data)
  /\ wellShaped number (MkMatrix number rows columns step0 step1 data).
Proof.
  intros Hr Hc Hs Hb Hlen. split.
  - unfold new, newSpeedyMatrix. rewrite expr_keeps by assumption.
    destruct (Z.ltb_spec 0 step0); [|lia].
    destruct (Z.leb_spec step0 step1); [|lia]. cbn [andb negb].
    rewrite Hlen, Z.eqb_refl, orb_true_r. cbn [negb].
    now rewrite !KeypointLaws.wrap_small by lia.
  - unfold wellShaped. cbn [_rows _columns _step0 _step1 _data].
    repeat split; try lia; assumption.
Qed.

Lemma element_index (data : TypedArray number) (k : Z) :
  0 <= k -> element data k = nth_error data (Z.to_nat k).
Proof.
  intros H. unfold element, Matrix.element.
  destruct (Z.ltb_spec k 0); [lia | reflexivity].
Qed.

Lemma subarray_window (data : TypedArray number) (begin end_ : Z) :
  0 <= begin <= end_ ->
  end_ <= Z.of_nat (List.length data) ->
  Z.of_nat (List.length (subarray data begin end_)) = end_ - begin
  /\ forall k, 0 <= k < end_ - begin ->
               element (subarray data begin end_) k
               = element data (begin + k).
Proof.
  intros Hb He. unfold subarray, Matrix.subarray, relativeIndex.
  destruct (Z.ltb_spec begin 0); [lia|].
  destruct (Z.ltb_spec end_ 0); [lia|].
  rewrite !Z.min_l, Z.max_l by lia. split.
  - rewrite length_firstn, length_skipn. lia.
  - intros k Hk. rewrite !element_index by lia.
    rewrite nth_error_firstn.
    destruct (Nat.ltb_spec (Z.to_nat k) (Z.to_nat (end_ - begin))); [|lia].
    rewrite nth_error_skipn. f_equal. lia.
Qed.

(** ** Entries *)

(** X24. [Create] makes a matrix of the shape it is given out of as many
    entries as the shape has, in column-major order: [read] gives the
    entries back, each as the array has stored it, and [at] gives for a
    row and a column the entry at the place column * rows + row, and
    [undefined] outside the shape. *)
Theorem Create_read_at (rows columns : Z) (entries : list number) :
  0 < rows < 2 ^ 31 ->
  0 < columns ->
  rows * columns = Z.of_nat (List.length entries) ->
  exists this : Matrix_,
    Create number stored SpeedyMatrixExpr rows columns entries = Return this
    /\ wellShaped number this
    /\ _rows number this = rows /\ _columns number this = columns
    /\ read number this = map (fun x => Some (stored x)) entries
    /\ forall row column,
         at_ this row column
         = if (0 <=? row) && (row <? rows)
              && (0 <=? column) && (column <? columns)
           then option_map stored
                  (nth_error entries (Z.to_nat (column * rows + row)))
           else None.
Proof.
  intros Hr Hc Hlen.
  assert (0 < rows * columns) as Hpos by nia.
  assert (Z.of_nat (List.length (map stored entries))
          = 1 + 1 * (rows - 1) + rows * (columns - 1)) as Hlen'
      by (rewrite length_map; lia).
  destruct (newSpeedyMatrix_ok rows columns 1 rows (map stored entries))
    as [Hnew Hwell]; try assumption; try lia.
  exists (MkMatrix number rows columns 1 rows (map stored entries)).
  split; [|split; [exact Hwell | split; [reflexivity | split;
                                          [reflexivity | split]]]].
  - unfold Create. destruct (Z.ltb_spec 0 (rows * columns)); [|lia].
    rewrite Hlen, Z.eqb_refl. cbn [negb]. exact Hnew.
  - unfold read, upto. cbn [_rows _columns _step0 _step1 _data].
    rewrite flat_map_map.
    rewrite (flat_map_ext _
               (fun j => map (fun i => nth_error (map stored entries)
                                                 (i + j * Z.to_nat rows)%nat)
                             (seq 0 (Z.to_nat rows)))).
    + rewrite flat_map_rows.
      replace (Z.to_nat columns * Z.to_nat rows)%nat
        with (List.length (map stored entries))
        by (rewrite length_map; nia).
      now rewrite nth_error_all, map_map.
    + intros j. rewrite map_map. apply map_ext. intros i.
      fold element. rewrite element_index by nia. f_equal. nia.
  - intros row column. unfold at_, Matrix.at_.
    cbn [_rows _columns _step0 _step1 _data].
    destruct ((0 <=? row) && (row <? rows) && (0 <=? column)
              && (column <? columns)) eqn:E; [|reflexivity].
    apply andb_prop in E. destruct E as [E E4].
    apply andb_prop in E. destruct E as [E E3].
    apply andb_prop in E. destruct E as [E1 E2].
    apply Z.leb_le in E1, E3. apply Z.ltb_lt in E2, E4.
    fold element. rewrite element_index by nia.
    rewrite nth_error_map. do 2 f_equal. lia.
Qed.

(** ** Blocks *)

(** A block is a window on the array of the matrix. *)
Lemma block_window (this : Matrix_)
        (firstRow lastRow firstColumn lastColumn : Z) :
  wellShaped number this ->
  0 <= firstRow <= lastRow -> lastRow < _rows number this ->
  0 <= firstColumn <= lastColumn -> lastColumn < _columns number this ->
  exists b : Matrix_,
    block number SpeedyMatrixExpr this firstRow lastRow firstColumn
          lastColumn = Return b
    /\ wellShaped number b
    /\ _rows number b = lastRow - firstRow + 1
    /\ _columns number b = lastColumn - firstColumn + 1
    /\ forall row column,
         0 <= row < _rows number b ->
         0 <= column < _columns number b ->
         at_ b row column
         = at_ this (firstRow + row) (firstColumn + column).
Proof.
  intros [Hr [Hc [Hs [Hb Hlen]]]] Hrow Hrow' Hcol Hcol'.
  set (s0 := _step0 number this) in *. set (s1 := _step1 number this) in *.
  set (begin := firstRow * s0 + firstColumn * s1).
  set (end_ := 1 + lastRow * s0 + lastColumn * s1).
  assert (0 <= firstRow * s0 <= lastRow * s0) as H1 by nia.
  assert (0 <= firstColumn * s1 <= lastColumn * s1) as H2 by nia.
  assert (lastRow * s0 <= s0 * (_rows number this - 1)) as H3 by nia.
  assert (lastColumn * s1 <= s1 * (_columns number this - 1)) as H4 by nia.
  destruct (subarray_window (_data number this) begin end_)
    as [Hsub Hwin]; [unfold begin, end_; lia | unfold end_; lia |].
  assert (Z.of_nat (List.length (subarray (_data number this) begin end_))
          = 1 + s0 * (lastRow - firstRow + 1 - 1)
            + s1 * (lastColumn - firstColumn + 1 - 1)) as Hlen'
      by (rewrite Hsub; unfold begin, end_; ring).
  destruct (newSpeedyMatrix_ok (lastRow - firstRow + 1)
              (lastColumn - firstColumn + 1) s0 s1
              (subarray (_data number this) begin end_))
    as [Hnew Hwell]; try assumption; try lia.
  eexists. split; [|split; [exact Hwell | split; [reflexivity | split;
                                                   [reflexivity|]]]].
  - unfold block. destruct (Z.leb_spec firstRow lastRow); [|lia].
    destruct (Z.leb_spec firstColumn lastColumn); [|lia]. cbn [andb negb].
    rewrite !Z.max_l, !Z.min_l by lia. exact Hnew.
  - cbn [_rows _columns]. intros row column Hi Hj.
    unfold at_, Matrix.at_. cbn [_rows _columns _step0 _step1 _data].
    fold s0. fold s1.
    destruct (Z.leb_spec 0 row); [|lia].
    destruct (Z.ltb_spec row (lastRow - firstRow + 1)); [|lia].
    destruct (Z.leb_spec 0 column); [|lia].
    destruct (Z.ltb_spec column (lastColumn - firstColumn + 1)); [|lia].
    destruct (Z.leb_spec 0 (firstRow + row)); [|lia].
    destruct (Z.ltb_spec (firstRow + row) (_rows number this)); [|lia].
    destruct (Z.leb_spec 0 (firstColumn + column)); [|lia].
    destruct (Z.ltb_spec (firstColumn + column) (_columns number this));
      [|lia].
    cbn [andb].
    assert (0 <= s0 * row <= s0 * (lastRow - firstRow)) by nia.
    assert (0 <= s1 * column <= s1 * (lastColumn - firstColumn)) by nia.
    fold element. fold subarray. rewrite Hwin by (unfold begin, end_; lia).
    f_equal. unfold begin. ring.
Qed.

(** X25. A block of a matrix, with its rows and columns within the
    matrix, is a matrix of its own shape on the same steps, and its
    entry at a row and a column is the entry of the matrix at that row
    and column counted from the first row and column of the block. *)
Theorem block_at (this : Matrix_)
        (firstRow lastRow firstColumn lastColumn : Z) :
  wellShaped number this ->
  0 <= firstRow <= lastRow -> lastRow < _rows number this ->
  0 <= firstColumn <= lastColumn -> lastColumn < _columns number this ->
  exists b : Matrix_,
    block number SpeedyMatrixExpr this firstRow lastRow firstColumn
          lastColumn = Return b
    /\ wellShaped number b
    /\ _rows number b = lastRow - firstRow + 1
    /\ _columns number b = lastColumn - firstColumn + 1
    /\ forall row column,
         0 <= row < _rows number b ->
         0 <= column < _columns number b ->
         at_ b row column
         = at_ this (firstRow + row) (firstColumn + column).
Proof.
  intros Hwell Hrow Hrow' Hcol Hcol'.
  destruct (block_window this firstRow lastRow firstColumn lastColumn
                         Hwell Hrow Hrow' Hcol Hcol')
    as [b [Hb [Hwb [Hrows [Hcols Hat]]]]].
  exists b. repeat split; try assumption; apply Hwb.
Qed.

(** X26. A row of a matrix is a matrix of one row, and a column of a
    matrix a matrix of one column, with the entries of that row or
    column of the matrix. *)
Theorem row_column_at (this : Matrix_) (index : Z) :
  wellShaped number this ->
  (0 <= index < _rows number this ->
   exists r : Matrix_,
     row number SpeedyMatrixExpr this index = Return r
     /\ _rows number r = 1
     /\ _columns number r = _columns number this
     /\ forall j, 0 <= j < _columns number this ->
                  at_ r 0 j = at_ this index j)
  /\ (0 <= index < _columns number this ->
      exists c : Matrix_,
        column number SpeedyMatrixExpr this index = Return c
        /\ _rows number c = _rows number this
        /\ _columns number c = 1
        /\ forall i, 0 <= i < _rows number this ->
                     at_ c i 0 = at_ this i index).
Proof.
  intros Hwell. pose proof Hwell as [Hr [Hc _]]. split; intros Hi.
  - destruct (block_window this index index 0 (_columns number this - 1))
      as [b [Hb [_ [Hrows [Hcols Hat]]]]]; try assumption; try lia.
    exists b. split; [exact Hb|]. split; [lia|]. split; [lia|].
    intros j Hj.
    rewrite Hat by lia. f_equal; lia.
  - destruct (block_window this 0 (_rows number this - 1) index index)
      as [b [Hb [_ [Hrows [Hcols Hat]]]]]; try assumption; try lia.
    exists b. split; [exact Hb|]. split; [lia|]. split; [lia|].
    intros i Hi'.
    rewrite Hat by lia. f_equal; lia.
Qed.


(** X27. The diagonal of a matrix is a column vector as long as the
    matrix has rows or columns, whichever is less; its entry at a row is
    the entry of the matrix at that row and the column of the same
    number. *)
Theorem diagonal_at (this : Matrix_) :
  wellShaped number this ->
  _step0 number this + _step1 number this < 2 ^ 31 ->
  exists d : Matrix_,
    diagonal number SpeedyMatrixExpr this = Return d
    /\ _rows number d = Z.min (_rows number this) (_columns number this)
    /\ _columns number d = 1
    /\ forall index,
         0 <= index < _rows number d ->
         at_ d index 0 = at_ this index index.
Proof.
  intros [Hr [Hc [Hs [Hb Hlen]]]] Hsum.
  set (s0 := _step0 number this) in *. set (s1 := _step1 number this) in *.
  set (diagsize := Z.min (_rows number this) (_columns number this)).
  set (end_ := 1 + (diagsize - 1) * (s0 + s1)).
  assert (0 < diagsize) as Hd by (unfold diagsize; lia).
  assert ((diagsize - 1) * s0 <= s0 * (_rows number this - 1)) as H1
      by (unfold diagsize; nia).
  assert ((diagsize - 1) * s1 <= s1 * (_columns number this - 1)) as H2
      by (unfold diagsize; nia).
  assert (0 <= (diagsize - 1) * (s0 + s1)) as H3 by nia.
  destruct (subarray_window (_data number this) 0 end_)
    as [Hsub Hwin]; [unfold end_; lia | unfold end_; lia |].
  assert (Z.of_nat (List.length (subarray (_data number this) 0 end_))
          = 1 + (s0 + s1) * (diagsize - 1) + (s0 + s1) * (1 - 1)) as Hlen'
      by (rewrite Hsub; unfold end_; ring).
  destruct (newSpeedyMatrix_ok diagsize 1 (s0 + s1) (s0 + s1)
              (subarray (_data number this) 0 end_))
    as [Hnew _]; try assumption; try lia.
  eexists. split; [exact Hnew|]. split; [reflexivity|].
  split; [reflexivity|].
  cbn [_rows]. intros index Hi.
  unfold at_, Matrix.at_. cbn [_rows _columns _step0 _step1 _data].
  fold s0. fold s1. fold diagsize.
  destruct (Z.leb_spec 0 index); [|lia].
  destruct (Z.ltb_spec index diagsize); [|lia].
  destruct (Z.ltb_spec index (_rows number this));
    [|unfold diagsize in *; lia].
  destruct (Z.ltb_spec index (_columns number this));
    [|unfold diagsize in *; lia].
  cbn [andb Z.leb Z.ltb Z.compare].
  assert (0 <= (s0 + s1) * index <= (s0 + s1) * (diagsize - 1)) by nia.
  fold element. fold subarray. rewrite Hwin by (unfold end_; lia).
  f_equal. ring.
Qed.

(** ** The identity *)

Lemma setNth_length (array : TypedArray number) (index : nat)
      (value : number) :
  List.length (setNth number array index value) = List.length array.
Proof.
  revert index. induction array as [|x array IH]; intros [|index]; simpl;
    try reflexivity. now rewrite IH.
Qed.

Lemma setNth_nth_error (array : TypedArray number) (index k : nat)
      (value : number) :
  (index < List.length array)%nat ->
  nth_error (setNth number array index value) k
  = if (k =? index)%nat then Some value else nth_error array k.
Proof.
  revert index k.
  induction array as [|x array IH]; intros [|index] [|k] H; simpl in *;
    try lia; try reflexivity.
  apply IH. lia.
Qed.

Lemma eyeLoop_length (count : nat) (rows : Z) (data : TypedArray number) :
  List.length (eyeLoop number one stored count rows data)
  = List.length data.
Proof.
  revert data. induction count as [|j IH]; intros data; [reflexivity|].
  cbn [eyeLoop]. rewrite IH. unfold setElement.
  destruct (_ <? 0); [reflexivity | apply setNth_length].
Qed.

Lemma eyeLoop_entries (rows columns : Z) (count : nat) :
  0 < rows -> 0 < columns ->
  Z.of_nat count <= Z.min rows columns ->
  forall (data : TypedArray number) (row column : Z),
    Z.of_nat (List.length data) = rows * columns ->
    0 <= row < rows -> 0 <= column < columns ->
    element (eyeLoop number one stored count rows data)
            (row + rows * column)
    = if (row =? column) && (row <? Z.of_nat count)
      then Some (stored one)
      else element data (row + rows * column).
Proof.
  intros Hr Hc. induction count as [|j IH];
    intros Hcount data row column Hlen Hrow Hcol.
  - cbn [eyeLoop]. destruct (Z.ltb_spec row (Z.of_nat 0)); [lia|].
    now rewrite andb_false_r.
  - cbn [eyeLoop].
    assert (0 <= Z.of_nat j * rows + Z.of_nat j < rows * columns) as Hj
        by nia.
    assert (0 <= row + rows * column < rows * columns) as Hk by nia.
    rewrite IH; try assumption; try lia.
    + unfold setElement.
      destruct (Z.ltb_spec (Z.of_nat j * rows + Z.of_nat j) 0); [lia|].
      rewrite !element_index by lia.
      rewrite setNth_nth_error by lia.
      destruct (Z.eqb_spec row column) as [->|Hne]; cbn [andb].
      * destruct (Z.ltb_spec column (Z.of_nat j)),
                 (Z.ltb_spec column (Z.of_nat (S j))); try lia;
          try reflexivity.
        -- destruct (Nat.eqb_spec
                       (Z.to_nat (column + rows * column))
                       (Z.to_nat (Z.of_nat j * rows + Z.of_nat j)));
             [reflexivity | nia].
        -- destruct (Nat.eqb_spec
                       (Z.to_nat (column + rows * column))
                       (Z.to_nat (Z.of_nat j * rows + Z.of_nat j)));
             [nia | reflexivity].
      * destruct (Nat.eqb_spec
                    (Z.to_nat (row + rows * column))
                    (Z.to_nat (Z.of_nat j * rows + Z.of_nat j)));
          [|reflexivity].
        exfalso. apply Hne.
        assert (row + rows * column = Z.of_nat j * rows + Z.of_nat j)
          by lia.
        assert (Z.of_nat j < rows) by lia.
        assert (column = Z.of_nat j) by nia. lia.
    + unfold setElement. destruct (_ <? 0); [assumption|].
      now rewrite setNth_length.
Qed.

(** X28. [Eye] makes the identity: a matrix of the shape it is given
    whose entry is one where the row and the column have the same
    number, and zero elsewhere. *)
Theorem Eye_at (rows columns : Z) :
  0 < rows < 2 ^ 31 ->
  0 < columns ->
  exists this : Matrix_,
    Eye number zero one stored SpeedyMatrixExpr rows columns = Return this
    /\ _rows number this = rows /\ _columns number this = columns
    /\ forall row column,
         0 <= row < rows -> 0 <= column < columns ->
         at_ this row column
         = Some (if row =? column then stored one else zero).
Proof.
  intros Hr Hc.
  assert (0 < rows * columns) as Hpos by nia.
  set (zeros := repeat zero (Z.to_nat (rows * columns))).
  set (data := eyeLoop number one stored (Z.to_nat (Z.min rows columns))
                       rows zeros).
  assert (Z.of_nat (List.length zeros) = rows * columns) as Hz
      by (unfold zeros; rewrite repeat_length; lia).
  assert (Z.of_nat (List.length data)
          = 1 + 1 * (rows - 1) + rows * (columns - 1)) as Hlen'
      by (unfold data; rewrite eyeLoop_length, Hz; ring).
  destruct (newSpeedyMatrix_ok rows columns 1 rows data)
    as [Hnew _]; try assumption; try lia.
  exists (MkMatrix number rows columns 1 rows data).
  split; [|split; [reflexivity | split; [reflexivity|]]].
  - unfold Eye. destruct (Z.ltb_spec 0 (rows * columns)); [|lia].
    cbn [negb]. exact Hnew.
  - intros row column Hrow Hcol.
    unfold at_, Matrix.at_. cbn [_rows _columns _step0 _step1 _data].
    destruct (Z.leb_spec 0 row); [|lia].
    destruct (Z.ltb_spec row rows); [|lia].
    destruct (Z.leb_spec 0 column); [|lia].
    destruct (Z.ltb_spec column columns); [|lia].
    cbn [andb]. rewrite Z.mul_1_l. fold element. unfold data.
    rewrite (eyeLoop_entries rows columns) by (assumption || lia).
    destruct (Z.eqb_spec row column) as [->|Hne]; cbn [andb].
    + destruct (Z.ltb_spec column
                  (Z.of_nat (Z.to_nat (Z.min rows columns)))); [|lia].
      reflexivity.
    + rewrite element_index by nia. unfold zeros.
      rewrite nth_error_repeat by nia. reflexivity.
Qed.

End Laws.

(** The four theorems with the constructor of the examples. *)

Lemma exampleExpr_keeps (rows columns : Z) :
  0 < rows -> 0 < columns -> exampleExpr rows columns = Some (rows, columns).
Proof.
  intros Hr Hc. unfold exampleExpr.
  destruct (Z.ltb_spec 0 rows); [|lia].
  destruct (Z.ltb_spec 0 columns); [|lia]. reflexivity.
Qed.

Lemma Create_read_at_witness :
  exists this,
    Create Z (fun x => x) exampleExpr 2 3 [1; 2; 3; 4; 5; 6] = Return this
    /\ read Z this = [Some 1; Some 2; Some 3; Some 4; Some 5; Some 6]
    /\ Matrix.at_ Z this 1 2 = Some 6.
Proof.
  destruct (Create_read_at Z (fun x => x) exampleExpr exampleExpr_keeps
                           2 3 [1; 2; 3; 4; 5; 6])
    as [this [H [_ [_ [_ [Hread Hat]]]]]]; try (simpl; lia).
  exists this. split; [exact H|]. split; [exact Hread|].
  rewrite Hat. reflexivity.
Defined.

Lemma block_at_witness :
  let this := MkMatrix Z 3 3 1 3 [1; 2; 3; 4; 5; 6; 7; 8; 9] in
  exists b,
    block Z exampleExpr this 1 2 1 2 = Return b
    /\ Matrix.at_ Z b 0 1 = Matrix.at_ Z this 1 2.
Proof.
  intros this.
  destruct (block_at Z exampleExpr exampleExpr_keeps this 1 2 1 2)
    as [b [H [_ [Hrows [Hcols Hat]]]]]; try (simpl; lia).
  { unfold wellShaped. simpl. lia. }
  exists b. split; [exact H|].
  apply Hat; [rewrite Hrows | rewrite Hcols]; lia.
Defined.

Lemma row_column_at_witness :
  let this := MkMatrix Z 3 3 1 3 [1; 2; 3; 4; 5; 6; 7; 8; 9] in
  exists r,
    row Z exampleExpr this 1 = Return r
    /\ Matrix.at_ Z r 0 2 = Matrix.at_ Z this 1 2.
Proof.
  intros this.
  destruct (proj1 (row_column_at Z exampleExpr exampleExpr_keeps this 1
                                 ltac:(unfold wellShaped; simpl; lia)))
    as [r [H [_ [_ Hat]]]]; [simpl; lia|].
  exists r. split; [exact H|]. apply Hat. simpl. lia.
Defined.

Lemma diagonal_at_witness :
  let this := MkMatrix Z 2 3 1 2 [1; 2; 3; 4; 5; 6] in
  exists d,
    diagonal Z exampleExpr this = Return d
    /\ Matrix.at_ Z d 1 0 = Matrix.at_ Z this 1 1.
Proof.
  intros this.
  destruct (diagonal_at Z exampleExpr exampleExpr_keeps this)
    as [d [H [Hrows [_ Hat]]]]; try (simpl; lia).
  { unfold wellShaped. simpl. lia. }
  exists d. split; [exact H|].
  apply Hat. rewrite Hrows. simpl. lia.
Defined.

Lemma Eye_at_witness :
  exists this,
    Eye Z 0 1 (fun x => x) exampleExpr 2 3 = Return this
    /\ Matrix.at_ Z this 1 1 = Some 1
    /\ Matrix.at_ Z this 1 2 = Some 0.
Proof.
  destruct (Eye_at Z 0 1 (fun x => x) exampleExpr exampleExpr_keeps 2 3)
    as [this [H [_ [_ Hat]]]]; try lia.
  exists this. split; [exact H|].
  split; rewrite Hat by lia; reflexivity.
Defined.

End MatrixLaws.
